(** * pymachine: construction matching and spreading activation

    A shallow embedding of
    - [constructions.py]: simple rule-based constructions and their commands,
    - [pymachine/construction.py]: automaton-based constructions,
    - [spreading_activation.py]: the activation loop,
    together with the properties of these programs stated in the
    specification. *)

From Stdlib Require Import Ascii String.
From stdpp Require Import gmap strings list fin_maps functions sorting.

Set Warnings "-clear-no-such-hyp,-register-all".

(** ** Python values shared by the three modules *)

(** Exceptions the embedded code can raise. *)
Inductive exn : Type :=
  | NotImplementedError
  | KeyError
  | AttributeError
  | AssertionError
  | TypeError
  | IndexError
  | ReError.

(** The outcome of a call: a returned value or a raised exception. *)
Inductive result (A : Type) : Type :=
  | Ret (a : A)
  | Raise (e : exn).
Arguments Ret {A} a.
Arguments Raise {A} e.

(** A [for] loop over [l] whose body may raise. *)
Fixpoint for_each {A X : Type} (body : A → X → result A) (a : A) (l : list X)
    : result A :=
  match l with
  | [] => Ret a
  | x :: l' =>
      match body a x with
      | Ret a' => for_each body a' l'
      | Raise e => Raise e
      end
  end.

(** A dict filled by successive assignments [d[k] = v]. *)
Section assign.
Context `{Countable K} {V : Type}.

Definition assign_all (l : list (K * V)) (d : gmap K V) : gmap K V :=
  foldl (λ d kv, <[kv.1 := kv.2]> d) d l.

Lemma assign_all_snoc l k v d :
  assign_all (l ++ [(k, v)]) d = <[k := v]> (assign_all l d).
Proof. unfold assign_all. by rewrite foldl_app. Qed.

Lemma assign_all_dom l :
  dom (assign_all l ∅) = list_to_set l.*1.
Proof.
  induction l as [|[k v] l IH] using rev_ind; [by cbn; rewrite dom_empty_L|].
  rewrite assign_all_snoc, dom_insert_L, IH, fmap_app, list_to_set_app_L.
  simpl. set_solver.
Qed.

Lemma assign_all_lookup_elem l k v :
  assign_all l ∅ !! k = Some v → (k, v) ∈ l.
Proof.
  induction l as [|[k' v'] l IH] using rev_ind; [by cbn; rewrite lookup_empty|].
  rewrite assign_all_snoc, lookup_insert. case_decide as Hk.
  - intros [= ->]. subst. set_solver.
  - set_solver.
Qed.

Lemma assign_all_size_le l : size (assign_all l ∅) ≤ length l.
Proof.
  induction l as [|[k v] l IH] using rev_ind; [by cbn; rewrite map_size_empty|].
  rewrite assign_all_snoc, length_app. simpl.
  destruct (assign_all l ∅ !! k) eqn:E.
  - rewrite map_size_insert_Some by eauto. lia.
  - rewrite map_size_insert_None by done. lia.
Qed.

Lemma assign_all_size_NoDup l :
  size (assign_all l ∅) = length l ↔ NoDup l.*1.
Proof.
  induction l as [|[k v] l IH] using rev_ind.
  { cbn. rewrite map_size_empty. split; [constructor|done]. }
  rewrite assign_all_snoc, length_app, fmap_app, NoDup_app. simpl.
  pose proof (assign_all_size_le l) as Hle.
  destruct (assign_all l ∅ !! k) eqn:E.
  - rewrite map_size_insert_Some by eauto. split; [lia|].
    intros (_ & Hk & _). exfalso. apply (Hk k); [|set_solver].
    apply assign_all_lookup_elem in E.
    apply list_elem_of_fmap. by exists (k, v0).
  - rewrite map_size_insert_None by done. split.
    + intros Hs. split_and!; [apply IH; lia| |apply NoDup_singleton].
      intros k' Hk' ->%list_elem_of_singleton.
      apply not_elem_of_dom in E. rewrite assign_all_dom in E. set_solver.
    + intros (Hl & _ & _). apply IH in Hl. lia.
Qed.

Lemma assign_all_lookup_NoDup l k v :
  NoDup l.*1 → assign_all l ∅ !! k = Some v ↔ (k, v) ∈ l.
Proof.
  intros Hnd. split; [apply assign_all_lookup_elem|].
  induction l as [|[k' v'] l IH] using rev_ind; [set_solver|].
  rewrite fmap_app, NoDup_app in Hnd. destruct Hnd as (Hl & Hk & _).
  rewrite assign_all_snoc, lookup_insert, elem_of_app, list_elem_of_singleton.
  intros [Hin|[= -> ->]]; [|by rewrite decide_True].
  case_decide as Hkk; [|by apply IH].
  subst. exfalso. apply (Hk k); [|set_solver].
  apply list_elem_of_fmap. by exists (k, v).
Qed.
End assign.

(** [itertools.permutations(iterable, r)]: the sequences of [r] elements
    taken at different positions of the iterable, in the lexicographic
    order of the positions. *)
Section itertools.
Context {A : Type}.

(** Every element with the elements at the other positions. *)
Fixpoint selections (l : list A) : list (A * list A) :=
  match l with
  | [] => []
  | x :: l' => (x, l') :: ((λ yr, (yr.1, x :: yr.2)) <$> selections l')
  end.

Fixpoint permutations (l : list A) (r : nat) : list (list A) :=
  match r with
  | 0 => [[]]
  | S r' =>
      flat_map (λ xr, (λ p, xr.1 :: p) <$> permutations xr.2 r') (selections l)
  end.

Lemma selections_elem x rest l :
  (x, rest) ∈ selections l → x :: rest ≡ₚ l.
Proof.
  revert x rest. induction l as [|y l IH]; intros x rest; simpl.
  - by intros ?%elem_of_nil.
  - intros [[= -> ->]|Hin]%elem_of_cons; [done|].
    apply list_elem_of_fmap in Hin as ([x' r'] & [= -> ->] & Hin).
    simpl. rewrite <-(IH _ _ Hin). apply Permutation_swap.
Qed.

Lemma permutations_elem l r p :
  p ∈ permutations l r → length p = r ∧ p ⊆+ l.
Proof.
  revert l p. induction r as [|r IH]; intros l p; simpl.
  - intros ->%list_elem_of_singleton. split; [done|]. apply submseteq_nil_l.
  - intros Hin. apply list_elem_of_In, in_flat_map in Hin
      as ([x rest] & Hsel%list_elem_of_In & Hp%list_elem_of_In).
    simpl in Hp. apply list_elem_of_fmap in Hp as (p' & -> & Hp').
    apply IH in Hp' as [Hlen Hsub]. split; [simpl; lia|].
    apply selections_elem in Hsel. rewrite <-Hsel.
    by apply submseteq_skip.
Qed.
End itertools.

(** Every selection of different positions is enumerated. *)
Lemma selections_complete {A} `{EqDecision A} (x : A) (l k : list A) :
  l ≡ₚ x :: k → ∃ rest, (x, rest) ∈ selections l ∧ rest ≡ₚ k.
Proof.
  revert k. induction l as [|y l IH]; intros k Hp.
  - by apply Permutation_nil_cons in Hp.
  - destruct (decide (y = x)) as [->|Hne].
    + exists l. split; [by left|by apply Permutation_cons_inv in Hp].
    + assert (y ∈ k) as Hy.
      { assert (y ∈ x :: k) as Hin by (rewrite <-Hp; by left).
        by apply elem_of_cons in Hin as [|]. }
      apply elem_of_Permutation in Hy as [k' Hk'].
      destruct (IH (k')) as (rest & Hin & Hrest).
      { apply (Permutation_cons_inv (a:=y)). rewrite Hp, Hk'.
        apply Permutation_swap. }
      exists (y :: rest). split.
      * simpl. right. apply list_elem_of_fmap. by exists (x, rest).
      * by rewrite Hrest, Hk'.
Qed.

Lemma permutations_complete {A} `{EqDecision A} (l p : list A) :
  p ⊆+ l → p ∈ permutations l (length p).
Proof.
  revert l. induction p as [|x p IH]; intros l Hsub; simpl.
  - by left.
  - apply submseteq_cons_l in Hsub as (k & Hl & Hsub).
    destruct (selections_complete x l k Hl) as (rest & Hin & Hrest).
    apply list_elem_of_In, in_flat_map. exists (x, rest).
    split; [by apply list_elem_of_In|]. simpl.
    apply list_elem_of_In, list_elem_of_fmap. exists p. split; [done|].
    apply IH. by rewrite Hrest.
Qed.

Example permutations_order :
  permutations [1; 2; 3] 2 = [[1; 2]; [1; 3]; [2; 1]; [2; 3]; [3; 1]; [3; 2]].
Proof. reflexivity. Qed.

(** ** Units and their partitions

    A unit (Python [Machine]) is an object with identity: the embedding
    names units by a type [U] with decidable equality, and keeps the
    mutable part of every unit, its ordered list of partitions, in a store
    indexed by the unit. *)

Abbreviation store U := (U → list (list U)).

Section partitions.
Context {U : Type} `{EqDecision U}.

(** Modelled from the spec: [Machine.append(i, what)] (machine module, not
    in the sources) splices [what] into partition index [i] of the unit
    (§4.3, Merge); partitions that do not exist yet up to [i] are
    created empty. *)
Definition append_part (i : nat) (what : U) (ps : list (list U))
    : list (list U) :=
  alter (λ p, p ++ [what]) i (ps ++ replicate (S i - length ps) []).

Definition machine_append (m : U) (i : nat) (what : U) (σ : store U)
    : store U :=
  <[m := append_part i what (σ m)]> σ.

Lemma append_part_lookup i what ps :
  append_part i what ps !! i = Some (default [] (ps !! i) ++ [what]).
Proof.
  unfold append_part. rewrite list_lookup_alter, decide_True by done.
  destruct (decide (i < length ps)) as [Hlt|Hge].
  - destruct (lookup_lt_is_Some_2 ps i Hlt) as [p Hp].
    rewrite lookup_app_l by lia. by rewrite Hp.
  - rewrite (lookup_ge_None_2 ps i) by lia.
    rewrite lookup_app_r by lia.
    rewrite lookup_replicate_2 by lia. done.
Qed.

Lemma append_part_lookup_ne i j what ps :
  i ≠ j → j < length ps → append_part i what ps !! j = ps !! j.
Proof.
  intros Hij Hj. unfold append_part.
  rewrite list_lookup_alter, decide_False by done.
  by rewrite lookup_app_l by lia.
Qed.

(** Modelled from the spec: [Machine.base.find(what)], [Machine.remove(what,
    partition)] and [Machine.append_if_not_there(what, partition)] (machine
    module, not in the sources), the partition operations the link
    resolution uses (§3, partitions are ordered sets of references):
    the indices of the partitions that hold [what]; [what] taken out of
    partition [i]; [what] put at the end of partition [i] unless it is
    there. *)
Fixpoint find_from (n : nat) (what : U) (ps : list (list U)) : list nat :=
  match ps with
  | [] => []
  | p :: ps' =>
      (if decide (what ∈ p) then [n] else []) ++ find_from (S n) what ps'
  end.

Definition remove_part (what : U) (i : nat) (ps : list (list U))
    : list (list U) :=
  alter (filter (λ x, x ≠ what)) i ps.

Definition add_part_if_absent (what : U) (i : nat) (ps : list (list U))
    : list (list U) :=
  alter (λ p, if decide (what ∈ p) then p else p ++ [what]) i ps.

Definition machine_find (m what : U) (σ : store U) : list nat :=
  find_from 0 what (σ m).

Definition machine_remove (m what : U) (i : nat) (σ : store U) : store U :=
  <[m := remove_part what i (σ m)]> σ.

Definition machine_append_if_not_there (m what : U) (i : nat) (σ : store U)
    : store U :=
  <[m := add_part_if_absent what i (σ m)]> σ.

Lemma find_from_elem n what ps j :
  j ∈ find_from n what ps ↔
  n ≤ j ∧ ∃ p, ps !! (j - n) = Some p ∧ what ∈ p.
Proof.
  revert n. induction ps as [|p ps IH]; intros n; simpl.
  - split; [by intros ?%elem_of_nil|]. by intros (_ & ? & ? & _).
  - rewrite elem_of_app, IH. split.
    + intros [Hj|(Hle & q & Hq & Hin)].
      * case_decide; [|by apply elem_of_nil in Hj].
        apply list_elem_of_singleton in Hj as ->. split; [lia|].
        exists p. by rewrite Nat.sub_diag.
      * split; [lia|]. exists q. split; [|done].
        by replace (j - n) with (S (j - S n)) by lia.
    + intros (Hle & q & Hq & Hin).
      destruct (decide (j = n)) as [->|Hne].
      * left. rewrite Nat.sub_diag in Hq. injection Hq as ->.
        rewrite decide_True by done. set_solver.
      * right. split; [lia|]. exists q. split; [|done].
        by replace (j - n) with (S (j - S n)) in Hq by lia.
Qed.

Lemma find_from_NoDup n what ps : NoDup (find_from n what ps).
Proof.
  revert n. induction ps as [|p ps IH]; intros n; simpl; [constructor|].
  apply NoDup_app. split_and!; [|clear IH|apply IH].
  - case_decide; [apply NoDup_singleton|constructor].
  - intros j Hj [Hle _]%find_from_elem.
    case_decide; [|by apply elem_of_nil in Hj].
    apply list_elem_of_singleton in Hj. lia.
Qed.

(** A loop whose every step rewrites the partitions of one unit [m] acts
    on the store as the loop of the rewritings acts on those partitions. *)
Lemma foldl_local {X} (m : U) (body : store U → X → store U)
    (body_parts : list (list U) → X → list (list U)) :
  (∀ σ x u,
     body σ x u = if decide (u = m) then body_parts (σ m) x else σ u) →
  ∀ l σ u,
    foldl body σ l u
    = if decide (u = m) then foldl body_parts (σ m) l else σ u.
Proof.
  intros Hbody l. induction l as [|x l IH]; intros σ u; simpl.
  - by case_decide; subst.
  - rewrite IH, (Hbody σ x m), (Hbody σ x u).
    rewrite (decide_True (P:=m = m)) by done. by case_decide.
Qed.
End partitions.

(** ** constructions.py: simple rule-based constructions *)

Module constructions.

(** Modelled from the spec: [Control] ([PosControl] of the control module,
    not in the sources) is the category tag built from a category
    pattern; two tags are equal, as dict keys too, when their patterns
    are the same text. *)
Abbreviation Control := string.

Inductive Command : Type :=
  | AppendRegexCommand (into what : Control)
  | OneCommand (stay : Control)
  | VerbCommand.

(** [split_at c s]: the text before and after the first [c] in [s]. *)
Fixpoint split_at (c : Ascii.ascii) (s : string) : option (string * string) :=
  match s with
  | EmptyString => None
  | String a s' =>
      if decide (a = c) then Some (EmptyString, s')
      else match split_at c s' with
           | Some (b, r) => Some (String a b, r)
           | None => None
           end
  end.

(** [append_regex_pattern.match(type_str)], the two groups: the text up to
    the first opening bracket, then the text up to the first closing
    bracket after it. *)
Definition append_regex_pattern (type_str : string)
    : option (string * string) :=
  match split_at "["%char type_str with
  | Some (g1, rest) =>
      match split_at "]"%char rest with
      | Some (g2, _) => Some (g1, g2)
      | None => None
      end
  | None => None
  end.

(** Every character of the text satisfies [f]. *)
Fixpoint all_chars (f : Ascii.ascii → bool) (s : string) : bool :=
  match s with
  | EmptyString => true
  | String a s' => f a && all_chars f s'
  end.

(** [s.split(sep)] for a separator of one character: there is always a
    first field. *)
Fixpoint split (sep : Ascii.ascii) (s : string) : list string :=
  match s with
  | EmptyString => [EmptyString]
  | String a s' =>
      if decide (a = sep) then EmptyString :: split sep s'
      else match split sep s' with
           | field :: fields => String a field :: fields
           | [] => [String a EmptyString]
           end
  end.

(** The characters that are operators of Python's regular expressions
    (092 is the backslash); every other character of a pattern stands
    for itself. *)
Definition special (a : Ascii.ascii) : bool :=
  bool_decide (a ∈ ["."; "^"; "$"; "*"; "+"; "?"; "{"; "}"; "["; "]";
                    "092"; "|"; "("; ")"]%char).

(** A text without operators: as a pattern it matches itself only. *)
Definition plain_text (s : string) : bool :=
  all_chars (λ a, negb (special a)) s.

Definition plain (s : string) : Prop := plain_text s = true.

(** A compiled pattern, as its method [match]: group 0 of the match of the
    pattern at the start of the text, [None] when there is none. *)
Definition Pattern : Type := string → option string.

(** What is assumed of [re.compile] where an assumption is made: an
    alternation of plain texts compiles, and matches as the first of the
    texts that starts the subject; joined from no text at all it is the
    empty pattern, which matches the empty text. Of patterns with
    operators nothing is assumed: they may compile to any pattern, or
    raise [re.error]. *)
Definition plain_alternation (re_compile : string → result Pattern) : Prop :=
  ∀ terminals, Forall plain terminals →
    ∃ pattern,
      re_compile (String.concat "|" terminals) = Ret pattern ∧
      ∀ type_str,
        pattern type_str
        = match terminals with
          | [] => Some EmptyString
          | _ => List.find (λ t, String.prefix t type_str) terminals
          end.

Record Construction : Type := {
  rule_left : string;
  rule_right : list Control;
  command : option Command;
}.

Section commands.

(** [re.compile] of the standard library: it returns a compiled pattern
    or raises [re.error]. *)
Variable re_compile : string → result Pattern.

(** [Command.get_instance]; [None] is Python's implicit [None]. The
    pattern of a Merge is a fixed one; the pattern of a Keep-one is
    compiled from the terminals, after the Merge has been tried. *)
Definition get_instance (type_str : string) (terminals : list string)
    : result (option Command) :=
  match append_regex_pattern type_str with
  | Some (into, what) => Ret (Some (AppendRegexCommand into what))
  | None =>
      match re_compile (String.concat "|" terminals) with
      | Raise e => Raise e
      | Ret one_rule_pattern =>
          match one_rule_pattern type_str with
          | Some stay => Ret (Some (OneCommand stay))
          | None =>
              if decide (type_str = "*") then Ret (Some VerbCommand)
              else Ret None
          end
      end
  end.

(** [Construction.__init__]: the slots are kept as the tags of the
    patterns given, then the command is read; an exception of
    [get_instance] is passed on. *)
Definition __init__ (rule_left : string) (rule_right : list string)
    (command : string) : result Construction :=
  match get_instance command rule_right with
  | Ret c => Ret {| rule_left := rule_left;
                    rule_right := rule_right;
                    command := c |}
  | Raise e => Raise e
  end.

(** *** How a command code is read *)

Lemma prefix_refl s : String.prefix s s = true.
Proof.
  induction s as [|a s IH]; simpl; [done|]. by destruct (ascii_dec a a).
Qed.

Lemma find_first {A} (f : A → bool) (l : list A) x :
  x ∈ l → f x = true → (∀ y, y ∈ l → f y = true → y = x) →
  List.find f l = Some x.
Proof.
  induction l as [|y l IH]; intros Hin Hfx Hall; [by apply elem_of_nil in Hin|].
  simpl. destruct (f y) eqn:Hfy.
  - f_equal. apply Hall; [set_solver|done].
  - apply IH; [|done|intros; apply Hall; set_solver].
    apply elem_of_cons in Hin as [->|Hin]; [congruence|done].
Qed.

Lemma find_none_iff {A} (f : A → bool) (l : list A) :
  List.find f l = None ↔ ∀ y, y ∈ l → f y = false.
Proof.
  induction l as [|y l IH]; simpl.
  - split; [by intros _ y ?%elem_of_nil|done].
  - destruct (f y) eqn:Hfy.
    + split; [done|]. intros Hall. rewrite Hall in Hfy by set_solver. done.
    + rewrite IH. split.
      * intros Hall z [->|Hz]%elem_of_cons; [done|by apply Hall].
      * intros Hall z Hz. apply Hall. set_solver.
Qed.



Lemma split_at_None_app c a b :
  split_at c a = None → split_at c b = None → split_at c (a +:+ b) = None.
Proof.
  induction a as [|x a IH]; simpl; [done|].
  case_decide; [done|].
  destruct (split_at c a) as [[??]|]; [done|].
  intros _ Hb. by rewrite IH.
Qed.

Lemma split_at_app c a b :
  split_at c a = None → split_at c (a +:+ String c b) = Some (a, b).
Proof.
  induction a as [|x a IH]; simpl.
  - by rewrite decide_True.
  - case_decide; [done|].
    destruct (split_at c a) as [[??]|]; [done|]. intros _. by rewrite IH.
Qed.

Lemma split_one sep s : split_at sep s = None → split sep s = [s].
Proof.
  induction s as [|a s IH]; simpl; [done|].
  case_decide; [done|]. destruct (split_at sep s) as [[]|]; [done|].
  intros _. by rewrite IH.
Qed.

Lemma split_field sep s rest :
  split_at sep s = None →
  split sep (s +:+ String sep rest) = s :: split sep rest.
Proof.
  induction s as [|a s IH]; simpl.
  - intros _. by rewrite decide_True.
  - case_decide; [done|]. destruct (split_at sep s) as [[]|]; [done|].
    intros _. by rewrite IH.
Qed.

(** A plain text holds no operator. *)
Lemma plain_no_special c s :
  special c = true → plain s → split_at c s = None.
Proof.
  intros Hc. unfold plain, plain_text.
  induction s as [|a s IH]; simpl; [done|].
  intros [Ha Hs]%andb_true_iff. case_decide as Hac.
  - subst. by rewrite Hc in Ha.
  - by rewrite IH.
Qed.

Lemma plain_no_merge s : plain s → append_regex_pattern s = None.
Proof.
  intros Hs. unfold append_regex_pattern.
  by rewrite (plain_no_special "[" s).
Qed.

(** The alternation of plain texts is split back into them. *)
Lemma split_alternation t terminals :
  Forall plain (t :: terminals) →
  split "|" (String.concat "|" (t :: terminals)) = t :: terminals.
Proof.
  revert t. induction terminals as [|t' terminals IH]; intros t Hall.
  - apply Forall_cons in Hall as [Ht _]. simpl.
    by apply split_one, plain_no_special.
  - apply Forall_cons in Hall as [Ht Hall].
    change (String.concat "|" (t :: t' :: terminals))
      with (t +:+ String "|" (String.concat "|" (t' :: terminals))).
    rewrite split_field by (by apply plain_no_special).
    by rewrite IH.
Qed.

(** A construction that has been built holds the rule as it was given,
    and the command that was read. *)
Lemma init_Ret rule_left rule_right code self :
  __init__ rule_left rule_right code = Ret self →
  ∃ c, get_instance code rule_right = Ret c ∧
       self = {| rule_left := rule_left; rule_right := rule_right;
                 command := c |}.
Proof.
  unfold __init__. destruct (get_instance code rule_right) as [c|e]; [|done].
  intros [= <-]. by exists c.
Qed.

Lemma get_instance_merge into what terminals :
  split_at "[" into = None → split_at "]" what = None →
  get_instance (into +:+ "[" +:+ what +:+ "]") terminals
  = Ret (Some (AppendRegexCommand into what)).
Proof.
  intros Hi Hw. unfold get_instance, append_regex_pattern.
  change (into +:+ "[" +:+ what +:+ "]")
    with (into +:+ String "[" (what +:+ String "]" "")).
  rewrite (split_at_app "[" into (what +:+ "]") Hi).
  by rewrite (split_at_app "]" what "" Hw).
Qed.

(** Read against plain terminals, every code gives a result. *)
Lemma get_instance_plain code terminals :
  plain_alternation re_compile → Forall plain terminals →
  get_instance code terminals
  = match append_regex_pattern code with
    | Some (into, what) => Ret (Some (AppendRegexCommand into what))
    | None =>
        match match terminals with
              | [] => Some EmptyString
              | _ => List.find (λ t, String.prefix t code) terminals
              end with
        | Some stay => Ret (Some (OneCommand stay))
        | None => if decide (code = "*") then Ret (Some VerbCommand)
                  else Ret None
        end
    end.
Proof.
  intros Hre Hplain. unfold get_instance.
  destruct (append_regex_pattern code) as [[into what]|]; [done|].
  destruct (Hre terminals Hplain) as (pattern & -> & Hpattern).
  by rewrite Hpattern.
Qed.


End commands.

Section matching.
Context {U : Type} `{Countable U}.

(** [machine.control] and [Control.is_a] (control module). *)
Variable control : U → Control.
Variable is_a : Control → Control → bool.

(** [possible_pairs.items()]: a Python dict is visited in an order the
    program does not choose. *)
Variable dict_items : gmap U (list Control) → list (U * list Control).
Hypothesis dict_items_perm : ∀ d, dict_items d ≡ₚ map_to_list d.

(** [pair_for_machine] *)
Definition pair_for_machine (rule_right : list Control) (machine : U)
    : list Control :=
  filter (λ c, is_a (control machine) c) rule_right.

Definition possible_pairs (rule_right : list Control) (machines : list U)
    : gmap U (list Control) :=
  assign_all ((λ m, (m, pair_for_machine rule_right m)) <$> machines) ∅.

(** The loop over [possible_pairs.items()]; [None] is [False]. *)
Fixpoint match_items (items : list (U * list Control))
    (pairs : gmap Control U) : result (option (gmap Control U)) :=
  match items with
  | [] => Ret (Some pairs)
  | (m, pp) :: items' =>
      match pp with
      | _ :: _ :: _ => Raise NotImplementedError
      | [] => Ret None
      | [c] =>
          if bool_decide (m ∈ (map_to_list pairs).*2) then Ret None
          else match_items items' (<[c := m]> pairs)
      end
  end.

Definition __match__ (self : Construction) (machines : list U)
    : result (option (gmap Control U)) :=
  if decide (length machines ≠ length (rule_right self)) then Ret None
  else
    match match_items
            (dict_items (possible_pairs (rule_right self) machines)) ∅ with
    | Ret (Some pairs) =>
        if decide (size pairs ≠ length (rule_right self)) then Ret None
        else Ret (Some pairs)
    | r => r
    end.

(** [Command.run] of the three commands, on the store of partitions. *)
Definition run (self : Command) (pairs : gmap Control U) (σ : store U)
    : result (option (list U)) * store U :=
  match self with
  | AppendRegexCommand into what =>
      match pairs !! into with
      | None => (Raise KeyError, σ)
      | Some mi =>
          match pairs !! what with
          | None => (Raise KeyError, σ)
          | Some mw => (Ret (Some [mi]), machine_append mi 1 mw σ)
          end
      end
  | OneCommand stay =>
      (Ret (Some
         (filter (λ a, a.1 = stay) (map_to_list pairs)).*2),
       σ)
  | VerbCommand => (Ret None, σ)
  end.

(** [Construction.do]: an empty dict is as false as [False]. *)
Definition do (self : Construction) (machines : list U) (σ : store U)
    : result (option (list U)) * store U :=
  match __match__ self machines with
  | Raise e => (Raise e, σ)
  | Ret None => (Ret None, σ)
  | Ret (Some pairs) =>
      if decide (pairs = ∅) then (Ret None, σ)
      else match command self with
           | None => (Raise AttributeError, σ)
           | Some cmd => run cmd pairs σ
           end
  end.

(** *** The dict of candidate slots *)

Lemma possible_pairs_lookup rule_right machines m pp :
  possible_pairs rule_right machines !! m = Some pp ↔
  m ∈ machines ∧ pp = pair_for_machine rule_right m.
Proof.
  unfold possible_pairs. split.
  - intros Hl%assign_all_lookup_elem.
    apply list_elem_of_fmap in Hl as (m' & [= -> ->] & Hm'). done.
  - intros [Hm ->].
    destruct (assign_all ((λ m, (m, pair_for_machine rule_right m))
                            <$> machines) ∅ !! m) as [pp|] eqn:E.
    + apply assign_all_lookup_elem, list_elem_of_fmap in E
        as (m' & [= -> ->] & _). done.
    + apply not_elem_of_dom in E. rewrite assign_all_dom in E.
      rewrite <-list_fmap_compose in E. exfalso. apply E.
      apply elem_of_list_to_set, list_elem_of_fmap. by exists m.
Qed.

Lemma possible_pairs_size rule_right machines :
  size (possible_pairs rule_right machines) ≤ length machines.
Proof.
  unfold possible_pairs.
  etrans; [apply assign_all_size_le|]. by rewrite length_fmap.
Qed.

Lemma dict_items_elem rule_right machines m pp :
  (m, pp) ∈ dict_items (possible_pairs rule_right machines) ↔
  m ∈ machines ∧ pp = pair_for_machine rule_right m.
Proof.
  rewrite dict_items_perm, elem_of_map_to_list.
  apply possible_pairs_lookup.
Qed.

Lemma dict_items_NoDup d : NoDup (dict_items d).*1.
Proof. rewrite dict_items_perm. apply NoDup_fst_map_to_list. Qed.

Lemma dict_items_length rule_right machines :
  length (dict_items (possible_pairs rule_right machines))
  ≤ length machines.
Proof.
  rewrite dict_items_perm, length_map_to_list.
  apply possible_pairs_size.
Qed.

(** *** The loop over the candidate slots *)

(** What the loop assigns when every unit has exactly one slot. *)
Definition assignments (items : list (U * list Control))
    : list (Control * U) :=
  (λ x, (default EmptyString (head x.2), x.1)) <$> items.

Lemma elem_of_values (pairs : gmap Control U) m :
  m ∈ (map_to_list pairs).*2 ↔ ∃ c, pairs !! c = Some m.
Proof.
  rewrite list_elem_of_fmap. split.
  - intros ([c m'] & -> & Hc%elem_of_map_to_list). by exists c.
  - intros [c Hc]. exists (c, m). by rewrite elem_of_map_to_list.
Qed.

Lemma match_items_Some items pairs0 pairs :
  match_items items pairs0 = Ret (Some pairs) →
  Forall (λ x, ∃ c, x.2 = [c]) items ∧
  pairs = assign_all (assignments items) pairs0.
Proof.
  revert pairs0. induction items as [|[m pp] items IH]; intros pairs0.
  - intros [= ->]. by split.
  - simpl. destruct pp as [|c [|??]]; [done| |done].
    case_bool_decide; [done|]. intros [Hall ->]%IH.
    split; [|done]. constructor; [by exists c|done].
Qed.

Lemma match_items_singletons items pairs0 :
  Forall (λ x, ∃ c, x.2 = [c]) items →
  NoDup items.*1 →
  (∀ c m, pairs0 !! c = Some m → m ∉ items.*1) →
  match_items items pairs0
  = Ret (Some (assign_all (assignments items) pairs0)).
Proof.
  revert pairs0. induction items as [|[m pp] items IH];
    intros pairs0 Hall Hnd Hval; [done|].
  apply Forall_cons in Hall as [[c Hc] Hall]. simpl in Hc. subst pp.
  apply NoDup_cons in Hnd as [Hm Hnd]. simpl.
  rewrite bool_decide_eq_false_2.
  - apply IH; [done..|]. intros c' m'. rewrite lookup_insert.
    case_decide; [intros [= <-]; done|].
    intros Hc'%Hval. set_solver.
  - rewrite elem_of_values. intros [c' Hc'%Hval]. set_solver.
Qed.

(** The first unit of the visit with two or more slots, when no unit
    before it is without a slot, stops the match with the exception. *)
Lemma match_items_raise items1 m c1 c2 pp items2 pairs0 :
  Forall (λ x, ∃ c, x.2 = [c]) items1 →
  NoDup (items1 ++ (m, c1 :: c2 :: pp) :: items2).*1 →
  (∀ c m0, pairs0 !! c = Some m0 →
           m0 ∉ (items1 ++ (m, c1 :: c2 :: pp) :: items2).*1) →
  match_items (items1 ++ (m, c1 :: c2 :: pp) :: items2) pairs0
  = Raise NotImplementedError.
Proof.
  revert pairs0. induction items1 as [|[m' pp'] items1 IH];
    intros pairs0 Hall Hnd Hval; [done|].
  apply Forall_cons in Hall as [[c Hc] Hall]. simpl in Hc. subst pp'.
  simpl in Hnd. apply NoDup_cons in Hnd as [Hm Hnd]. simpl.
  rewrite bool_decide_eq_false_2.
  - apply IH; [done..|]. intros c' m''. rewrite lookup_insert.
    case_decide; [intros [= <-]; done|].
    intros Hc'%Hval. cbn in Hc'. rewrite not_elem_of_cons in Hc'. tauto.
  - rewrite elem_of_values. intros [c' Hc'%Hval].
    cbn in Hc'. rewrite not_elem_of_cons in Hc'. tauto.
Qed.

(** A slot-to-unit mapping that pairs the units of the sequence with the
    slots of the rule one to one, every unit satisfying its own slot
    and no other. *)
Definition slot_bijection (rule_right : list Control) (machines : list U)
    (pairs : gmap Control U) : Prop :=
  length machines = length rule_right ∧
  (∀ m, m ∈ machines →
     ∃ c, pair_for_machine rule_right m = [c] ∧ pairs !! c = Some m) ∧
  (∀ c, c ∈ rule_right →
     ∃ m, m ∈ machines ∧ pairs !! c = Some m ∧
          pair_for_machine rule_right m = [c]) ∧
  (∀ c, is_Some (pairs !! c) → c ∈ rule_right).

Lemma filter_singleton_once (P : Control → Prop) `{∀ c, Decision (P c)}
    (l l1 l2 : list Control) c :
  filter P l = [c] → l = l1 ++ c :: l2 → (c ∉ l1) ∧ (c ∉ l2).
Proof.
  intros Hf ->. assert (P c) as HP.
  { assert (c ∈ filter P (l1 ++ c :: l2)) as Hc by (rewrite Hf; set_solver).
    by apply list_elem_of_filter in Hc as [? _]. }
  rewrite filter_app, filter_cons_True in Hf by done.
  destruct (filter P l1) as [|x l1'] eqn:E1.
  - simpl in Hf. injection Hf as Hf. split.
    + intros Hin. assert (c ∈ filter P l1) as Hc
        by (by apply list_elem_of_filter). rewrite E1 in Hc. set_solver.
    + intros Hin. assert (c ∈ filter P l2) as Hc
        by (by apply list_elem_of_filter). rewrite Hf in Hc. set_solver.
  - simpl in Hf. injection Hf as _ Hf. by destruct l1'.
Qed.

Lemma NoDup_of_splits (l : list Control) :
  (∀ l1 c l2, l = l1 ++ c :: l2 → c ∉ l2) → NoDup l.
Proof.
  induction l as [|x l IH]; intros Hs; constructor.
  - by apply (Hs [] x l).
  - apply IH. intros l1 c l2 ->. by apply (Hs (x :: l1) c l2).
Qed.

Lemma assignments_elem rule_right machines c m :
  Forall (λ x, ∃ c, x.2 = [c])
    (dict_items (possible_pairs rule_right machines)) →
  (c, m) ∈ assignments (dict_items (possible_pairs rule_right machines))
  ↔ m ∈ machines ∧ pair_for_machine rule_right m = [c].
Proof.
  intros Hall. unfold assignments. rewrite list_elem_of_fmap. split.
  - intros ([m' pp] & [= -> ->] & Hin). simpl.
    rewrite Forall_forall in Hall. destruct (Hall _ Hin) as [c Hc].
    apply dict_items_elem in Hin as [Hm ->]. simpl in Hc.
    by rewrite Hc.
  - intros [Hm Hc]. exists (m, pair_for_machine rule_right m). split.
    + simpl. by rewrite Hc.
    + by apply dict_items_elem.
Qed.

Lemma match_Some_bijection self machines pairs :
  __match__ self machines = Ret (Some pairs) →
  slot_bijection (rule_right self) machines pairs.
Proof.
  unfold __match__. case_decide as Hlen; [done|].
  assert (length machines = length (rule_right self)) as Hlen' by lia.
  destruct (match_items _ ∅) as [[P|]|] eqn:E; try done.
  case_decide as Hsz; [done|]. intros [= ->].
  apply match_items_Some in E as [Hall ->].
  set (items := dict_items (possible_pairs (rule_right self) machines))
    in *.
  assert (NoDup (assignments items).*1) as Hnd.
  { apply assign_all_size_NoDup.
    pose proof (assign_all_size_le (assignments items)) as H1.
    pose proof (dict_items_length (rule_right self) machines) as H2.
    unfold assignments in *. rewrite length_fmap in *.
    fold items in H2. lia. }
  assert (∀ c m, assign_all (assignments items) ∅ !! c = Some m ↔
                 m ∈ machines ∧ pair_for_machine (rule_right self) m = [c])
    as Hlook.
  { intros c m. rewrite assign_all_lookup_NoDup by done.
    by apply assignments_elem. }
  assert (∀ c, c ∈ (assignments items).*1 → c ∈ rule_right self) as Hsub.
  { intros c ([c' m] & -> & Hin)%list_elem_of_fmap. simpl.
    apply assignments_elem in Hin as [_ Hc]; [|done].
    assert (c' ∈ pair_for_machine (rule_right self) m) as Hc'
      by (rewrite Hc; set_solver).
    by apply list_elem_of_filter in Hc' as [_ ?]. }
  split_and!; [done|..].
  - intros m Hm.
    assert ((m, pair_for_machine (rule_right self) m) ∈ items) as Hin
      by (by apply dict_items_elem).
    rewrite Forall_forall in Hall. destruct (Hall _ Hin) as [c Hc].
    exists c. split; [done|]. by apply Hlook.
  - intros c Hc.
    assert ((assignments items).*1 ≡ₚ rule_right self) as Hperm.
    { apply submseteq_length_Permutation.
      - by apply NoDup_submseteq.
      - pose proof (assign_all_size_le (assignments items)).
        rewrite length_fmap. lia. }
    rewrite <-Hperm in Hc.
    apply list_elem_of_fmap in Hc as ([c' m] & -> & Hin). simpl.
    apply assignments_elem in Hin as [Hm Hc']; [|done].
    exists m. split_and!; [done| |done]. by apply Hlook.
  - intros c [m Hm]. apply Hsub.
    apply assign_all_lookup_elem in Hm.
    apply list_elem_of_fmap. by exists (c, m).
Qed.

Lemma bijection_match_Some self machines pairs :
  slot_bijection (rule_right self) machines pairs →
  __match__ self machines = Ret (Some pairs).
Proof.
  intros (Hlen & Hm & Hc & Hdom). unfold __match__.
  rewrite decide_False by lia.
  set (items := dict_items (possible_pairs (rule_right self) machines)).
  assert (Forall (λ x, ∃ c, x.2 = [c]) items) as Hall.
  { apply Forall_forall. intros [m pp] [Hin ->]%dict_items_elem.
    destruct (Hm m Hin) as (c & Hc' & _). by exists c. }
  rewrite match_items_singletons;
    [|done|apply dict_items_NoDup|by intros ??; rewrite lookup_empty].
  assert (NoDup (assignments items).*1) as Hnd.
  { unfold assignments. rewrite <-list_fmap_compose.
    apply NoDup_fmap_2_strong;
      [|eapply NoDup_fmap_1, (dict_items_NoDup _)].
    intros [m1 pp1] [m2 pp2] [H1 ->]%dict_items_elem
      [H2 ->]%dict_items_elem. simpl.
    destruct (Hm m1 H1) as (c1 & -> & Hp1).
    destruct (Hm m2 H2) as (c2 & -> & Hp2). simpl. intros ->.
    rewrite Hp1 in Hp2. by injection Hp2 as ->. }
  assert (assign_all (assignments items) ∅ = pairs) as Heq.
  { apply map_eq. intros c. apply option_eq. intros m.
    rewrite assign_all_lookup_NoDup by done.
    unfold items. rewrite assignments_elem by done. split.
    - intros [Hin Hpp]. destruct (Hm m Hin) as (c' & Hc' & Hl).
      rewrite Hpp in Hc'. by injection Hc' as ->.
    - intros Hl. destruct (Hc c) as (m' & Hin & Hl' & Hpp).
      { apply Hdom. by exists m. }
      rewrite Hl in Hl'. by injection Hl' as <-. }
  rewrite decide_False; [by rewrite Heq|]. intros Hne. apply Hne. clear Hne.
  assert (NoDup (rule_right self)) as Hndr.
  { apply NoDup_of_splits. intros l1 c l2 Hsplit.
    destruct (Hc c) as (m & _ & _ & Hpp).
    { rewrite Hsplit. set_solver. }
    by eapply (filter_singleton_once _ _ l1 l2 c Hpp). }
  assert (rule_right self ⊆+ (assignments items).*1) as Hsub.
  { apply NoDup_submseteq; [done|]. intros c Hin.
    destruct (Hc c Hin) as (m & Hmin & _ & Hpp).
    apply list_elem_of_fmap. exists (c, m). split; [done|].
    by apply assignments_elem. }
  apply submseteq_length in Hsub.
  pose proof (dict_items_length (rule_right self) machines) as Hle.
  fold items in Hle. apply assign_all_size_NoDup in Hnd.
  unfold assignments in *. rewrite !length_fmap in *. lia.
Qed.


Lemma match_items_no_raise items pairs0 e :
  Forall (λ x, length x.2 ≤ 1) items →
  match_items items pairs0 ≠ Raise e.
Proof.
  revert pairs0. induction items as [|[m pp] items IH]; intros pairs0 Hall;
    [done|].
  apply Forall_cons in Hall as [Hpp Hall]. simpl in *.
  destruct pp as [|c [|??]]; [done| |simpl in Hpp; lia].
  case_bool_decide; [done|]. by apply IH.
Qed.

Lemma match_items_raise_any items pairs0 :
  Forall (λ x, x.2 ≠ []) items →
  Exists (λ x, 2 ≤ length x.2) items →
  NoDup items.*1 →
  (∀ c m, pairs0 !! c = Some m → m ∉ items.*1) →
  match_items items pairs0 = Raise NotImplementedError.
Proof.
  revert pairs0. induction items as [|[m pp] items IH];
    intros pairs0 Hall Hex Hnd Hval; [by apply Exists_nil in Hex|].
  apply Forall_cons in Hall as [Hpp Hall]. simpl in Hpp.
  apply NoDup_cons in Hnd as [Hm Hnd].
  destruct pp as [|c [|??]]; [done| |done].
  apply Exists_cons in Hex as [Hex|Hex]; [simpl in Hex; lia|].
  simpl. rewrite bool_decide_eq_false_2.
  - apply IH; [done..|]. intros c' m'. rewrite lookup_insert.
    case_decide; [intros [= <-]; done|].
    intros Hc'%Hval. set_solver.
  - rewrite elem_of_values. intros [c' Hc'%Hval]. set_solver.
Qed.

(** The outcome of [do] follows the outcome of the match: without a
    mapping the command is not consulted and the store is left as it
    was. *)
Lemma do_without_mapping self machines σ :
  (∀ pairs, __match__ self machines ≠ Ret (Some pairs)) →
  do self machines σ
  = (match __match__ self machines with
     | Raise e => Raise e
     | Ret _ => Ret None
     end, σ).
Proof.
  intros Hno. unfold do.
  destruct (__match__ self machines) as [[pairs|]|e]; try done.
  by destruct (Hno pairs).
Qed.


Lemma match_items_raise_inv items pairs0 e :
  match_items items pairs0 = Raise e → e = NotImplementedError.
Proof.
  revert pairs0. induction items as [|[m pp] items IH]; intros pairs0;
    [done|]. simpl.
  destruct pp as [|c [|??]]; [done| |congruence].
  case_bool_decide; [done|]. apply IH.
Qed.

Lemma match_raise_inv self machines e :
  __match__ self machines = Raise e → e = NotImplementedError.
Proof.
  unfold __match__. case_decide; [done|].
  destruct (match_items _ ∅) as [[pairs|]|e'] eqn:E; [|done|].
  - by case_decide.
  - intros [= <-]. by eapply match_items_raise_inv.
Qed.

(** The Keep-one command returns the unit of its slot, and nothing when
    the slot is not in the mapping. *)
Lemma one_command_run stay (pairs : gmap Control U) σ :
  run (OneCommand stay) pairs σ
  = (Ret (Some match pairs !! stay with
               | Some m => [m]
               | None => []
               end), σ).
Proof.
  unfold run. do 3 f_equal.
  assert (∀ k v, (k, v) ∈ filter (λ a : Control * U, a.1 = stay)
                           (map_to_list pairs)
                 ↔ k = stay ∧ pairs !! stay = Some v) as Helem.
  { intros k v. rewrite list_elem_of_filter, elem_of_map_to_list. simpl.
    split; [by intros [-> ?]|by intros [-> ?]]. }
  assert (NoDup (filter (λ a : Control * U, a.1 = stay) (map_to_list pairs)))
    as Hnd by apply NoDup_filter, NoDup_map_to_list.
  destruct (pairs !! stay) as [m|] eqn:E.
  - assert (filter (λ a : Control * U, a.1 = stay) (map_to_list pairs)
            ≡ₚ [(stay, m)]) as Hp.
    { apply NoDup_Permutation; [done|apply NoDup_singleton|].
      intros [k v]. rewrite Helem, list_elem_of_singleton.
      split; [by intros [-> [= ->]]|by intros [= -> ->]]. }
    apply Permutation_singleton_r in Hp. by rewrite Hp.
  - destruct (filter _ _) as [|[k v] l] eqn:El; [done|].
    assert ((k, v) ∈ (k, v) :: l) as Hin by set_solver.
    by apply Helem in Hin as [_ ?].
Qed.

(** *** The properties of the matching *)

(** C3 (amended): a unit that satisfies more than one slot is not met
    when the construction is built: building looks at no unit and does not
    compare the slot patterns, and a rule whose slot patterns are plain
    texts is always built, whether they overlap or not. The unit is
    rejected while matching: whenever the construction has been built,
    for a candidate sequence of the rule's arity in which every unit
    satisfies some slot and one of them more than one, [__match__] raises
    [NotImplementedError], in every visiting order, and [do] passes the
    exception on with the store untouched. *)
Theorem multi_slot_raises_at_match re_compile rule_left rule_right command
    machines σ :
  (plain_alternation re_compile → Forall plain rule_right →
   ∃ self, __init__ re_compile rule_left rule_right command = Ret self) ∧
  (∀ self,
     __init__ re_compile rule_left rule_right command = Ret self →
     self.(constructions.rule_right) = rule_right ∧
     (length machines = length rule_right →
      (∀ m, m ∈ machines → pair_for_machine rule_right m ≠ []) →
      (∃ m, m ∈ machines ∧ 2 ≤ length (pair_for_machine rule_right m)) →
      __match__ self machines = Raise NotImplementedError ∧
      do self machines σ = (Raise NotImplementedError, σ))).
Proof.
  split.
  - intros Hre Hplain. unfold __init__.
    rewrite get_instance_plain by done.
    destruct (append_regex_pattern command) as [[into what]|]; [by eexists|].
    destruct (match rule_right with
              | [] => Some EmptyString
              | _ => List.find (λ t, String.prefix t command) rule_right
              end); [by eexists|].
    case_decide; by eexists.
  - intros self (c & _ & ->)%init_Ret. split; [done|].
    simpl. intros Hlen Hall (m & Hm & Hm2).
    assert (__match__ {| rule_left := rule_left; rule_right := rule_right;
                         constructions.command := c |} machines
            = Raise NotImplementedError) as Hr.
    { unfold __match__. simpl. rewrite decide_False by lia.
      rewrite match_items_raise_any; [done| | |apply dict_items_NoDup|].
      - apply Forall_forall. intros [m' pp] [Hin ->]%dict_items_elem.
        by apply Hall.
      - apply Exists_exists. exists (m, pair_for_machine rule_right m).
        split; [|done]. by apply dict_items_elem.
      - intros ??. by rewrite lookup_empty. }
    split; [done|]. unfold do. by rewrite Hr.
Qed.

(** C5 (amended): [__match__] returns a slot-to-unit mapping exactly when
    the mapping pairs the units of the sequence with the slots of the rule
    one to one, every unit satisfying exactly one slot. A sequence whose
    length is not the rule's arity is a non-match ([False]); so is, when no
    unit satisfies more than one slot, a sequence with a unit that
    satisfies no slot or with two units that satisfy the same slot.
    Whenever there is no such mapping, [do] does not run the command: it
    returns [None] or passes on the [NotImplementedError] raised for a unit
    with several slots, and the store is untouched. *)
Theorem match_iff_slot_bijection self machines σ :
  (∀ pairs, __match__ self machines = Ret (Some pairs) ↔
            slot_bijection self.(rule_right) machines pairs) ∧
  (length machines ≠ length self.(rule_right) ∨
   ((∀ m, m ∈ machines →
          length (pair_for_machine self.(rule_right) m) ≤ 1) ∧
    ((∃ m, m ∈ machines ∧ pair_for_machine self.(rule_right) m = []) ∨
     (∃ m1 m2 c, m1 ≠ m2 ∧ m1 ∈ machines ∧ m2 ∈ machines ∧
                 c ∈ pair_for_machine self.(rule_right) m1 ∧
                 c ∈ pair_for_machine self.(rule_right) m2))) →
   __match__ self machines = Ret None ∧
   do self machines σ = (Ret None, σ)) ∧
  ((∀ pairs, ¬ slot_bijection self.(rule_right) machines pairs) →
   ∃ r, do self machines σ = (r, σ) ∧
        (r = Ret None ∨ r = Raise NotImplementedError)).
Proof.
  assert (∀ pairs, __match__ self machines = Ret (Some pairs) ↔
            slot_bijection self.(rule_right) machines pairs) as Hiff.
  { intros pairs. split;
      [apply match_Some_bijection|apply bijection_match_Some]. }
  split_and!; [done| |].
  - intros Hcase.
    assert (__match__ self machines = Ret None) as Hr.
    { destruct (__match__ self machines) as [[pairs|]|e] eqn:E; [|done|].
      - exfalso. apply match_Some_bijection in E as (Hlen & Hm & _).
        destruct Hcase as [?|[_ [(m & Hin & Hnil)|Hcomp]]]; [done| |].
        + destruct (Hm m Hin) as (c & Hc & _). congruence.
        + destruct Hcomp as (m1 & m2 & c & Hne & H1 & H2 & Hc1 & Hc2).
          destruct (Hm m1 H1) as (c1 & Hp1 & Hl1).
          destruct (Hm m2 H2) as (c2 & Hp2 & Hl2).
          rewrite Hp1 in Hc1. rewrite Hp2 in Hc2.
          apply list_elem_of_singleton in Hc1 as ->.
          apply list_elem_of_singleton in Hc2 as ->. congruence.
      - exfalso. destruct Hcase as [Hlen|[Hone _]].
        + unfold __match__ in E. by rewrite decide_True in E.
        + unfold __match__ in E. case_decide; [done|].
          destruct (match_items _ ∅) as [[pairs|]|e'] eqn:E'; [|done|].
          * by case_decide.
          * eapply match_items_no_raise; [|done].
            apply Forall_forall. intros [m pp] [Hin ->]%dict_items_elem.
            by apply Hone. }
    split; [done|]. unfold do. by rewrite Hr.
  - intros Hno. rewrite do_without_mapping.
    + eexists. split; [done|].
      destruct (__match__ self machines) as [?|e] eqn:E; [by left|].
      right. f_equal. by eapply match_raise_inv.
    + intros pairs Hp%Hiff. by eapply Hno.
Qed.

(** C8: for a construction built with a command code [INTO[WHAT]] whose two
    labels are slots of the rule, and a sequence that matches with the
    mapping [pairs]: [do] runs the Merge command, which appends the unit
    matched by [WHAT] at the end of partition 1 of the unit matched by
    [INTO], leaves every other unit as it was, and returns the one-element
    sequence holding the [INTO] unit. *)
Theorem merge_command_appends re_compile rule_left rule_right into what self
    machines pairs σ :
  split_at "[" into = None → split_at "]" what = None →
  __init__ re_compile rule_left rule_right (into +:+ "[" +:+ what +:+ "]")
  = Ret self →
  into ∈ rule_right → what ∈ rule_right →
  __match__ self machines = Ret (Some pairs) →
  ∃ mi mw,
    mi ∈ machines ∧ mw ∈ machines ∧
    pairs !! into = Some mi ∧ pairs !! what = Some mw ∧
    pair_for_machine rule_right mi = [into] ∧
    pair_for_machine rule_right mw = [what] ∧
    do self machines σ = (Ret (Some [mi]), machine_append mi 1 mw σ) ∧
    machine_append mi 1 mw σ mi !! 1
    = Some (default [] (σ mi !! 1) ++ [mw]) ∧
    (∀ u, u ≠ mi → machine_append mi 1 mw σ u = σ u).
Proof.
  intros Hi Hw (c & Hcmd & ->)%init_Ret Hinto Hwhat Hmatch.
  rewrite get_instance_merge in Hcmd by done. injection Hcmd as <-.
  pose proof (match_Some_bijection _ _ _ Hmatch) as (_ & _ & Hc & _).
  simpl in Hc.
  destruct (Hc into Hinto) as (mi & Hmi & Hli & Hpi).
  destruct (Hc what Hwhat) as (mw & Hmw & Hlw & Hpw).
  exists mi, mw. split_and!; try done.
  - unfold do. rewrite Hmatch. simpl.
    rewrite decide_False by (intros ->; by rewrite lookup_empty in Hli).
    by rewrite Hli, Hlw.
  - unfold machine_append. rewrite fn_lookup_insert.
    apply append_part_lookup.
  - intros u Hu. unfold machine_append. by rewrite fn_lookup_insert_ne.
Qed.


(** *** More on the commands and on the match *)

Lemma match_no_raise self machines e :
  (∀ m, m ∈ machines →
        length (pair_for_machine (rule_right self) m) ≤ 1) →
  __match__ self machines ≠ Raise e.
Proof.
  intros Hone E. unfold __match__ in E. case_decide; [done|].
  destruct (match_items _ ∅) as [[pairs|]|e'] eqn:E'; [|done|].
  - by case_decide.
  - eapply match_items_no_raise; [|done].
    apply Forall_forall. intros [m pp] [Hin ->]%dict_items_elem.
    by apply Hone.
Qed.

(** A mapping returned by the match is never empty unless the rule is. *)
Lemma match_Some_size self machines pairs :
  __match__ self machines = Ret (Some pairs) →
  size pairs = length (rule_right self).
Proof.
  unfold __match__. case_decide; [done|].
  destruct (match_items _ ∅) as [[P|]|]; [|done..].
  case_decide as Hsz; [done|]. intros [= <-].
  destruct (decide (size P = length (rule_right self))); [done|].
  by destruct Hsz.
Qed.

(** X2: a Keep-one construction. When the slots of the rule are plain
    texts, the command code is one of them, and no other slot of the rule
    is a prefix of it, the construction is built with the Keep-one of that
    slot, and [do] on a matching sequence returns exactly the unit of that
    slot and leaves every unit as it was. *)
Theorem keep_one_returns_slot_unit re_compile rule_left rule_right stay
    machines pairs σ :
  plain_alternation re_compile → Forall plain rule_right →
  stay ∈ rule_right →
  (∀ t, t ∈ rule_right → String.prefix t stay = true → t = stay) →
  ∃ self,
    __init__ re_compile rule_left rule_right stay = Ret self ∧
    command self = Some (OneCommand stay) ∧
    (__match__ self machines = Ret (Some pairs) →
     ∃ m,
       m ∈ machines ∧ pairs !! stay = Some m ∧
       pair_for_machine rule_right m = [stay] ∧
       do self machines σ = (Ret (Some [m]), σ)).
Proof.
  intros Hre Hplain Hin Hfirst.
  assert (get_instance re_compile stay rule_right
          = Ret (Some (OneCommand stay))) as Hcmd.
  { rewrite get_instance_plain by done.
    rewrite plain_no_merge
      by (by eapply (proj1 (Forall_forall _ _) Hplain)).
    destruct rule_right as [|t0 ts] eqn:Er; [by apply elem_of_nil in Hin|].
    by rewrite (find_first _ _ stay); [|done|apply prefix_refl|]. }
  unfold __init__. rewrite Hcmd. eexists. split_and!; [done..|].
  intros Hmatch.
  pose proof (match_Some_bijection _ _ _ Hmatch) as (_ & _ & Hc & _).
  simpl in Hc. destruct (Hc stay Hin) as (m & Hm & Hl & Hp).
  exists m. split_and!; [done..|].
  unfold do. rewrite Hmatch. cbn [command].
  rewrite decide_False by (intros ->; by rewrite lookup_empty in Hl).
  by rewrite one_command_run, Hl.
Qed.

(** X3: what [do] does to the units. A call that returns no result, or
    raises, has changed nothing: also a Merge whose labels are no slots of
    the rule raises before it changes a unit. A call that returns a
    result has changed nothing either, unless the command is a Merge: then
    the result is the unit of the first label alone, and the only change
    is the unit of the second label put on partition 1 of that unit. *)
Theorem do_store_effect self machines σ :
  match (do self machines σ).1 with
  | Ret (Some result) =>
      (do self machines σ).2 = σ ∨
      ∃ into what pairs mi mw,
        command self = Some (AppendRegexCommand into what) ∧
        __match__ self machines = Ret (Some pairs) ∧
        pairs !! into = Some mi ∧ pairs !! what = Some mw ∧
        result = [mi] ∧
        (do self machines σ).2 = machine_append mi 1 mw σ
  | _ => (do self machines σ).2 = σ
  end.
Proof.
  clear dict_items_perm. unfold do.
  destruct (__match__ self machines) as [[pairs|]|e] eqn:Hm; [|done..].
  case_decide; [done|].
  destruct (command self) as [[into what|stay|]|] eqn:E; simpl; [|by left|done..].
  destruct (pairs !! into) as [mi|] eqn:Hi; [|done].
  destruct (pairs !! what) as [mw|] eqn:Hw; [|done].
  simpl. right. by exists into, what, pairs, mi, mw.
Qed.

(** X4: a command code that is not recognised. A rule with slots, all
    of them plain texts, and a code that is no Merge, that no slot starts
    and that is not the code of the frame dispatch, is built all the
    same, without a command. And whatever the patterns of its slots are,
    on a construction with slots and without a command [do] raises
    [AttributeError] for every sequence that matches the rule, with the
    store untouched. *)
Theorem unknown_code_fails_on_match re_compile rule_left rule_right code :
  (plain_alternation re_compile → Forall plain rule_right →
   rule_right ≠ [] →
   append_regex_pattern code = None → code ≠ "*" →
   (∀ t, t ∈ rule_right → String.prefix t code = false) →
   ∃ self,
     __init__ re_compile rule_left rule_right code = Ret self ∧
     constructions.rule_right self = rule_right ∧ command self = None) ∧
  (∀ self machines pairs σ,
     command self = None → constructions.rule_right self ≠ [] →
     __match__ self machines = Ret (Some pairs) →
     do self machines σ = (Raise AttributeError, σ)).
Proof.
  split.
  - intros Hre Hplain Hne Ha Hstar Hnone.
    eexists. unfold __init__. rewrite get_instance_plain by done. rewrite Ha.
    destruct rule_right as [|t0 ts] eqn:Er; [done|].
    rewrite (proj2 (find_none_iff _ _) Hnone).
    by rewrite decide_False.
  - intros self machines pairs σ Hcmd Hne Hmatch.
    unfold do. rewrite Hmatch, Hcmd.
    rewrite decide_False; [done|]. intros ->.
    apply match_Some_size in Hmatch.
    rewrite map_size_empty in Hmatch.
    by destruct (constructions.rule_right self).
Qed.

(** X5: the command of a rule without slots is never run: the empty
    mapping of the empty sequence counts as no match, and every other
    sequence has the wrong length. *)
Theorem empty_rule_never_runs self machines σ :
  rule_right self = [] →
  do self machines σ = (Ret None, σ).
Proof.
  intros Hrr. unfold do.
  destruct (__match__ self machines) as [[pairs|]|e] eqn:E; [|done|].
  - apply match_Some_size in E. rewrite Hrr in E. simpl in E.
    apply map_size_empty_iff in E as ->. by rewrite decide_True.
  - exfalso. eapply match_no_raise; [|done].
    intros m _. rewrite Hrr. simpl. lia.
Qed.

Lemma match_Some_NoDup self machines pairs :
  __match__ self machines = Ret (Some pairs) → NoDup machines.
Proof.
  intros Hmatch. pose proof (match_Some_size _ _ _ Hmatch) as Hsize.
  unfold __match__ in Hmatch. case_decide as Hlen; [done|].
  destruct (match_items _ ∅) as [[P|]|] eqn:E; [|done..].
  case_decide; [done|]. injection Hmatch as ->.
  apply match_items_Some in E as [_ ->].
  pose proof (assign_all_size_le
                (assignments
                   (dict_items (possible_pairs (rule_right self) machines))))
    as H1.
  unfold assignments in H1. rewrite length_fmap in H1.
  assert (length (dict_items (possible_pairs (rule_right self) machines))
          = size (possible_pairs (rule_right self) machines)) as Hitems
    by (rewrite dict_items_perm; apply length_map_to_list).
  pose proof (possible_pairs_size (rule_right self) machines) as H2.
  assert (size (possible_pairs (rule_right self) machines)
          = length ((λ m, (m, pair_for_machine (rule_right self) m))
                      <$> machines)) as Hpp
    by (rewrite length_fmap; unfold assignments in *; lia).
  apply assign_all_size_NoDup in Hpp.
  by rewrite <-list_fmap_compose, list_fmap_id in Hpp.
Qed.

(** X6: what a mapping returned by the match tells: no unit occurs twice in
    the sequence, no pattern occurs twice in the rule, the mapping is
    defined exactly on the slots of the rule, and its values are exactly
    the units of the sequence. A rule with a repeated pattern, and a
    sequence with a repeated unit, therefore never match. *)
Theorem match_Some_no_repetition self machines pairs :
  __match__ self machines = Ret (Some pairs) →
  NoDup machines ∧ NoDup (rule_right self) ∧
  size pairs = length machines ∧
  (∀ c, is_Some (pairs !! c) ↔ c ∈ rule_right self) ∧
  (∀ m, (∃ c, pairs !! c = Some m) ↔ m ∈ machines).
Proof.
  intros Hmatch.
  pose proof (match_Some_size _ _ _ Hmatch) as Hsize.
  pose proof (match_Some_NoDup _ _ _ Hmatch) as Hnd.
  pose proof (match_Some_bijection _ _ _ Hmatch) as (Hlen & Hm & Hc & Hdom).
  split_and!; [done| |lia|..].
  - apply NoDup_of_splits. intros l1 c l2 Hsplit.
    destruct (Hc c) as (m & _ & _ & Hpp).
    { rewrite Hsplit. set_solver. }
    by eapply (filter_singleton_once _ _ l1 l2 c Hpp).
  - intros c. split; [apply Hdom|]. intros Hin.
    destruct (Hc c Hin) as (m & _ & Hl & _). eauto.
  - intros m. split.
    + intros [c Hl]. destruct (Hc c) as (m' & Hin & Hl' & _).
      { apply Hdom. eauto. }
      rewrite Hl in Hl'. by injection Hl' as ->.
    + intros Hin. destruct (Hm m Hin) as (c & _ & Hl). eauto.
Qed.
End matching.

(** *** The rules of the specification's examples

    The slot patterns of the examples are plain texts. For them the
    library is stood for by [plain_re], which compiles an alternation of
    plain texts to the pattern matching the first of them that starts the
    subject. On a pattern with an operator it gives up with [re.error],
    which Python does for some of these patterns only: [plain_re] is used
    on plain texts alone, and no property is stated of it elsewhere. *)

Definition plain_re (pattern : string) : result Pattern :=
  let alternatives := split "|" pattern in
  if forallb plain_text alternatives
  then Ret (λ type_str,
              List.find (λ t, String.prefix t type_str) alternatives)
  else Raise ReError.

Lemma plain_re_alternation : plain_alternation plain_re.
Proof.
  intros terminals Hplain. unfold plain_re.
  destruct terminals as [|t terminals].
  - eexists. split; [done|]. by intros [|a s].
  - rewrite split_alternation by done.
    rewrite (proj2 (forallb_forall _ _)).
    + by eexists.
    + intros t' Ht'%list_elem_of_In.
      by apply (proj1 (Forall_forall _ _) Hplain).
Qed.


(** Units are numbered; a unit satisfies the pattern that is its own
    tag. *)

Definition tag_is_a (tag c : Control) : bool := String.eqb tag c.

(** 1 the, 5 a: DET; 2 big: ADJ; 6 cat as subject: SUBJ; 7 fish as
    object: OBJ; every other unit (3 dog, 4 cat): NOUN. *)
Definition tag_of (u : nat) : Control :=
  match u with
  | 1 | 5 => "DET"
  | 2 => "ADJ"
  | 6 => "SUBJ"
  | 7 => "OBJ"
  | _ => "NOUN"
  end.

(** Every unit starts with two empty partitions. *)
Definition fresh_store : store nat := λ _, [[]; []].

(** The rule of example 1: NP, DET ADJ NOUN, NOUN[DET]. *)
Definition np_rule : Construction :=
  {| rule_left := "NP";
     rule_right := ["DET"; "ADJ"; "NOUN"];
     command := Some (AppendRegexCommand "NOUN" "DET") |}.

(** A compound rule with two NOUN slots after a DET slot. *)
Definition compound_rule : Construction :=
  {| rule_left := "NP";
     rule_right := ["DET"; "NOUN"; "NOUN"];
     command := Some (OneCommand "NOUN") |}.

Example np_rule_built :
  __init__ plain_re "NP" ["DET"; "ADJ"; "NOUN"] "NOUN[DET]" = Ret np_rule.
Proof. reflexivity. Qed.

Example np_rule_match :
  __match__ tag_of tag_is_a map_to_list np_rule [1; 2; 3]
  = Ret (Some {[ "DET" := 1; "ADJ" := 2; "NOUN" := 3 ]}).
Proof. vm_compute. reflexivity. Qed.

(** Example 2 of the specification: S, SUBJ OBJ, SUBJ keeps the subject
    (unit 6 cat, with unit 7 fish as object). *)
Definition s_rule : Construction :=
  {| rule_left := "S";
     rule_right := ["SUBJ"; "OBJ"];
     command := Some (OneCommand "SUBJ") |}.

Example s_rule_keeps_subject :
  __init__ plain_re "S" ["SUBJ"; "OBJ"] "SUBJ" = Ret s_rule ∧
  do tag_of tag_is_a map_to_list s_rule [6; 7] fresh_store
  = (Ret (Some [6]), fresh_store).
Proof. split; [reflexivity|]. vm_compute. reflexivity. Qed.

Example np_rule_short :
  __match__ tag_of tag_is_a map_to_list np_rule [1; 3] = Ret None.
Proof. vm_compute. reflexivity. Qed.

(** The compound rule is built although every NOUN unit satisfies two of
    its slots; the sequence a, the, dog, in which the two determiners want
    the same slot, is then not answered by [False]: the dog unit satisfies
    both NOUN slots and the match raises. *)
Lemma competing_units_raise :
  pair_for_machine tag_of tag_is_a (rule_right compound_rule) 5 = ["DET"] ∧
  pair_for_machine tag_of tag_is_a (rule_right compound_rule) 1 = ["DET"] ∧
  length [5; 1; 3] = length (rule_right compound_rule) ∧
  __match__ tag_of tag_is_a map_to_list compound_rule [5; 1; 3]
  = Raise NotImplementedError.
Proof. vm_compute. by split_and!. Qed.

(** Building the compound rule succeeds, and the unit that satisfies two
    slots is met only by [__match__]. *)
Lemma overlapping_rule_is_built :
  __init__ plain_re "NP" ["DET"; "NOUN"; "NOUN"] "NOUN" = Ret compound_rule ∧
  pair_for_machine tag_of tag_is_a (rule_right compound_rule) 3
  = ["NOUN"; "NOUN"] ∧
  __match__ tag_of tag_is_a map_to_list compound_rule [1; 3; 4]
  = Raise NotImplementedError.
Proof. vm_compute. by split_and!. Qed.

Lemma multi_slot_raises_at_match_witness :
  (∃ self, __init__ plain_re "NP" ["DET"; "NOUN"; "NOUN"] "NOUN" = Ret self) ∧
  __match__ tag_of tag_is_a map_to_list compound_rule [1; 3; 4]
  = Raise NotImplementedError ∧
  do tag_of tag_is_a map_to_list compound_rule [1; 3; 4] fresh_store
  = (Raise NotImplementedError, fresh_store).
Proof.
  destruct (multi_slot_raises_at_match tag_of tag_is_a map_to_list
              (λ d, Permutation_refl _) plain_re "NP" ["DET"; "NOUN"; "NOUN"] "NOUN"
              [1; 3; 4] fresh_store) as [Hbuilt Hraise].
  split.
  - apply Hbuilt; [apply plain_re_alternation|by repeat constructor].
  - destruct (Hraise compound_rule eq_refl) as [_ Hr]. apply Hr.
    + reflexivity.
    + intros m Hm.
      repeat (apply elem_of_cons in Hm as [->|Hm]); [done..|].
      by apply elem_of_nil in Hm.
    + exists 3. split; [|vm_compute; lia].
      apply list_elem_of_further, list_elem_of_here.
Defined.

Lemma match_iff_slot_bijection_witness :
  slot_bijection tag_of tag_is_a (rule_right np_rule) [1; 2; 3]
    {[ "DET" := 1; "ADJ" := 2; "NOUN" := 3 ]} ∧
  __match__ tag_of tag_is_a map_to_list np_rule [1; 3] = Ret None ∧
  do tag_of tag_is_a map_to_list np_rule [1; 3] fresh_store
  = (Ret None, fresh_store).
Proof.
  split.
  - apply (match_iff_slot_bijection tag_of tag_is_a map_to_list
             (λ d, Permutation_refl _) np_rule [1; 2; 3] fresh_store).
    vm_compute. reflexivity.
  - destruct (match_iff_slot_bijection tag_of tag_is_a map_to_list
                (λ d, Permutation_refl _) np_rule [1; 3] fresh_store)
      as (_ & Hnon & _).
    apply Hnon. left. simpl. lia.
Defined.

(** Example 1 of the specification: the, big, dog match the NP rule; the
    is spliced into partition 1 of dog, and dog alone is returned. *)
Lemma merge_command_appends_witness :
  do tag_of tag_is_a map_to_list np_rule [1; 2; 3] fresh_store
  = (Ret (Some [3]), machine_append 3 1 1 fresh_store) ∧
  machine_append 3 1 1 fresh_store 3 !! 1 = Some [1].
Proof.
  destruct (merge_command_appends tag_of tag_is_a map_to_list
              (λ d, Permutation_refl _) plain_re "NP" ["DET"; "ADJ"; "NOUN"]
              "NOUN" "DET" np_rule [1; 2; 3]
              {[ "DET" := 1; "ADJ" := 2; "NOUN" := 3 ]} fresh_store)
    as (mi & mw & _ & _ & Hi & Hw & _ & _ & Hdo & Hpart & _).
  - reflexivity.
  - reflexivity.
  - reflexivity.
  - apply list_elem_of_further, list_elem_of_further, list_elem_of_here.
  - apply list_elem_of_here.
  - vm_compute. reflexivity.
  - vm_compute in Hi. vm_compute in Hw.
    injection Hi as <-. injection Hw as <-. by split.
Defined.

(** *** The order of the visit *)

(** X7: the order in which the dict of candidate slots is visited decides
    nothing but the choice between [False] and the exception: whether a
    mapping is returned, and which, is the same in every order; and when
    no unit satisfies more than one slot the whole result is the same. *)
Theorem match_order_independent {U : Type} `{Countable U}
    (control : U → Control) (is_a : Control → Control → bool)
    (items1 items2 : gmap U (list Control) → list (U * list Control))
    (self : Construction) (machines : list U) :
  (∀ d, items1 d ≡ₚ map_to_list d) →
  (∀ d, items2 d ≡ₚ map_to_list d) →
  (∀ pairs,
     __match__ control is_a items1 self machines = Ret (Some pairs) ↔
     __match__ control is_a items2 self machines = Ret (Some pairs)) ∧
  ((∀ m, m ∈ machines →
         length (pair_for_machine control is_a (rule_right self) m) ≤ 1) →
   __match__ control is_a items1 self machines
   = __match__ control is_a items2 self machines).
Proof.
  intros Hp1 Hp2.
  assert (∀ pairs,
     __match__ control is_a items1 self machines = Ret (Some pairs) ↔
     __match__ control is_a items2 self machines = Ret (Some pairs)) as Hiff.
  { intros pairs. split; intros Hm.
    - apply (bijection_match_Some _ _ _ Hp2).
      by apply (match_Some_bijection _ _ _ Hp1).
    - apply (bijection_match_Some _ _ _ Hp1).
      by apply (match_Some_bijection _ _ _ Hp2). }
  split; [done|]. intros Hone.
  assert (∀ e, __match__ control is_a items1 self machines ≠ Raise e)
    as Hr1 by (intros e; by apply match_no_raise).
  assert (∀ e, __match__ control is_a items2 self machines ≠ Raise e)
    as Hr2 by (intros e; by apply match_no_raise).
  destruct (__match__ control is_a items1 self machines) as [[p1|]|e1];
    destruct (__match__ control is_a items2 self machines) as [[p2|]|e2];
    try done.
  - symmetry. by apply Hiff.
  - by destruct (proj1 (Hiff p1) eq_refl).
  - by destruct (Hr2 e2).
  - by destruct (proj2 (Hiff p2) eq_refl).
  - by destruct (Hr2 e2).
  - by destruct (Hr1 e1).
  - by destruct (Hr1 e1).
  - by destruct (Hr1 e1).
Qed.

Lemma match_order_independent_witness :
  __match__ tag_of tag_is_a (λ d, reverse (map_to_list d)) np_rule [1; 2; 3]
  = Ret (Some {[ "DET" := 1; "ADJ" := 2; "NOUN" := 3 ]}) ∧
  __match__ tag_of tag_is_a map_to_list np_rule [1; 3]
  = __match__ tag_of tag_is_a (λ d, reverse (map_to_list d)) np_rule [1; 3].
Proof.
  destruct (match_order_independent tag_of tag_is_a map_to_list
              (λ d, reverse (map_to_list d)) np_rule [1; 2; 3]
              (λ d, Permutation_refl _) (λ d, reverse_Permutation _))
    as [Hiff _].
  destruct (match_order_independent tag_of tag_is_a map_to_list
              (λ d, reverse (map_to_list d)) np_rule [1; 3]
              (λ d, Permutation_refl _) (λ d, reverse_Permutation _))
    as [_ Heq].
  split.
  - apply Hiff. vm_compute. reflexivity.
  - apply Heq. intros m Hm.
    repeat (apply elem_of_cons in Hm as [->|Hm]);
      [vm_compute; lia..|by apply elem_of_nil in Hm].
Defined.

Lemma keep_one_returns_slot_unit_witness :
  __init__ plain_re "S" ["SUBJ"; "OBJ"] "SUBJ" = Ret s_rule ∧
  do tag_of tag_is_a map_to_list s_rule [6; 7] fresh_store
  = (Ret (Some [6]), fresh_store).
Proof.
  destruct (keep_one_returns_slot_unit tag_of tag_is_a map_to_list
              (λ d, Permutation_refl _) plain_re "S" ["SUBJ"; "OBJ"] "SUBJ"
              [6; 7] {[ "SUBJ" := 6; "OBJ" := 7 ]} fresh_store)
    as (self & Hself & _ & Hdo).
  - apply plain_re_alternation.
  - by repeat constructor.
  - apply list_elem_of_here.
  - intros t Ht.
    repeat (apply elem_of_cons in Ht as [->|Ht]);
      [done|by vm_compute|by apply elem_of_nil in Ht].
  - injection Hself as <-. split; [reflexivity|].
    destruct Hdo as (m & _ & Hl & _ & Hdo); [vm_compute; reflexivity|].
    vm_compute in Hl. injection Hl as <-. exact Hdo.
Defined.

(** A rule whose command code names no slot of the rule. *)
Definition verbless_rule : Construction :=
  {| rule_left := "NP";
     rule_right := ["DET"; "NOUN"];
     command := None |}.

Lemma unknown_code_fails_on_match_witness :
  (∃ self, __init__ plain_re "NP" ["DET"; "NOUN"] "VERB" = Ret self ∧
           rule_right self = ["DET"; "NOUN"] ∧ command self = None) ∧
  do tag_of tag_is_a map_to_list verbless_rule [1; 3] fresh_store
  = (Raise AttributeError, fresh_store).
Proof.
  destruct (unknown_code_fails_on_match tag_of tag_is_a map_to_list
              plain_re "NP" ["DET"; "NOUN"] "VERB") as [Hbuilt Hdo].
  split.
  - apply Hbuilt; [apply plain_re_alternation|by repeat constructor|
                   done..|].
    intros t Ht.
    repeat (apply elem_of_cons in Ht as [->|Ht]);
      [done..|by apply elem_of_nil in Ht].
  - apply (Hdo verbless_rule [1; 3] {[ "DET" := 1; "NOUN" := 3 ]});
      [done|done|vm_compute; reflexivity].
Defined.

(** A rule without slots, with the code of the frame dispatch. *)
Definition empty_rule : Construction :=
  {| rule_left := "S"; rule_right := []; command := Some (OneCommand "") |}.

Lemma empty_rule_never_runs_witness :
  __init__ plain_re "S" [] "*" = Ret empty_rule ∧
  do tag_of tag_is_a map_to_list empty_rule [] fresh_store
  = (Ret None, fresh_store) ∧
  do tag_of tag_is_a map_to_list empty_rule [1] fresh_store
  = (Ret None, fresh_store).
Proof.
  split_and!; [reflexivity|..];
    by apply (empty_rule_never_runs tag_of tag_is_a map_to_list
                (λ d, Permutation_refl _)).
Defined.

Lemma match_Some_no_repetition_witness :
  NoDup [1; 2; 3] ∧ NoDup (rule_right np_rule) ∧
  size ({[ "DET" := 1; "ADJ" := 2; "NOUN" := 3 ]} : gmap Control nat) = 3.
Proof.
  destruct (match_Some_no_repetition tag_of tag_is_a map_to_list
              (λ d, Permutation_refl _) np_rule [1; 2; 3]
              {[ "DET" := 1; "ADJ" := 2; "NOUN" := 3 ]})
    as (H1 & H2 & H3 & _).
  - vm_compute. reflexivity.
  - by split_and!.
Defined.

(** *** Reading the rules from a file *)

Definition tab : Ascii.ascii := "009"%char.
Definition newline : Ascii.ascii := "010"%char.

(** The whitespace of [str.strip()] and [str.split()] on a byte string:
    the space and the characters 9 to 13. *)
Definition is_space (a : Ascii.ascii) : bool :=
  bool_decide (a ∈ [" "; "009"; "010"; "011"; "012"; "013"]%char).

Fixpoint lstrip (s : string) : string :=
  match s with
  | EmptyString => EmptyString
  | String a s' => if is_space a then lstrip s' else s
  end.

Fixpoint rstrip (s : string) : string :=
  match s with
  | EmptyString => EmptyString
  | String a s' =>
      match rstrip s' with
      | EmptyString => if is_space a then EmptyString else String a EmptyString
      | r => String a r
      end
  end.

(** [s.strip()] *)
Definition strip (s : string) : string := lstrip (rstrip s).

(** [s.split()]: the runs of characters that are no whitespace. *)
Fixpoint split_whitespace (s : string) : list string :=
  match s with
  | EmptyString => []
  | String a s' =>
      if is_space a then split_whitespace s'
      else
        match s' with
        | EmptyString => [String a EmptyString]
        | String b _ =>
            if is_space b then String a EmptyString :: split_whitespace s'
            else match split_whitespace s' with
                 | word :: words => String a word :: words
                 | [] => [String a EmptyString]
                 end
        end
  end.

Section reading.

(** [re.compile], as for the commands. *)
Variable re_compile : string → result Pattern.

(** The body of the loop of [read_constructions] for one line. *)
Definition read_line (l : string) : result Construction :=
  match split tab (strip l) with
  | l0 :: l1 :: l2 :: _ => __init__ re_compile l0 (split_whitespace l1) l2
  | _ => Raise IndexError
  end.

(** [read_constructions(f)] for the lines of [f]. The constructions are
    objects without an equality of their own, so that the set returned
    holds one construction for every line; they are listed in the order
    of the lines. *)
Definition read_constructions (f : list string)
    : result (list Construction) :=
  for_each (λ constructions l,
              match read_line l with
              | Ret c => Ret (constructions ++ [c])
              | Raise e => Raise e
              end) [] f.

(** The number of tabs of a text. *)
Fixpoint tabs (s : string) : nat :=
  match s with
  | EmptyString => 0
  | String a s' => (if decide (a = tab) then 1 else 0) + tabs s'
  end.

Lemma split_length s : length (split tab s) = S (tabs s).
Proof.
  induction s as [|a s IH]; simpl; [done|].
  case_decide; simpl; [by rewrite IH|].
  destruct (split tab s); simpl in *; lia.
Qed.

Lemma tabs_app s1 s2 : tabs (s1 +:+ s2) = tabs s1 + tabs s2.
Proof. induction s1 as [|a s1 IH]; simpl; [done|]. rewrite IH. lia. Qed.

Lemma tabs_none s : split_at tab s = None → tabs s = 0.
Proof.
  induction s as [|a s IH]; simpl; [done|].
  case_decide; [done|]. destruct (split_at tab s) as [[]|]; [done|].
  intros _. by rewrite IH.
Qed.

Lemma tabs_lstrip s : tabs (lstrip s) ≤ tabs s.
Proof.
  induction s as [|a s IH]; simpl; [done|].
  destruct (is_space a); simpl; lia.
Qed.

Lemma tabs_rstrip s : tabs (rstrip s) ≤ tabs s.
Proof.
  induction s as [|a s IH]; simpl; [done|].
  destruct (rstrip s) as [|b r]; [destruct (is_space a)|]; simpl in *; lia.
Qed.

Lemma rstrip_spaces ws : all_chars is_space ws = true → rstrip ws = EmptyString.
Proof.
  induction ws as [|a ws IH]; simpl; [done|].
  intros [Ha Hws]%andb_true_iff. by rewrite IH, Ha.
Qed.

Lemma rstrip_app_spaces s ws :
  all_chars is_space ws = true → rstrip (s +:+ ws) = rstrip s.
Proof.
  intros Hws. induction s as [|a s IH]; simpl.
  - by apply rstrip_spaces.
  - by rewrite IH.
Qed.

Lemma rstrip_ends s c :
  is_space c = false →
  rstrip (s +:+ String c EmptyString) = s +:+ String c EmptyString.
Proof.
  intros Hc. induction s as [|a s IH]; simpl.
  - by rewrite Hc.
  - rewrite IH. by destruct s.
Qed.

(** A word: a text that is not empty and holds no whitespace. *)
Definition is_word (s : string) : Prop :=
  s ≠ EmptyString ∧ all_chars (λ a, negb (is_space a)) s = true.

Lemma split_whitespace_word s : is_word s → split_whitespace s = [s].
Proof.
  intros [Hne Hall]. induction s as [|a s IH]; [done|].
  simpl in Hall. apply andb_true_iff in Hall as [Ha Hs].
  apply negb_true_iff in Ha. simpl. rewrite Ha.
  destruct s as [|b s]; [done|].
  pose proof Hs as Hs'. simpl in Hs'.
  apply andb_true_iff in Hs' as [Hb _]. apply negb_true_iff in Hb.
  rewrite Hb. by rewrite IH.
Qed.

Lemma split_whitespace_cons s c rest :
  is_word s → is_space c = true →
  split_whitespace (s +:+ String c rest) = s :: split_whitespace rest.
Proof.
  intros [Hne Hall] Hc. induction s as [|a s IH]; [done|].
  simpl in Hall. apply andb_true_iff in Hall as [Ha Hs].
  apply negb_true_iff in Ha.
  change (String a s +:+ String c rest) with (String a (s +:+ String c rest)).
  cbn [split_whitespace]. rewrite Ha.
  destruct s as [|b s].
  - simpl. by rewrite Hc.
  - pose proof Hs as Hs'. simpl in Hs'.
    apply andb_true_iff in Hs' as [Hb _]. apply negb_true_iff in Hb.
    change (String b s +:+ String c rest)
      with (String b (s +:+ String c rest)) in *.
    cbv iota. rewrite Hb. by rewrite IH.
Qed.

Lemma split_whitespace_concat words :
  Forall is_word words →
  split_whitespace (String.concat " " words) = words.
Proof.
  induction 1 as [|word words Hword Hwords IH]; [done|].
  destruct words as [|word' words].
  - simpl. by apply split_whitespace_word.
  - change (String.concat " " (word :: word' :: words))
      with (word +:+ String " " (String.concat " " (word' :: words))).
    rewrite split_whitespace_cons by done. by rewrite IH.
Qed.

Lemma append_assoc (s1 s2 s3 : string) :
  (s1 +:+ s2) +:+ s3 = s1 +:+ s2 +:+ s3.
Proof.
  induction s1 as [|a s1 IH]; [done|].
  change (String a ((s1 +:+ s2) +:+ s3) = String a (s1 +:+ s2 +:+ s3)).
  by f_equal.
Qed.

Lemma append_cons a (s1 s2 : string) :
  String a s1 +:+ s2 = String a (s1 +:+ s2).
Proof. done. Qed.

Lemma word_no_tab s :
  all_chars (λ a, negb (is_space a)) s = true → split_at tab s = None.
Proof.
  induction s as [|a s IH]; simpl; [done|].
  intros [Ha Hs]%andb_true_iff. case_decide as Htab; [by subst|].
  by rewrite IH.
Qed.

Lemma concat_no_tab words :
  Forall is_word words → split_at tab (String.concat " " words) = None.
Proof.
  induction 1 as [|word words [_ Hword] Hwords IH]; [done|].
  destruct words as [|word' words].
  - simpl. by apply word_no_tab.
  - change (String.concat " " (word :: word' :: words))
      with (word +:+ String " " (String.concat " " (word' :: words))).
    apply split_at_None_app; [by apply word_no_tab|].
    change (split_at tab (String " " (String.concat " " (word' :: words))))
      with (match split_at tab (String.concat " " (word' :: words)) with
            | Some (b, r) => Some (String " " b, r)
            | None => None
            end).
    by rewrite IH.
Qed.

(** X8: a rule written on one line, as the left side, the slots and the
    command code between tabs, is read back as the construction of these
    three, when the left side begins with a character that is no
    whitespace and has no tab, the slots are words separated by one space,
    and the command code has no tab and ends with a character that is no
    whitespace. *)
Theorem read_line_round_trip a left slots code c :
  is_space a = false → split_at tab (String a left) = None →
  Forall is_word slots →
  is_space c = false → split_at tab (code +:+ String c EmptyString) = None →
  read_line (String a left +:+ String tab (String.concat " " slots)
             +:+ String tab (code +:+ String c EmptyString)
             +:+ String newline EmptyString)
  = __init__ re_compile (String a left) slots
      (code +:+ String c EmptyString).
Proof.
  intros Ha Hleft Hslots Hc Hcode. unfold read_line, strip.
  pose proof (concat_no_tab slots Hslots) as Hmid.
  set (mid := String.concat " " slots) in *.
  replace (String a left +:+ String tab mid
           +:+ String tab (code +:+ String c EmptyString)
           +:+ String newline EmptyString)
    with ((String a (left +:+ String tab mid +:+ String tab code)
           +:+ String c EmptyString) +:+ String newline EmptyString)
    by (by repeat (rewrite append_cons || rewrite append_assoc)).
  rewrite rstrip_app_spaces by done.
  rewrite rstrip_ends by done.
  rewrite append_cons. cbn [lstrip]. rewrite Ha.
  rewrite !append_assoc, <-(append_cons a), (append_cons tab mid).
  rewrite split_field by done.
  rewrite (append_cons tab code), split_field by done.
  rewrite split_one by done.
  unfold mid. by rewrite split_whitespace_concat.
Qed.

(** X9: a line without a command raises [IndexError]: a line of
    whitespace only, a line with one tab or none, and also a line whose
    third field is empty or whitespace, since the tab before it is
    stripped with it. *)
Theorem blank_command_raises left slots blanks :
  split_at tab left = None → split_at tab slots = None →
  all_chars is_space blanks = true →
  read_line (left +:+ blanks) = Raise IndexError ∧
  read_line (left +:+ String tab slots +:+ blanks) = Raise IndexError ∧
  read_line (left +:+ String tab slots +:+ String tab blanks)
  = Raise IndexError.
Proof.
  intros Hleft Hslots Hblanks.
  assert (∀ s ws, tabs s ≤ 1 → all_chars is_space ws = true →
                  read_line (s +:+ ws) = Raise IndexError) as Hshort.
  { intros s ws Hs Hws. unfold read_line, strip.
    rewrite rstrip_app_spaces by done.
    pose proof (split_length (lstrip (rstrip s))) as Hlen.
    pose proof (tabs_lstrip (rstrip s)). pose proof (tabs_rstrip s).
    destruct (split tab (lstrip (rstrip s))) as [|l0 [|l1 [|l2 fields]]];
      simpl in *; [done..|lia]. }
  apply tabs_none in Hleft, Hslots.
  split_and!.
  - apply Hshort; [lia|done].
  - rewrite <-append_assoc. apply Hshort; [|done].
    rewrite tabs_app. simpl. lia.
  - rewrite <-append_assoc. apply Hshort; [|done].
    rewrite tabs_app. simpl. lia.
Qed.

End reading.

(** Two lines of a file of rules. *)
Definition np_line : string :=
  "NP" +:+ String tab "DET NOUN" +:+ String tab "NOUN"
  +:+ String newline "".

Definition s_line : string :=
  "S" +:+ String tab "SUBJ OBJ" +:+ String tab "SUBJ[OBJ]"
  +:+ String newline "".

Lemma read_line_round_trip_witness :
  read_line plain_re np_line
  = Ret {| rule_left := "NP"; rule_right := ["DET"; "NOUN"];
           command := Some (OneCommand "NOUN") |} ∧
  read_constructions plain_re [np_line; s_line]
  = Ret [ {| rule_left := "NP"; rule_right := ["DET"; "NOUN"];
             command := Some (OneCommand "NOUN") |};
          {| rule_left := "S"; rule_right := ["SUBJ"; "OBJ"];
             command := Some (AppendRegexCommand "SUBJ" "OBJ") |} ].
Proof.
  assert (read_line plain_re np_line
          = __init__ plain_re "NP" ["DET"; "NOUN"] "NOUN") as H1.
  { apply (read_line_round_trip plain_re "N" "P" ["DET"; "NOUN"] "NOU" "N");
      [done|done|by repeat constructor|done|done]. }
  assert (read_line plain_re s_line
          = __init__ plain_re "S" ["SUBJ"; "OBJ"] "SUBJ[OBJ]") as H2.
  { apply (read_line_round_trip plain_re "S" "" ["SUBJ"; "OBJ"]
             "SUBJ[OBJ" "]");
      [done|done|by repeat constructor|done|done]. }
  split; [by rewrite H1|].
  unfold read_constructions. cbn [for_each]. by rewrite H1, H2.
Defined.

Lemma blank_command_raises_witness :
  read_line plain_re (String newline "") = Raise IndexError ∧
  read_line plain_re ("NP" +:+ String tab "DET NOUN" +:+ String newline "")
  = Raise IndexError ∧
  read_line plain_re ("NP" +:+ String tab "DET NOUN" +:+ String tab " ")
  = Raise IndexError ∧
  read_constructions plain_re [np_line; String newline ""]
  = Raise IndexError.
Proof.
  split_and!.
  - apply (blank_command_raises plain_re "" "" (String newline "")); done.
  - apply (blank_command_raises plain_re "NP" "DET NOUN"
             (String newline "")); done.
  - apply (blank_command_raises plain_re "NP" "DET NOUN" " "); done.
  - vm_compute. reflexivity.
Defined.
End constructions.


(** ** fst: the controls of the constructions *)

Module fst.

(** What a construction asks of its control: [reset()], [read(machine,
    dry_run)] and [in_final()]. [K] is the state of the control and [W] the
    shared mutable context on which the operators of a transition work.
    A dry-run read has no side effect (§4.2). *)
Class Automaton (K U W : Type) := {
  reset : K → K;
  read : U → bool → K → W → K * W;
  in_final : K → bool;
  read_dry_run : ∀ u k w, (read u true k w).2 = w;
}.

Section automaton.
Context {M O U W : Type}.

(** [Matcher.match] and the effect of one operator of a transition. *)
Variable matches : M → U → bool.
Variable operate : O → U → W → W.

Record transition : Type := Transition {
  t_matcher : M;
  t_operators : list O;
  t_from : nat;
  t_to : nat;
}.

(** Modelled from the spec: the classes [FSA] and [FST] (fst module, not in
    the sources), §3 and §4.2: states, one initial state, final states,
    transitions from a state through a matcher to a state with an ordered
    list of operators (none for an acceptor), and the current state, which
    is lost when a read finds no transition. States carry the number their
    name is printed from. *)
Record FSA : Type := {
  states : list nat;
  init_state : option nat;
  final_states : list nat;
  transitions : list transition;
  current_state : option nat;
}.

Definition empty_FSA : FSA :=
  {| states := []; init_state := None; final_states := [];
     transitions := []; current_state := None |}.

Definition add_state (name : nat) (is_init is_final : bool) (a : FSA) : FSA :=
  {| states := states a ++ [name];
     init_state := if is_init then Some name else init_state a;
     final_states :=
       if is_final then final_states a ++ [name] else final_states a;
     transitions := transitions a;
     current_state := current_state a |}.

Definition add_transition (matcher : M) (operators : list O)
    (from to : nat) (a : FSA) : FSA :=
  {| states := states a;
     init_state := init_state a;
     final_states := final_states a;
     transitions := transitions a ++ [Transition matcher operators from to];
     current_state := current_state a |}.

Definition set_current (c : option nat) (a : FSA) : FSA :=
  {| states := states a;
     init_state := init_state a;
     final_states := final_states a;
     transitions := transitions a;
     current_state := c |}.

Definition FSA_reset (a : FSA) : FSA := set_current (init_state a) a.

(** Modelled from the spec (§3, §4.2): a read moves the current state
    along the transition out of it whose matcher accepts the unit, and
    runs the operators of that transition, in order, unless the read is a
    dry run; with no such transition the current state is lost. For a
    state with more than one such transition the specification gives a
    read no behaviour (a configuration error, §3, §7); here the read
    takes the one added first, and the properties of the controls stated
    below either concern controls in which no state can have two of
    them, or assume of the units read that at most one applies. *)
Definition FSA_read (machine : U) (dry_run : bool) (a : FSA) (w : W)
    : FSA * W :=
  match current_state a with
  | None => (a, w)
  | Some q =>
      match List.find
              (λ t, bool_decide (t_from t = q) && matches (t_matcher t) machine)
              (transitions a) with
      | None => (set_current None a, w)
      | Some t =>
          (set_current (Some (t_to t)) a,
           if dry_run then w
           else foldl (λ w op, operate op machine w) w (t_operators t))
      end
  end.

Definition FSA_in_final (a : FSA) : bool :=
  match current_state a with
  | None => false
  | Some q => bool_decide (q ∈ final_states a)
  end.

Lemma FSA_read_dry_run machine a w : (FSA_read machine true a w).2 = w.
Proof.
  unfold FSA_read. destruct (current_state a); [|done].
  by destruct (List.find _ _).
Qed.

(** A read moves the current state and nothing else: after a reset the
    control is the one it was after the reset before. *)
Lemma FSA_read_reset machine dry_run a w :
  FSA_reset (FSA_read machine dry_run a w).1 = FSA_reset a.
Proof.
  unfold FSA_read. destruct (current_state a); [|done].
  by destruct (List.find _ _).
Qed.

(** An acceptor has no operator to run. *)
Definition no_operator (op : Empty_set) (machine : U) (w : W) : W :=
  match op with end.

#[export] Instance FSA_Automaton : Automaton FSA U W := {|
  reset := FSA_reset;
  read := FSA_read;
  in_final := FSA_in_final;
  read_dry_run := FSA_read_dry_run;
|}.
End automaton.
End fst.


(** ** pymachine/construction.py: constructions over a control *)

Module construction.
Import fst.

(** [Construction.SEMANTIC, CHUNK, AVM] *)
Inductive kind : Type := SEMANTIC | CHUNK | AVM.

(** *** class Construction *)
Module Construction.
Section methods.
Context `{Automaton K U W}.

Record t : Type := {
  name : string;
  control : K;
  type_ : kind;
}.

Definition set_control (k : K) (self : t) : t :=
  {| name := name self; control := k; type_ := type_ self |}.

(** [for machine in seq: self.control.read(machine, dry_run)] *)
Definition read_all (dry_run : bool) (seq : list U) (k : K) (w : W) : K * W :=
  foldl (λ kw machine, read machine dry_run kw.1 kw.2) (k, w) seq.

Definition check (self : t) (seq : list U) (w : W) : bool * t * W :=
  let kw := read_all true seq (reset (control self)) w in
  (in_final kw.1, set_control kw.1 self, kw.2).

Definition last_check (self : t) (seq : list U) : bool := true.

(** The body ends without a [return]: the result is [None]. *)
Definition act (self : t) (seq : list U) (w : W)
    : option (list U) * t * W :=
  let kw := read_all false seq (reset (control self)) w in
  (None, set_control kw.1 self, kw.2).

Definition run (self : t) (seq : list U) (w : W)
    : option (list U) * t * W :=
  let '(_, self1, w1) := check self seq w in
  if in_final (control self1) then act self1 seq w1
  else (None, self1, w1).

(** The control, reset and fed the sequence in a dry run, ends in a final
    state. *)
Definition accepts (k : K) (seq : list U) (w : W) : bool :=
  in_final (read_all true seq (reset k) w).1.

Lemma read_all_dry_run seq k w : (read_all true seq k w).2 = w.
Proof.
  unfold read_all. revert k w.
  induction seq as [|machine seq IH]; intros k w; [done|]. simpl.
  rewrite <-(read_dry_run machine k w) at 2.
  by destruct (read machine true k w) as [k' w'] eqn:E; rewrite IH.
Qed.
End methods.
Arguments t : clear implicits.
End Construction.

(** *** class VerbConstruction(Construction) *)
Module VerbConstruction.
Section methods.
Context {M O U W : Type} `{EqDecision U}.
Variable matches : M → U → bool.
Variable operate : O → U → W → W.

(** [KRPosMatcher(text)] and the two operators of a frame control. *)
Variable KRPosMatcher : string → M.
Variable ExpandOperator : O.
Variable FillArgumentOperator : string → O.

(** What the discovery of the arguments reads: [lexicon.static], the
    partitions and the print name of a unit, the constants [deep_cases]
    and [deep_case_to_grammatical_case], and [supp_dict]. *)
Variable static : string → option (list U).
Variable unit_partitions : U → list (list U).
Variable printname : U → string.
Variable deep_cases : list string.
Variable deep_case_to_grammatical_case : string → option string.
Variable supp_dict : string → option M.

#[local] Instance control_automaton : Automaton (FSA (M:=M) (O:=O)) U W :=
  FSA_Automaton matches operate.

(** The fields that the methods below use: the construction itself, the
    matcher of every discovered argument ([self.matchers], in the order of
    its keys) and the flag [activated]. *)
Record t : Type := {
  base : Construction.t (FSA (M:=M) (O:=O));
  matchers : list (string * M);
  activated : bool;
}.

Definition set_base (b : Construction.t (FSA (M:=M) (O:=O))) (self : t) : t :=
  {| base := b; matchers := matchers self; activated := activated self |}.

(** [arguments.index(arg)] *)
Fixpoint index (arg : string) (arguments : list string) : nat :=
  match arguments with
  | [] => 0
  | a :: arguments' => if decide (a = arg) then 0 else S (index arg arguments')
  end.

(** The transitions along one order of filling the arguments. *)
Fixpoint add_path (ms : list (string * M)) (arguments : list string)
    (path : list string) (actual_state : nat) (control : FSA) : FSA :=
  match path with
  | [] => control
  | arg :: path' =>
      let increase := 2 ^ index arg arguments in
      let new_state := actual_state + increase in
      match list_find (λ kv, kv.1 = arg) ms with
      | Some (_, (_, matcher)) =>
          add_path ms arguments path' new_state
            (add_transition matcher [FillArgumentOperator arg]
               actual_state new_state control)
      | None => control
      end
  end.

Definition generate_control (ms : list (string * M)) : FSA :=
  let arguments := ms.*1 in
  let control := add_state 0 true false empty_FSA in
  let control :=
    foldl (λ c i, add_state i false false c) control
      (seq 1 (2 ^ length arguments - 1)) in
  let control := add_state (2 ^ length arguments) false true control in
  let control :=
    add_transition (KRPosMatcher "VERB") [ExpandOperator] 0 1 control in
  foldl (λ c path, add_path ms arguments path 1 c) control
    (permutations arguments (length arguments)).

(** [self.matchers[pn] = matcher] *)
Fixpoint set_matcher (pn : string) (matcher : M) (ms : list (string * M))
    : list (string * M) :=
  match ms with
  | [] => [(pn, matcher)]
  | (k, v) :: ms' =>
      if decide (k = pn) then (k, matcher) :: ms'
      else (k, v) :: set_matcher pn matcher ms'
  end.

(** [discover_arguments(machine, depth)]: the state is [self.traversed]
    and [self.matchers]; [levels] is the number of depths left, that is
    [max_depth + 1 - depth]. *)
Fixpoint discover_arguments (levels : nat) (machine : U)
    (st : list U * list (string * M)) : result (list U * list (string * M)) :=
  match levels with
  | 0 => Ret st
  | S levels' =>
      for_each
        (λ st p,
           for_each
             (λ st part_machine,
                if decide (part_machine ∈ st.1) then Ret st
                else
                  let traversed := st.1 ++ [part_machine] in
                  let pn := printname part_machine in
                  let found :=
                    if String.prefix "$" pn then
                      match supp_dict pn with
                      | Some matcher => Ret (set_matcher pn matcher st.2)
                      | None => Raise KeyError
                      end
                    else if decide (pn ∈ deep_cases) then
                      let gr_case :=
                        default "NOM" (deep_case_to_grammatical_case pn) in
                      Ret (set_matcher pn
                             (KRPosMatcher ("NOUN<CAS<" +:+ gr_case +:+ ">>"))
                             st.2)
                    else Ret st.2 in
                  match found with
                  | Ret ms => discover_arguments levels' part_machine
                                (traversed, ms)
                  | Raise e => Raise e
                  end)
             st p)
        st (unit_partitions machine)
  end.

(** [__init__]: the matchers are those discovered from the canonical unit
    of the entry. *)
Definition __init__ (name : string) (max_depth : nat) : result t :=
  match static name with
  | None => Raise KeyError
  | Some [] => Raise IndexError
  | Some (machine :: _) =>
      match discover_arguments (max_depth + 1) machine ([], []) with
      | Raise e => Raise e
      | Ret (_, ms) =>
          Ret {| base := {| Construction.name := name;
                            Construction.control := generate_control ms;
                            Construction.type_ := SEMANTIC |};
                 matchers := ms;
                 activated := false |}
      end
  end.

Definition check (self : t) (seq : list U) (w : W) : bool * t * W :=
  if activated self then (false, self, w)
  else
    let '(res, b, w') := Construction.check (base self) seq w in
    (res, set_base b self, w').

(** [act] is the one of [Construction]. *)
Definition act (self : t) (seq : list U) (w : W)
    : option (list U) * t * W :=
  let '(res, b, w') := Construction.act (base self) seq w in
  (res, set_base b self, w').
End methods.
End VerbConstruction.

(** *** class AVMConstruction(Construction)

    The part of the class that decides which sequences are taken up: the
    control generated from the slots of the AVM, and [check]. *)
Module AVMConstruction.
Section methods.
Context {M U W : Type}.
Variable matches : M → U → bool.

#[local] Instance acceptor : Automaton (FSA (M:=M) (O:=Empty_set)) U W :=
  FSA_Automaton matches no_operator.

(** The AVM as this class reads it: its name and, for every key in the
    order of iteration, [get_field(key, AVM.TYPE)]. *)
Record avm : Type := {
  avm_name : string;
  avm_types : list (string * M);
}.

Record t : Type := {
  base : Construction.t (FSA (M:=M) (O:=Empty_set));
  self_avm : avm;
}.

Definition generate_control (a : avm) : FSA (M:=M) (O:=Empty_set) :=
  (foldl (λ cs key_type,
            let state_num := cs.2 in
            (add_transition key_type.2 [] 0 state_num
               (add_state state_num false true cs.1),
             state_num + 1))
         (add_state 0 true false empty_FSA, 1) (avm_types a)).1.

Definition __init__ (a : avm) : t :=
  {| base := {| Construction.name := avm_name a +:+ "Construction";
                Construction.control := generate_control a;
                Construction.type_ := AVM |};
     self_avm := a |}.

Definition check (self : t) (seq : list U) (w : W) : bool * t * W :=
  (true, self, w).
End methods.
End AVMConstruction.

(** *** class NPConstruction(Construction) *)

(** The attribute map of a tag ([control.kr]) and the pattern of a matcher:
    text, or a dict from keys to such values, its entries in the order in
    which the dict is iterated. *)
Inductive kr : Type :=
  | KStr (s : string)
  | KDict (d : list (string * kr)).

Fixpoint is_substring (key s : string) : bool :=
  String.prefix key s ||
  match s with
  | EmptyString => false
  | String _ s' => is_substring key s'
  end.

Fixpoint dict_get (key : string) (d : list (string * kr)) : option kr :=
  match d with
  | [] => None
  | (k, v) :: d' => if decide (k = key) then Some v else dict_get key d'
  end.

(** [key in data] *)
Definition contains (data : kr) (key : string) : bool :=
  match data with
  | KStr s => is_substring key s
  | KDict d => bool_decide (is_Some (dict_get key d))
  end.

(** [data[key]] *)
Definition subscript (data : kr) (key : string) : result kr :=
  match data with
  | KStr _ => Raise TypeError
  | KDict d =>
      match dict_get key d with
      | Some v => Ret v
      | None => Raise KeyError
      end
  end.

(** [greeks[x].add(v)] on the multimap of the variables *)
Definition greeks_add (x v : string) (greeks : gmap string (gset string))
    : gmap string (gset string) :=
  <[x := {[v]} ∪ default ∅ (greeks !! x)]> greeks.

(** A value bound to a variable enters a set: a dict is not hashable. *)
Definition hashable (v : kr) : result string :=
  match v with
  | KStr s => Ret s
  | KDict _ => Raise TypeError
  end.

(** [_collect_variable_values]; the template is a dict at every call the
    program makes. A template that is text would be iterated letter by
    letter. *)
Fixpoint collect_kr (tmpl data : kr) (greeks : gmap string (gset string))
    {struct tmpl} : result (bool * gmap string (gset string)) :=
  match tmpl with
  | KStr EmptyString => Ret (true, greeks)
  | KStr (String c _) =>
      if contains data (String c EmptyString) then Raise TypeError
      else Ret (false, greeks)
  | KDict items =>
      (fix loop (items : list (string * kr))
           (greeks : gmap string (gset string)) {struct items} :=
         match items with
         | [] => Ret (true, greeks)
         | (key, value) :: items' =>
             if negb (contains data key) then Ret (false, greeks)
             else
               match value with
               | KDict _ =>
                   match subscript data key with
                   | Ret sub => collect_kr value sub greeks
                   | Raise e => Raise e
                   end
               | KStr EmptyString => Raise IndexError
               | KStr (String c _ as x) =>
                   if decide (c = "@"%char) then
                     match subscript data key with
                     | Ret v =>
                         match hashable v with
                         | Ret s => loop items' (greeks_add x s greeks)
                         | Raise e => Raise e
                         end
                     | Raise e => Raise e
                     end
                   else loop items' greeks
               end
         end) items greeks
  end.

Definition _collect_variable_values (tmpl : list (string * kr)) (data : kr)
    (greeks : gmap string (gset string))
    : result (bool * gmap string (gset string)) :=
  collect_kr (KDict tmpl) data greeks.

Module NPConstruction.
Section methods.
Context {M Op U W : Type}.
Variable matches : M → U → bool.

(** [matcher.pattern], [machine.control.kr], [parse_rule] (np_parser) and
    [operator.act]. *)
Variable pattern : M → list (string * kr).
Variable control_kr : U → kr.
Variable parse_rule : string → list M.
Variable operator_act : Op → option (list U) → W → option (list U) * W.

#[local] Instance acceptor : Automaton (FSA (M:=M) (O:=Empty_set)) U W :=
  FSA_Automaton matches no_operator.

Record t : Type := {
  base : Construction.t (FSA (M:=M) (O:=Empty_set));
  rule : string;
  matchers : list M;
  operators : list Op;
}.

Definition _create_control (ms : list M) : FSA (M:=M) (O:=Empty_set) :=
  foldl (λ control state_matcher,
           let state := S state_matcher.1 in
           add_transition state_matcher.2 [] (state - 1) state
             (add_state state false (bool_decide (state = length ms))
                control))
        (add_state 0 true false empty_FSA) (imap pair ms).

Definition __init__ (name rule : string) (operators : list Op) : t :=
  {| base := {| Construction.name := name;
                Construction.control := _create_control (parse_rule rule);
                Construction.type_ := CHUNK |};
     rule := rule;
     matchers := parse_rule rule;
     operators := operators |}.

(** The first loop of [last_check]: the values of the variables of every
    unit, until a unit lacks a key of its pattern. *)
Fixpoint collect_all (patterns : list (list (string * kr))) (seq : list U)
    (greeks : gmap string (gset string))
    : result (bool * gmap string (gset string)) :=
  match patterns, seq with
  | tmpl :: patterns', machine :: seq' =>
      match _collect_variable_values tmpl (control_kr machine) greeks with
      | Ret (true, greeks') => collect_all patterns' seq' greeks'
      | r => r
      end
  | _, _ => Ret (true, greeks)
  end.

Definition last_check (self : t) (seq : list U) : result bool :=
  let patterns := pattern <$> matchers self in
  if decide (length seq ≠ length patterns) then Raise AssertionError
  else
    match collect_all patterns seq ∅ with
    | Raise e => Raise e
    | Ret (false, _) => Ret false
    | Ret (true, greeks) =>
        Ret (forallb (λ xv, bool_decide (size xv.2 ≤ 1)) (map_to_list greeks))
    end.

(** [check] is the one of [Construction]. *)
Definition check (self : t) (seq : list U) (w : W) : bool * t * W :=
  let '(res, b, w') := Construction.check (base self) seq w in
  (res,
   {| base := b; rule := rule self; matchers := matchers self;
      operators := operators self |},
   w').

Definition act (self : t) (seq : list U) (w : W)
    : option (list U) * W :=
  foldl (λ sw operator, operator_act operator sw.1 sw.2)
        (Some seq, w) (operators self).
End methods.
End NPConstruction.

(** *** Instances for the examples

    Units are numbered and tagged; a matcher is the pattern it carries and
    accepts the units whose category is the one of the pattern; the shared
    context is the log of the operators that have run. *)

Inductive operator : Type :=
  | ExpandOperator
  | FillArgumentOperator (arg : string).

Definition category (d : list (string * kr)) : option string :=
  match dict_get "CAT" d with
  | Some (KStr s) => Some s
  | _ => None
  end.

(** 10 eats: VERB; 11 the: DET, accusative; 12 dog: NOUN, nominative;
    13 dogs: NOUN, accusative; 14 barks: NOUN, with its agreement
    features written as one text. *)
Definition unit_kr (u : nat) : kr :=
  match u with
  | 10 => KDict [("CAT", KStr "VERB")]
  | 11 => KDict [("CAT", KStr "DET"); ("CAS", KStr "ACC")]
  | 12 => KDict [("CAT", KStr "NOUN"); ("CAS", KStr "NOM")]
  | 14 => KDict [("CAT", KStr "NOUN"); ("AGR", KStr "NUM:SG")]
  | _ => KDict [("CAT", KStr "NOUN"); ("CAS", KStr "ACC")]
  end.

Definition pattern_matches (p : list (string * kr)) (u : nat) : bool :=
  match unit_kr u with
  | KDict d => bool_decide (category p = category d)
  | KStr _ => false
  end.

Definition log_operator (op : operator) (u : nat)
    (w : list (operator * nat)) : list (operator * nat) :=
  w ++ [(op, u)].

Definition category_matcher (text : string) : list (string * kr) :=
  [("CAT", KStr text)].

(** The frames: a matcher of a frame control is the text of a tag and
    accepts the units that carry this tag. Units 10 eats and 20 gives are
    verbs; unit 12 is a nominative and unit 13 an accusative noun. The
    entry of eats has no argument; the canonical unit of gives has the
    deep cases AGT (unit 100) and PAT (unit 101) on its second
    partition. *)
Definition unit_tag (u : nat) : string :=
  match u with
  | 10 | 20 => "VERB"
  | 12 => "NOUN<CAS<NOM>>"
  | 13 => "NOUN<CAS<ACC>>"
  | _ => "DET"
  end.

Definition tag_matches (text : string) (u : nat) : bool :=
  String.eqb text (unit_tag u).

Definition frame_static (name : string) : option (list nat) :=
  if decide (name = "eat") then Some [10]
  else if decide (name = "give") then Some [20]
  else None.

Definition frame_partitions (u : nat) : list (list nat) :=
  match u with
  | 20 => [[]; [100; 101]]
  | _ => []
  end.

Definition frame_printname (u : nat) : string :=
  match u with
  | 100 => "AGT"
  | 101 => "PAT"
  | _ => "word"
  end.

Definition frame_cases (pn : string) : option string :=
  if decide (pn = "PAT") then Some "ACC" else None.

Definition frame (name : string) : result VerbConstruction.t :=
  VerbConstruction.__init__ (λ text, text) ExpandOperator
    FillArgumentOperator frame_static frame_partitions frame_printname
    ["AGT"; "PAT"] frame_cases (λ _, None) name 3.

Example give_frame_matchers :
  ∃ c, frame "give" = Ret c ∧
       VerbConstruction.matchers c
       = [("AGT", "NOUN<CAS<NOM>>"); ("PAT", "NOUN<CAS<ACC>>")] ∧
       final_states (Construction.control (VerbConstruction.base c)) = [4].
Proof. eexists. by split_and!. Qed.

(** The frame of gives takes its two arguments in either order. *)
Example give_frame_accepts :
  ∃ c, frame "give" = Ret c ∧
       (VerbConstruction.check tag_matches log_operator c [20; 12; 13] []).1.1
       = true ∧
       (VerbConstruction.check tag_matches log_operator c [20; 13; 12] []).1.1
       = true ∧
       (VerbConstruction.check tag_matches log_operator c [20; 12] []).1.1
       = false.
Proof. eexists. by split_and!. Qed.

(** An AVM with one slot, for nouns. *)
Definition noun_avm : AVMConstruction.avm (M:=list (string * kr)) :=
  {| AVMConstruction.avm_name := "noun";
     AVMConstruction.avm_types := [("head", category_matcher "NOUN")] |}.

(** A chunk rule of a determiner and a noun that agree in case. *)
Definition agreement_patterns : list (list (string * kr)) :=
  [ [("CAT", KStr "DET"); ("CAS", KStr "@x")];
    [("CAT", KStr "NOUN"); ("CAS", KStr "@x")] ].

Definition agreement_rule : NPConstruction.t (Op:=Empty_set) (M:=list (string * kr)) :=
  NPConstruction.__init__ (λ _, agreement_patterns) "agreement"
    "DET<CAS<@x>> NOUN<CAS<@x>>" [].



(** *** Properties of [check], [act] and [last_check] *)

Lemma check_accepts `{Automaton K U W} (self : Construction.t K) seq w :
  Construction.check self seq w
  = (Construction.accepts (Construction.control self) seq w,
     Construction.set_control
       (Construction.read_all true seq
          (reset (Construction.control self)) w).1 self,
     w).
Proof.
  unfold Construction.check, Construction.accepts.
  by rewrite Construction.read_all_dry_run.
Qed.

(** Nothing in [act] touches the flag of a frame construction. *)
Lemma act_keeps_activated {M O U W} (matches : M → U → bool)
    (operate : O → U → W → W) (self : VerbConstruction.t) seq w :
  (VerbConstruction.act matches operate self seq w).1.1 = None ∧
  VerbConstruction.activated
    (VerbConstruction.act matches operate self seq w).1.2
  = VerbConstruction.activated self.
Proof. done. Qed.

Lemma read_all_reset {M O U W} (matches : M → U → bool)
    (operate : O → U → W → W) dry_run seq (a : FSA) w :
  FSA_reset
    (Construction.read_all (H:=FSA_Automaton matches operate)
       dry_run seq a w).1
  = FSA_reset a.
Proof.
  unfold Construction.read_all.
  change a with (a, w).1 at 2. generalize (a, w). clear a w.
  induction seq as [|machine seq IH]; intros kw; [done|]. simpl.
  rewrite IH. apply FSA_read_reset.
Qed.

(** C2: on the code the claim fails. Calling [act] on a frame construction
    whose flag [activated] is unset leaves the flag unset, and the next
    [check], on any sequence, is again the dry run of that sequence through
    the control: it is true for every sequence that the control
    accepts. *)
Theorem frame_check_after_act {M O U W} (matches : M → U → bool)
    (operate : O → U → W → W) (self : VerbConstruction.t) seq seq' w :
  VerbConstruction.activated self = false →
  VerbConstruction.activated
    (VerbConstruction.act matches operate self seq w).1.2 = false ∧
  (VerbConstruction.check matches operate
     (VerbConstruction.act matches operate self seq w).1.2 seq'
     (VerbConstruction.act matches operate self seq w).2).1.1
  = Construction.accepts
      (H:=VerbConstruction.control_automaton matches operate)
      (Construction.control (VerbConstruction.base self)) seq'
      (VerbConstruction.act matches operate self seq w).2.
Proof.
  intros Hflag. split; [done|].
  unfold VerbConstruction.check, VerbConstruction.act. simpl.
  rewrite Hflag. simpl. unfold Construction.accepts. simpl.
  by rewrite read_all_reset.
Qed.

(** The frame of a verb without arguments accepts the verb; [act] then
    fires (its operator runs) and returns [None]; the next [check] of the
    same sequence is true again. *)
Lemma frame_checks_again_after_act :
  ∃ c0,
    frame "eat" = Ret c0 ∧
    (VerbConstruction.check tag_matches log_operator c0 [10] []).1.1 = true ∧
    (VerbConstruction.act tag_matches log_operator c0 [10] []).1.1 = None ∧
    (VerbConstruction.act tag_matches log_operator c0 [10] []).2
    = [(ExpandOperator, 10)] ∧
    (VerbConstruction.check tag_matches log_operator
       (VerbConstruction.act tag_matches log_operator c0 [10] []).1.2 [10]
       (VerbConstruction.act tag_matches log_operator c0 [10] []).2).1.1
    = true.
Proof.
  eexists. split; [reflexivity|]. split_and!; [reflexivity..|].
  match goal with
  | |- (VerbConstruction.check _ _ (VerbConstruction.act _ _ ?c _ _).1.2
          _ _).1.1 = true =>
      destruct (frame_check_after_act tag_matches log_operator c
                  [10] [10] [] eq_refl) as [_ Heq]
  end.
  rewrite Heq. reflexivity.
Defined.

(** C4 (amended): [check] of a base construction, and of a chunk
    construction, dry-runs the sequence through the control and is true
    exactly when the control ends in a final state; the shared context is
    left as it was. A frame construction does the same unless its flag
    [activated] is set, in which case it answers false without reading. A
    simple construction has a mapping exactly when the one-to-one pairing
    of units and slots exists. [check] of an AVM construction is true for
    every sequence and does not consult the control. *)
Theorem check_is_dry_run :
  (∀ K U W (H : Automaton K U W) (self : Construction.t K) seq w,
     (Construction.check self seq w).1.1
     = Construction.accepts (Construction.control self) seq w ∧
     (Construction.check self seq w).2 = w) ∧
  (∀ M Op U W (matches : M → U → bool) (self : NPConstruction.t (Op:=Op))
     seq (w : W),
     (NPConstruction.check matches self seq w).1.1
     = Construction.accepts (H:=NPConstruction.acceptor matches)
         (Construction.control (NPConstruction.base self)) seq w ∧
     (NPConstruction.check matches self seq w).2 = w) ∧
  (∀ M O U W (matches : M → U → bool) (operate : O → U → W → W)
     (self : VerbConstruction.t) seq w,
     (VerbConstruction.check matches operate self seq w).1.1
     = negb (VerbConstruction.activated self) &&
       Construction.accepts
         (H:=VerbConstruction.control_automaton matches operate)
         (Construction.control (VerbConstruction.base self)) seq w ∧
     (VerbConstruction.check matches operate self seq w).2 = w) ∧
  (∀ M U W (self : AVMConstruction.t (M:=M)) (seq : list U) (w : W),
     AVMConstruction.check self seq w = (true, self, w)) ∧
  (∀ U (EqU : EqDecision U) (CU : Countable U) control is_a dict_items
     (self : constructions.Construction) (machines : list U),
     (∀ d, dict_items d ≡ₚ map_to_list d) →
     (∃ pairs, constructions.__match__ control is_a dict_items self machines
               = Ret (Some pairs)) ↔
     (∃ pairs, constructions.slot_bijection control is_a
                 (constructions.rule_right self) machines pairs)).
Proof.
  split_and!.
  - intros. by rewrite check_accepts.
  - intros. unfold NPConstruction.check.
    by rewrite (check_accepts (H:=NPConstruction.acceptor matches)).
  - intros. unfold VerbConstruction.check.
    destruct (VerbConstruction.activated self); [done|].
    by rewrite
      (check_accepts (H:=VerbConstruction.control_automaton matches operate)).
  - done.
  - intros U EqU CU control is_a dict_items self machines Hperm.
    split; intros [pairs Hp]; exists pairs.
    + by eapply constructions.match_Some_bijection.
    + by eapply constructions.bijection_match_Some.
Qed.

(** The control of the noun AVM accepts neither the empty sequence nor
    the verb, and [check] is true for both. *)
Lemma avm_check_ignores_control :
  (AVMConstruction.check (W:=unit) (AVMConstruction.__init__ noun_avm)
     [10] tt).1.1 = true ∧
  Construction.accepts (H:=AVMConstruction.acceptor pattern_matches)
    (Construction.control
       (AVMConstruction.base (AVMConstruction.__init__ noun_avm)))
    [10] tt = false ∧
  (AVMConstruction.check (W:=unit) (U:=nat)
     (AVMConstruction.__init__ noun_avm) [] tt).1.1 = true ∧
  Construction.accepts (H:=AVMConstruction.acceptor pattern_matches)
    (Construction.control
       (AVMConstruction.base (AVMConstruction.__init__ noun_avm)))
    [] tt = false.
Proof. by split_and!. Qed.


(** *** Patterns and attribute maps of text

    A pattern whose values are all text, none empty, and an attribute map
    whose values are all text: the collection raises nothing on them, and
    records the value found under every key that the pattern binds to a
    variable. *)

Definition is_variable (x : string) : Prop :=
  match x with
  | EmptyString => False
  | String c _ => c = "@"%char
  end.

Definition plain_pattern (tmpl : list (string * kr)) : Prop :=
  Forall (λ kv, ∃ c x, kv.2 = KStr (String c x)) tmpl.

Definition plain_items (items : list (string * kr)) : Prop :=
  Forall (λ kv, ∃ s, kv.2 = KStr s) items.

Definition greeks_has (greeks : gmap string (gset string)) (x v : string)
    : Prop :=
  ∃ values, greeks !! x = Some values ∧ v ∈ values.

Lemma greeks_add_has greeks x v x' v' :
  greeks_has (greeks_add x v greeks) x' v' ↔
  (x' = x ∧ v' = v) ∨ greeks_has greeks x' v'.
Proof.
  unfold greeks_has, greeks_add. split.
  - intros (values & Hl & Hin). rewrite lookup_insert in Hl.
    case_decide as Hx; [|right; eauto]. subst x'. injection Hl as <-.
    apply elem_of_union in Hin as [->%elem_of_singleton|Hin]; [by left|].
    right. destruct (greeks !! x) as [values|]; [eauto|].
    by apply elem_of_empty in Hin.
  - intros [[-> ->]|(values & Hl & Hin)].
    + rewrite lookup_insert_eq. eexists. split; [done|]. set_solver.
    + destruct (decide (x = x')) as [->|Hne].
      * rewrite lookup_insert_eq, Hl. eexists. split; [done|]. set_solver.
      * rewrite lookup_insert_ne by done. eauto.
Qed.

Lemma collect_cons_text key c x tmpl data greeks :
  _collect_variable_values ((key, KStr (String c x)) :: tmpl) data greeks
  = if negb (contains data key) then Ret (false, greeks)
    else if decide (c = "@"%char) then
      match subscript data key with
      | Ret v =>
          match hashable v with
          | Ret s =>
              _collect_variable_values tmpl data
                (greeks_add (String c x) s greeks)
          | Raise e => Raise e
          end
      | Raise e => Raise e
      end
    else _collect_variable_values tmpl data greeks.
Proof. reflexivity. Qed.

Lemma dict_get_plain key items v :
  plain_items items → dict_get key items = Some v → ∃ s, v = KStr s.
Proof.
  intros Hplain. induction Hplain as [|[k v'] items [s Hs] _ IH]; [done|].
  simpl in *. case_decide; [intros [= <-]; eauto|done].
Qed.

Lemma collect_plain tmpl items greeks :
  plain_pattern tmpl → plain_items items →
  ∃ ok greeks',
    _collect_variable_values tmpl (KDict items) greeks = Ret (ok, greeks') ∧
    (∀ x v, greeks_has greeks x v → greeks_has greeks' x v) ∧
    (ok = true →
     ∀ key x v,
       (key, KStr x) ∈ tmpl → is_variable x →
       dict_get key items = Some (KStr v) → greeks_has greeks' x v).
Proof.
  intros Htmpl Hitems. revert greeks.
  induction Htmpl as [|[key value] tmpl (c & x & Hvalue) _ IH]; intros greeks.
  - exists true, greeks. split_and!; [done..|].
    by intros _ key x v ?%elem_of_nil.
  - simpl in Hvalue. subst value. rewrite collect_cons_text.
    destruct (contains (KDict items) key) eqn:Hc; simpl.
    2:{ exists false, greeks. by split_and!. }
    simpl in Hc. apply bool_decide_eq_true in Hc as [v0 Hv0].
    destruct (dict_get_plain _ _ _ Hitems Hv0) as [s ->].
    destruct (decide (c = "@"%char)) as [->|Hc].
    + rewrite Hv0. simpl.
      destruct (IH (greeks_add (String "@" x) s greeks))
        as (ok & greeks' & Heq & Hmono & Hbind).
      exists ok, greeks'. split_and!; [done|..].
      * intros x' v' Hhas. apply Hmono, greeks_add_has. by right.
      * intros Hok key' x' v' [[= -> ->]|Hin]%elem_of_cons Hvar Hget.
        -- rewrite Hv0 in Hget. injection Hget as ->.
           apply Hmono, greeks_add_has. by left.
        -- by eapply Hbind.
    + destruct (IH greeks) as (ok & greeks' & Heq & Hmono & Hbind).
      exists ok, greeks'. split_and!; [done..|].
      intros Hok key' x' v' [[= -> ->]|Hin]%elem_of_cons Hvar Hget.
      * done.
      * by eapply Hbind.
Qed.

Lemma collect_all_plain {U} (control_kr : U → kr) patterns (seq : list U)
    greeks :
  Forall plain_pattern patterns →
  Forall (λ m, ∃ items, control_kr m = KDict items ∧ plain_items items) seq →
  ∃ ok greeks',
    NPConstruction.collect_all control_kr patterns seq greeks
    = Ret (ok, greeks') ∧
    (∀ x v, greeks_has greeks x v → greeks_has greeks' x v) ∧
    (ok = true →
     ∀ i tmpl m items key x v,
       patterns !! i = Some tmpl → seq !! i = Some m →
       control_kr m = KDict items →
       (key, KStr x) ∈ tmpl → is_variable x →
       dict_get key items = Some (KStr v) → greeks_has greeks' x v).
Proof.
  intros Hpat. revert seq greeks.
  induction Hpat as [|tmpl patterns Htmpl _ IH]; intros seq greeks Hseq.
  { exists true, greeks. by split_and!. }
  destruct Hseq as [|m seq (items & Hm & Hitems) Hseq].
  { exists true, greeks. by split_and!. }
  simpl. rewrite Hm.
  destruct (collect_plain tmpl items greeks Htmpl Hitems)
    as (ok1 & greeks1 & Heq1 & Hmono1 & Hbind1).
  rewrite Heq1. destruct ok1.
  - destruct (IH seq greeks1 Hseq) as (ok & greeks' & Heq & Hmono & Hbind).
    exists ok, greeks'. split_and!; [done|by eauto|].
    intros Hok [|i] tmpl' m' items' key x v; simpl.
    + intros [= <-] [= <-] Hm' Hin Hvar Hget.
      rewrite Hm in Hm'. injection Hm' as <-.
      apply Hmono. by eapply Hbind1.
    + by apply Hbind.
  - exists false, greeks1. by split_and!.
Qed.

Lemma two_values_size (values : gset string) v1 v2 :
  v1 ∈ values → v2 ∈ values → v1 ≠ v2 → 1 < size values.
Proof.
  intros H1 H2 Hne.
  assert (size ({[v1]} ∪ {[v2]} : gset string) ≤ size values) as Hle
    by (apply subseteq_size; set_solver).
  rewrite size_union, !size_singleton in Hle by set_solver. lia.
Qed.




(** *** More on the controls and on [run] *)

(** X10: [run] on a construction whose control is an FSA. When the
    control accepts the sequence in a dry run, [run] is [act]: it leaves
    the control and the shared context as [act] alone does, and returns
    what [act] returns. When the control rejects the sequence, [run]
    returns [None], leaves the shared context as it was, and leaves the
    control where the dry run ended. *)
Theorem run_is_check_then_act {M O U W} (matches : M → U → bool)
    (operate : O → U → W → W) (self : Construction.t (FSA (M:=M) (O:=O)))
    (seq : list U) (w : W) :
  Construction.run (H:=FSA_Automaton matches operate) self seq w
  = if Construction.accepts (H:=FSA_Automaton matches operate)
         (Construction.control self) seq w
    then Construction.act (H:=FSA_Automaton matches operate) self seq w
    else (None,
          Construction.set_control
            (Construction.read_all (H:=FSA_Automaton matches operate)
               true seq (FSA_reset (Construction.control self)) w).1 self,
          w).
Proof.
  unfold Construction.run.
  rewrite (check_accepts (H:=FSA_Automaton matches operate)).
  cbn [Construction.control Construction.set_control].
  unfold Construction.accepts.
  destruct (in_final _) eqn:E; [|done].
  unfold Construction.act. cbn [Construction.control Construction.set_control
    Construction.name Construction.type_ reset FSA_Automaton].
  by rewrite read_all_reset.
Qed.

(** The transitions of a chain of matchers, numbered from [k]. *)
Definition chain {M} (k : nat) (ms : list M)
    : list (transition (M:=M) (O:=Empty_set)) :=
  imap (λ i m, Transition m [] (k + i) (S (k + i))) ms.

Lemma create_control_fields {M} (n : nat) (l : list M) :
  let c :=
    foldl (λ control (state_matcher : nat * M),
             let state := S state_matcher.1 in
             add_transition state_matcher.2 [] (state - 1) state
               (add_state state false (bool_decide (state = n)) control))
          (add_state 0 true false (empty_FSA (O:=Empty_set))) (imap pair l) in
  init_state c = Some 0 ∧ current_state c = None ∧
  transitions c = chain 0 l ∧
  final_states c = if decide (0 < n ≤ length l) then [n] else [].
Proof.
  induction l as [|m l IH] using rev_ind.
  - simpl. split_and!; [done..|]. by rewrite decide_False by lia.
  - rewrite imap_app, foldl_app.
    match type of IH with
    | let c := ?t in _ => set (c0 := t) in *
    end.
    cbv zeta in IH. destruct IH as (Hi & Hc & Ht & Hf).
    cbn [imap foldl fst snd]. cbv zeta.
    cbn [add_transition add_state init_state current_state transitions
         final_states].
    split_and!; [done..| |].
    + rewrite Ht. unfold chain. rewrite imap_app. cbn [imap].
      do 2 f_equal. f_equal; simpl; lia.
    + rewrite Hf, length_app. cbn [length]. rewrite Nat.add_0_r.
      case_bool_decide as Hn.
      * rewrite decide_False by lia. rewrite decide_True by lia.
        simpl. by rewrite Hn.
      * case_decide; [rewrite decide_True by lia|rewrite decide_False by lia];
          done.
Qed.

(** A control that has lost its state stays as it is. *)
Lemma read_all_stuck {M O U W} (matches : M → U → bool)
    (operate : O → U → W → W) dry_run (seq : list U)
    (a : FSA (M:=M) (O:=O)) (w : W) :
  current_state a = None →
  (Construction.read_all (H:=FSA_Automaton matches operate)
     dry_run seq a w).1 = a.
Proof.
  intros Hc. unfold Construction.read_all.
  induction seq as [|u seq IH]; [done|].
  cbn [foldl fst snd].
  change (read u dry_run a w) with (FSA_read matches operate u dry_run a w).
  assert (FSA_read matches operate u dry_run a w = (a, w)) as ->
    by (unfold FSA_read; by rewrite Hc).
  exact IH.
Qed.

Section chain_reading.
Context {M U W : Type}.
Variable matches : M → U → bool.

Lemma chain_cons k (m : M) ms :
  chain k (m :: ms) = Transition m [] k (S k) :: chain (S k) ms.
Proof.
  unfold chain. simpl. rewrite Nat.add_0_r. f_equal.
  apply imap_ext. intros i x _. simpl. f_equal; lia.
Qed.

Lemma find_chain k (ms : list M) q (u : U) :
  List.find (λ t, bool_decide (t_from t = q) && matches (t_matcher t) u)
    (chain k ms)
  = if decide (k ≤ q) then
      match ms !! (q - k) with
      | Some m =>
          if matches m u then Some (Transition m [] q (S q)) else None
      | None => None
      end
    else None.
Proof.
  revert k. induction ms as [|m ms IH]; intros k.
  - simpl. by case_decide.
  - rewrite chain_cons. simpl. rewrite IH.
    case_bool_decide as Hk; simpl.
    + subst q. rewrite (decide_True (P:=k ≤ k)) by lia.
      rewrite Nat.sub_diag. simpl.
      destruct (matches m u); [done|].
      by rewrite (decide_False (P:=S k ≤ k)) by lia.
    + destruct (decide (k ≤ q)).
      * rewrite (decide_True (P:=S k ≤ q)) by lia.
        by replace (q - k) with (S (q - S k)) by lia.
      * by rewrite (decide_False (P:=S k ≤ q)) by lia.
Qed.

Lemma chain_read_all (ms : list M) (seq : list U)
    (a : FSA (M:=M) (O:=Empty_set)) (w : W) q :
  transitions a = chain 0 ms → current_state a = Some q →
  let r := (Construction.read_all (H:=FSA_Automaton matches no_operator)
              true seq a w).1 in
  final_states r = final_states a ∧
  ∀ q', current_state r = Some q' ↔
        q' = q + length seq ∧
        Forall2 (λ m u, matches m u = true)
          (take (length seq) (drop q ms)) seq.
Proof.
  intros Ht. revert a w q Ht.
  induction seq as [|u seq IH]; intros a w q Ht Hq; cbv zeta.
  - simpl. split; [done|]. intros q'. rewrite Hq. split.
    + intros [= <-]. split; [lia|constructor].
    + intros [-> _]. f_equal. lia.
  - assert (FSA_read matches no_operator u true a w
            = (set_current
                 (match ms !! q with
                  | Some m => if matches m u then Some (S q) else None
                  | None => None
                  end) a, w)) as Hread.
    { unfold FSA_read. rewrite Hq, Ht, find_chain.
      rewrite decide_True by lia. rewrite Nat.sub_0_r.
      destruct (ms !! q) as [m|]; [|done]. by destruct (matches m u). }
    assert (Construction.read_all (H:=FSA_Automaton matches no_operator)
              true (u :: seq) a w
            = Construction.read_all (H:=FSA_Automaton matches no_operator)
                true seq
                (set_current
                   (match ms !! q with
                    | Some m => if matches m u then Some (S q) else None
                    | None => None
                    end) a) w) as ->.
    { unfold Construction.read_all. cbn [foldl fst snd].
      change (read u true a w) with (FSA_read matches no_operator u true a w).
      by rewrite Hread. }
    destruct (ms !! q) as [m|] eqn:Hm.
    + destruct (matches m u) eqn:Hmu.
      * destruct (IH (set_current (Some (S q)) a) w (S q)) as [Hf Hcur];
          [done..|].
        cbv zeta in Hf, Hcur. split; [by rewrite Hf|].
        intros q'. rewrite Hcur. cbn [length].
        rewrite (drop_S _ _ _ Hm). cbn [take].
        rewrite Forall2_cons. split.
        -- intros [-> HF]. split; [lia|done].
        -- intros [-> [_ HF]]. split; [lia|done].
      * rewrite (read_all_stuck matches no_operator true seq
                 (set_current None a) w eq_refl).
        split; [done|]. intros q'. split; [done|].
        intros [_ HF]. cbn [length] in HF.
        rewrite (drop_S _ _ _ Hm) in HF. cbn [take] in HF.
        apply Forall2_cons in HF as [HF _]. congruence.
    + rewrite (read_all_stuck matches no_operator true seq
                 (set_current None a) w eq_refl).
      split; [done|]. intros q'. split; [done|].
      intros [_ HF]. apply lookup_ge_None in Hm.
      rewrite drop_ge in HF by done. rewrite take_nil in HF.
      by apply Forall2_nil_cons_inv in HF.
Qed.
End chain_reading.

(** X11: the control of a chunk rule accepts exactly the sequences that
    have one unit for every matcher of the rule, each unit accepted by
    the matcher at its place; the control of a rule without matchers
    accepts nothing, not even the empty sequence. *)
Theorem create_control_accepts {M U W} (matches : M → U → bool)
    (ms : list M) (seq : list U) (w : W) :
  Construction.accepts (H:=NPConstruction.acceptor matches)
    (NPConstruction._create_control ms) seq w = true ↔
  ms ≠ [] ∧ Forall2 (λ m u, matches m u = true) ms seq.
Proof.
  unfold Construction.accepts, NPConstruction._create_control.
  destruct (create_control_fields (length ms) ms) as (Hi & Hc & Ht & Hf).
  set (c := foldl _ _ _) in *.
  change (FSA_in_final
            (Construction.read_all (H:=FSA_Automaton matches no_operator)
               true seq (FSA_reset c) w).1 = true ↔
          ms ≠ [] ∧ Forall2 (λ m u, matches m u = true) ms seq).
  unfold FSA_reset. rewrite Hi.
  destruct (chain_read_all matches ms seq (set_current (Some 0) c) w 0)
    as [Hf' Hcur]; [done..|].
  cbv zeta in Hf', Hcur. unfold FSA_in_final.
  cbn [final_states set_current] in Hf'.
  rewrite Hf', Hf. rewrite drop_0 in Hcur. split.
  - destruct (current_state (Construction.read_all _ _ _ _).1)
      as [q|] eqn:E; [|done].
    intros Hq%bool_decide_eq_true.
    case_decide as Hn; [|by apply elem_of_nil in Hq].
    apply list_elem_of_singleton in Hq. subst q.
    destruct (proj1 (Hcur _) eq_refl) as [Hlen HF]. simpl in Hlen.
    rewrite <-Hlen, firstn_all in HF. split; [|done].
    intros ->. simpl in Hn. lia.
  - intros [Hne HF].
    pose proof (Forall2_length _ _ _ HF) as Hlen.
    rewrite (proj2 (Hcur (length ms))).
    + apply bool_decide_eq_true. rewrite decide_True; [set_solver|].
      destruct ms; [done|simpl; lia].
    + split; [simpl; lia|]. by rewrite <-Hlen, firstn_all.
Qed.

(** The transitions of the control of an AVM: one from the initial state
    for every slot. *)
Definition star {M} (types : list (string * M))
    : list (transition (M:=M) (O:=Empty_set)) :=
  imap (λ i (key_type : string * M), Transition key_type.2 [] 0 (S i)) types.

Lemma generate_control_fields {M} (types : list (string * M)) :
  let cs :=
    foldl (λ (cs : FSA (M:=M) (O:=Empty_set) * nat)
             (key_type : string * M),
             let state_num := cs.2 in
             (add_transition key_type.2 [] 0 state_num
                (add_state state_num false true cs.1),
              state_num + 1))
          (add_state 0 true false empty_FSA, 1) types in
  cs.2 = S (length types) ∧
  init_state cs.1 = Some 0 ∧ current_state cs.1 = None ∧
  transitions cs.1 = star types ∧
  final_states cs.1 = seq 1 (length types).
Proof.
  induction types as [|key_type types IH] using rev_ind; [done|].
  rewrite foldl_app.
  match type of IH with
  | let cs := ?t in _ => set (cs0 := t) in *
  end.
  cbv zeta in IH. destruct IH as (Hn & Hi & Hc & Ht & Hf).
  cbn [foldl fst snd]. cbv zeta.
  cbn [add_transition add_state init_state current_state transitions
       final_states fst snd].
  rewrite Hn, Ht, Hf, length_app. cbn [length].
  split_and!; [lia|done|done|..].
  - unfold star. rewrite imap_app. cbn [imap].
    do 3 f_equal. lia.
  - rewrite Nat.add_1_r, seq_S. done.
Qed.

(** Reading with the control of an AVM: a sequence is accepted exactly
    when it is one unit that the type of some slot accepts. *)
Lemma avm_control_reads {M U W} (matches : M → U → bool)
    (a : AVMConstruction.avm (M:=M)) (seq : list U) (w : W) :
  Construction.accepts (H:=AVMConstruction.acceptor matches)
    (AVMConstruction.generate_control a) seq w = true ↔
  ∃ u key m, seq = [u] ∧ (key, m) ∈ AVMConstruction.avm_types a ∧
             matches m u = true.
Proof.
  unfold Construction.accepts, AVMConstruction.generate_control.
  destruct (generate_control_fields (AVMConstruction.avm_types a))
    as (_ & Hi & Hc & Ht & Hf).
  set (c := (foldl _ _ _).1) in *.
  change (FSA_in_final
            (Construction.read_all (H:=FSA_Automaton matches no_operator)
               true seq (FSA_reset c) w).1 = true ↔
          ∃ u key m, seq = [u] ∧ (key, m) ∈ AVMConstruction.avm_types a ∧
                     matches m u = true).
  assert (∀ t, t ∈ star (AVMConstruction.avm_types a) ↔
               ∃ i key m, AVMConstruction.avm_types a !! i = Some (key, m) ∧
                          t = Transition m [] 0 (S i)) as Hstar.
  { intros t. unfold star. rewrite elem_of_lookup_imap. split.
    - intros (i & [key m] & -> & Hl). by exists i, key, m.
    - intros (i & key & m & Hl & ->). by exists i, (key, m). }
  assert (∃ c0, FSA_reset c = c0 ∧ current_state c0 = Some 0 ∧
                transitions c0 = star (AVMConstruction.avm_types a) ∧
                final_states c0
                = List.seq 1 (length (AVMConstruction.avm_types a)))
    as (c0 & -> & Hc0 & Ht0 & Hf0).
  { exists (FSA_reset c). unfold FSA_reset.
    cbn [current_state transitions final_states set_current].
    by rewrite Hi. }
  clear Hi Hc Ht Hf. clearbody c. clear c.
  assert (∀ (k : FSA (M:=M) (O:=Empty_set)) q v,
            transitions k = star (AVMConstruction.avm_types a) →
            current_state k = Some (S q) →
            FSA_read matches no_operator v true k w
            = (set_current None k, w)) as Hdead.
  { intros k q v Hk Hq. unfold FSA_read. rewrite Hq, Hk.
    destruct (List.find _ (star _)) as [t|] eqn:Ef; [|done].
    apply find_some in Ef as [Hin Hm'].
    apply list_elem_of_In, Hstar in Hin as (? & ? & ? & _ & ->).
    by apply andb_true_iff in Hm' as [?%bool_decide_eq_true _]. }
  destruct seq as [|u seq].
  { unfold FSA_in_final. cbn [Construction.read_all foldl fst].
    rewrite Hc0, Hf0. split.
    - intros Hin%bool_decide_eq_true. apply elem_of_seq in Hin. lia.
    - by intros (? & ? & ? & ? & _). }
  unfold Construction.read_all. cbn [foldl fst snd].
  change (read u true c0 w) with (FSA_read matches no_operator u true c0 w).
  unfold FSA_read at 1. rewrite Hc0, Ht0.
  destruct (List.find _ (star _)) as [t|] eqn:Ef.
  - apply find_some in Ef as [Hin Hm]. apply list_elem_of_In, Hstar in Hin
      as (i & key & m & Hl & ->).
    cbn [t_from t_matcher t_to] in *.
    apply andb_true_iff in Hm as [_ Hm].
    destruct seq as [|v seq].
    + cbn [foldl fst]. unfold FSA_in_final.
      cbn [current_state final_states set_current]. rewrite Hf0. split.
      * intros _. exists u, key, m. split_and!; [done| |done].
        by eapply list_elem_of_lookup_2.
      * intros _. apply bool_decide_eq_true, elem_of_seq.
        apply lookup_lt_Some in Hl. lia.
    + cbn [foldl fst snd].
      change (read v true ?k ?w0)
        with (FSA_read matches no_operator v true k w0).
      rewrite (Hdead (set_current (Some (S i)) c0) i v) by done.
      pose proof (read_all_stuck matches no_operator true seq
                    (set_current None (set_current (Some (S i)) c0))
                    w eq_refl) as Hst.
      unfold Construction.read_all in Hst. rewrite Hst.
      split; [done|]. by intros (? & ? & ? & [=] & _).
  - pose proof (read_all_stuck matches no_operator true seq
                  (set_current None c0) w eq_refl) as Hst.
    unfold Construction.read_all in Hst. rewrite Hst. split; [done|].
    intros (u' & key & m & [= <- ->] & Hin & Hm). exfalso.
    apply list_elem_of_lookup in Hin as [i Hl].
    eapply find_none in Ef;
      [|apply list_elem_of_In, Hstar; by exists i, key, m].
    cbn [t_from t_matcher] in Ef. rewrite Hm in Ef.
    by rewrite bool_decide_eq_true_2 in Ef.
Qed.

(** X12: the control of an AVM construction. A sequence that it accepts is
    one unit, accepted by the type of some slot of the AVM. In the other
    direction, a unit accepted by the type of a slot, and of no second
    slot, is accepted as a sequence of one: then one transition only
    leaves the initial state for it. *)
Theorem avm_control_accepts {M U W} (matches : M → U → bool)
    (a : AVMConstruction.avm (M:=M)) (w : W) :
  (∀ seq,
     Construction.accepts (H:=AVMConstruction.acceptor matches)
       (AVMConstruction.generate_control a) seq w = true →
     ∃ u key m, seq = [u] ∧ (key, m) ∈ AVMConstruction.avm_types a ∧
                matches m u = true) ∧
  (∀ u i key m,
     AVMConstruction.avm_types a !! i = Some (key, m) →
     matches m u = true →
     (∀ j key' m',
        AVMConstruction.avm_types a !! j = Some (key', m') →
        matches m' u = true → j = i) →
     Construction.accepts (H:=AVMConstruction.acceptor matches)
       (AVMConstruction.generate_control a) [u] w = true).
Proof.
  split.
  - intros seq. apply avm_control_reads.
  - intros u i key m Hi Hm _. apply avm_control_reads.
    exists u, key, m. split_and!; [done| |done].
    by eapply list_elem_of_lookup_2.
Qed.

Lemma avm_control_accepts_witness :
  Construction.accepts
    (H:=AVMConstruction.acceptor (W:=unit) pattern_matches)
    (AVMConstruction.generate_control noun_avm) [12] tt = true.
Proof.
  destruct (avm_control_accepts (W:=unit) pattern_matches noun_avm tt)
    as [_ Hacc].
  apply (Hacc 12 0 "head" (category_matcher "NOUN")); [done|done|].
  by intros [|j] key' m' Hj _.
Defined.

(** X13: what follows a nested pattern in a pattern is never read: the
    collection of the values returns with the result for the nested
    pattern, so that the keys after it are not required of the unit and
    their variables are not collected. *)
Theorem nested_pattern_ends_collection before key sub after after' data
    greeks :
  _collect_variable_values (before ++ (key, KDict sub) :: after) data greeks
  = _collect_variable_values (before ++ (key, KDict sub) :: after') data
      greeks.
Proof.
  unfold _collect_variable_values. revert greeks.
  induction before as [|[k v] before IH]; intros greeks.
  - reflexivity.
  - simpl in IH |- *. destruct (contains data k); [|done]. simpl.
    destruct v as [[|c x]|d]; [done| |done].
    case_decide; [|apply IH].
    destruct (subscript data k) as [v|]; [|done].
    destruct (hashable v); [apply IH|done].
Qed.

(** *** [last_check] on patterns and attribute maps of text *)

Lemma collect_plain_exact tmpl items greeks :
  plain_pattern tmpl → plain_items items →
  ∃ ok greeks',
    _collect_variable_values tmpl (KDict items) greeks = Ret (ok, greeks') ∧
    (ok = true ↔
     ∀ key value, (key, value) ∈ tmpl → is_Some (dict_get key items)) ∧
    (∀ x v, greeks_has greeks' x v →
            greeks_has greeks x v ∨
            ∃ key, (key, KStr x) ∈ tmpl ∧ is_variable x ∧
                   dict_get key items = Some (KStr v)).
Proof.
  intros Htmpl Hitems. revert greeks.
  induction Htmpl as [|[key value] tmpl (c & x & Hvalue) _ IH]; intros greeks.
  - exists true, greeks. split_and!; [done| |by left].
    split; [by intros _ ?? ?%elem_of_nil|done].
  - simpl in Hvalue. subst value. rewrite collect_cons_text.
    destruct (contains (KDict items) key) eqn:Hc; simpl.
    2:{ exists false, greeks. split_and!; [done| |by left].
        split; [done|]. intros Hall. exfalso.
        destruct (Hall key (KStr (String c x))) as [v Hv]; [by left|].
        simpl in Hc. apply bool_decide_eq_false in Hc. apply Hc. eauto. }
    simpl in Hc. apply bool_decide_eq_true in Hc as [v0 Hv0].
    destruct (dict_get_plain _ _ _ Hitems Hv0) as [s ->].
    assert (∀ ok,
              (ok = true ↔
               ∀ key' value, (key', value) ∈ tmpl →
                             is_Some (dict_get key' items)) →
              (ok = true ↔
               ∀ key' value, (key', value) ∈ (key, KStr (String c x)) :: tmpl →
                             is_Some (dict_get key' items))) as Hok.
    { intros ok Hiff. rewrite Hiff. split.
      - intros Hall key' value [[= -> ->]|Hin]%elem_of_cons; eauto.
      - intros Hall key' value Hin. eapply Hall. by right. }
    destruct (decide (c = "@"%char)) as [->|Hc].
    + rewrite Hv0. simpl.
      destruct (IH (greeks_add (String "@" x) s greeks))
        as (ok & greeks' & Heq & Hiff & Hsrc).
      exists ok, greeks'. split_and!; [done|by apply Hok|].
      intros x' v' Hhas.
      destruct (Hsrc x' v' Hhas) as [Hadd|(key' & Hin & Hvar & Hget)].
      * apply greeks_add_has in Hadd as [[-> ->]|Hold]; [|by left].
        right. exists key. split_and!; [by left|done|done].
      * right. exists key'. split_and!; [by right|done..].
    + destruct (IH greeks) as (ok & greeks' & Heq & Hiff & Hsrc).
      exists ok, greeks'. split_and!; [done|by apply Hok|].
      intros x' v' Hhas.
      destruct (Hsrc x' v' Hhas) as [Hold|(key' & Hin & Hvar & Hget)];
        [by left|].
      right. exists key'. split_and!; [by right|done..].
Qed.

Section text_patterns.
Context {M Op U : Type}.
Variable pattern : M → list (string * kr).
Variable control_kr : U → kr.

(** The unit at some place has the value [v] under a key that the pattern
    at this place binds to the variable [x]. *)
Definition binds (patterns : list (list (string * kr))) (seq : list U)
    (x v : string) : Prop :=
  ∃ i tmpl m items key,
    patterns !! i = Some tmpl ∧ seq !! i = Some m ∧
    control_kr m = KDict items ∧
    (key, KStr x) ∈ tmpl ∧ is_variable x ∧
    dict_get key items = Some (KStr v).

(** Every unit has every key of the pattern at its place. *)
Definition has_keys (patterns : list (list (string * kr))) (seq : list U)
    : Prop :=
  ∀ i tmpl m items key value,
    patterns !! i = Some tmpl → seq !! i = Some m →
    control_kr m = KDict items →
    (key, value) ∈ tmpl → is_Some (dict_get key items).

Lemma collect_all_exact patterns (seq : list U) greeks :
  Forall plain_pattern patterns →
  Forall (λ m, ∃ items, control_kr m = KDict items ∧ plain_items items) seq →
  ∃ ok greeks',
    NPConstruction.collect_all control_kr patterns seq greeks
    = Ret (ok, greeks') ∧
    (ok = true ↔ has_keys patterns seq) ∧
    (∀ x v, greeks_has greeks' x v →
            greeks_has greeks x v ∨ binds patterns seq x v).
Proof.
  intros Hpat. revert seq greeks.
  induction Hpat as [|tmpl patterns Htmpl _ IH]; intros seq greeks Hseq.
  { exists true, greeks. split_and!; [done| |by left].
    split; [|done]. by intros _ i ??????. }
  destruct Hseq as [|m seq (items & Hm & Hitems) Hseq].
  { exists true, greeks. split_and!; [done| |by left].
    split; [|done]. by intros _ i ???????. }
  simpl. rewrite Hm.
  destruct (collect_plain_exact tmpl items greeks Htmpl Hitems)
    as (ok1 & greeks1 & Heq1 & Hiff1 & Hsrc1).
  rewrite Heq1. destruct ok1.
  - destruct (IH seq greeks1 Hseq) as (ok & greeks' & Heq & Hiff & Hsrc).
    exists ok, greeks'. split_and!; [done|..].
    + rewrite Hiff. split.
      * intros Hall [|i] tmpl' m' items' key value; simpl.
        -- intros [= <-] [= <-] Hm'. rewrite Hm in Hm'.
           injection Hm' as <-. by apply Hiff1.
        -- apply Hall.
      * intros Hall i tmpl' m' items' key value.
        apply (Hall (S i)).
    + intros x v Hhas.
      destruct (Hsrc x v Hhas)
        as [Hold|(i & tmpl' & m' & items' & key & ?)].
      * destruct (Hsrc1 x v Hold) as [?|(key & ? & ? & ?)]; [by left|].
        right. by exists 0, tmpl, m, items, key.
      * right. by exists (S i), tmpl', m', items', key.
  - exists false, greeks1. split_and!; [done|..].
    + split; [done|]. intros Hall. apply Hiff1.
      intros key value Hin. by apply (Hall 0 tmpl m items key value).
    + intros x v Hhas.
      destruct (Hsrc1 x v Hhas) as [?|(key & ? & ? & ?)]; [by left|].
      right. by exists 0, tmpl, m, items, key.
Qed.

Lemma values_all_single (greeks : gmap string (gset string)) :
  forallb (λ xv : string * gset string, bool_decide (size xv.2 ≤ 1))
    (map_to_list greeks) = true ↔
  ∀ x v1 v2, greeks_has greeks x v1 → greeks_has greeks x v2 → v1 = v2.
Proof.
  rewrite forallb_forall. split.
  - intros Hall x v1 v2 (values & Hx & H1) (values' & Hx' & H2).
    rewrite Hx in Hx'. injection Hx' as <-.
    destruct (decide (v1 = v2)) as [|Hne]; [done|].
    pose proof (two_values_size values v1 v2 H1 H2 Hne).
    specialize (Hall (x, values)). rewrite bool_decide_eq_true in Hall.
    simpl in Hall. assert (size values ≤ 1); [|lia]. apply Hall.
    apply (proj1 (list_elem_of_In _ _)). by apply elem_of_map_to_list.
  - intros Hone [x values] Hin%list_elem_of_In%elem_of_map_to_list.
    apply bool_decide_eq_true. simpl.
    destruct (decide (size values ≤ 1)) as [|Hbig]; [done|]. exfalso.
    destruct (set_choose_L values) as [v1 H1].
    { intros ->. rewrite size_empty in Hbig. lia. }
    destruct (set_choose_L (values ∖ {[v1]})) as [v2 H2].
    { intros Hempty. apply Hbig.
      assert (values = {[v1]}) as Hv.
      { apply set_eq. intros y. rewrite elem_of_singleton. split.
        - intros Hy. destruct (decide (y = v1)) as [|Hne]; [done|].
          assert (y ∈ values ∖ {[v1]}) as Hy' by set_solver.
          rewrite Hempty in Hy'. by apply elem_of_empty in Hy'.
        - by intros ->. }
      rewrite Hv. by rewrite size_singleton. }
    assert (v1 = v2); [|set_solver].
    apply (Hone x); exists values; split; [done| |done|]; set_solver.
Qed.

(** X14: [last_check] on a sequence as long as the rule, when the patterns
    bind every key to a text that is not empty and the attribute maps of
    the units hold text: it raises nothing, and it returns [True] exactly
    when every unit has every key of its pattern and no variable is
    bound to two different values. *)
Theorem last_check_plain (self : NPConstruction.t (M:=M) (Op:=Op))
    (seq : list U) :
  length seq = length (NPConstruction.matchers self) →
  Forall plain_pattern (pattern <$> NPConstruction.matchers self) →
  Forall (λ m, ∃ items, control_kr m = KDict items ∧ plain_items items) seq →
  ∃ b,
    NPConstruction.last_check pattern control_kr self seq = Ret b ∧
    (b = true ↔
     has_keys (pattern <$> NPConstruction.matchers self) seq ∧
     ∀ x v1 v2,
       binds (pattern <$> NPConstruction.matchers self) seq x v1 →
       binds (pattern <$> NPConstruction.matchers self) seq x v2 →
       v1 = v2).
Proof.
  intros Hlen Hpat Hseq. unfold NPConstruction.last_check.
  rewrite decide_False by (rewrite length_fmap; lia).
  destruct (collect_all_exact _ seq ∅ Hpat Hseq)
    as (ok & greeks & Heq & Hiff & Hsrc).
  destruct (collect_all_plain control_kr _ seq ∅ Hpat Hseq)
    as (ok' & greeks'' & Heq' & _ & Hbind).
  rewrite Heq in Heq'. injection Heq' as <- <-.
  rewrite Heq. destruct ok.
  - eexists. split; [done|]. rewrite values_all_single. split.
    + intros Hone. split; [by apply Hiff|].
      intros x v1 v2 (i & ti & mi & di & ki & ? & ? & ? & ? & ? & ?)
        (j & tj & mj & dj & kj & ? & ? & ? & ? & ? & ?).
      apply (Hone x).
      * by apply (Hbind eq_refl i ti mi di ki).
      * by apply (Hbind eq_refl j tj mj dj kj).
    + intros [_ Hcons] x v1 v2 H1 H2.
      destruct (Hsrc x v1 H1) as [(? & Hl & _)|B1];
        [by rewrite lookup_empty in Hl|].
      destruct (Hsrc x v2 H2) as [(? & Hl & _)|B2];
        [by rewrite lookup_empty in Hl|].
      by apply (Hcons x).
  - exists false. split; [done|]. split; [done|].
    intros [Hkeys _]. by apply Hiff.
Qed.
End text_patterns.

(** *** The discovery of the arguments of a frame *)


Lemma for_each_raise {A X} (R : exn → Prop)
    (body : A → X → result A) (l : list X) (a : A) e :
  (∀ a x e, body a x = Raise e → R e) →
  for_each body a l = Raise e → R e.
Proof.
  intros Hbody. revert a. induction l as [|x l IH]; intros a; simpl; [done|].
  destruct (body a x) as [a1|e1] eqn:E; [apply IH|].
  intros [= <-]. by eapply Hbody.
Qed.



Section discovery.
Context {M U : Type} `{EqDecision U}.
Variable KRPosMatcher : string → M.
Variable unit_partitions : U → list (list U).
Variable printname : U → string.
Variable deep_cases : list string.
Variable deep_case_to_grammatical_case : string → option string.
Variable supp_dict : string → option M.









End discovery.

Lemma last_check_plain_witness :
  ∃ b,
    NPConstruction.last_check id unit_kr agreement_rule [11; 12] = Ret b ∧
    (b = true ↔
     has_keys unit_kr agreement_patterns [11; 12] ∧
     ∀ x v1 v2,
       binds unit_kr agreement_patterns [11; 12] x v1 →
       binds unit_kr agreement_patterns [11; 12] x v2 →
       v1 = v2).
Proof.
  apply (last_check_plain id unit_kr agreement_rule [11; 12]).
  - reflexivity.
  - repeat constructor; by eexists _, _.
  - repeat constructor; eexists; (split; [reflexivity|]);
      repeat constructor; by eexists.
Defined.

(** *** The control of a frame *)

(** The number of the state reached from state 1 by filling the arguments
    [filled]: every argument adds the power of two of its index. *)
Definition mask (arguments filled : list string) : nat :=
  foldr (λ arg state, 2 ^ VerbConstruction.index arg arguments + state) 0
        filled.

Lemma sum_pow_bits (l : list nat) :
  NoDup l →
  ∀ k, Nat.testbit (foldr (λ i s, 2 ^ i + s) 0 l) k = bool_decide (k ∈ l).
Proof.
  induction l as [|i l IH]; intros Hnd k; simpl.
  - by rewrite Nat.bits_0.
  - apply NoDup_cons in Hnd as [Hi Hnd].
    rewrite Nat.add_nocarry_lxor.
    + rewrite Nat.lxor_spec, Nat.pow2_bits_eqb, IH by done.
      destruct (Nat.eqb_spec i k) as [->|Hne].
      * rewrite bool_decide_eq_false_2 by done.
        by rewrite bool_decide_eq_true_2 by set_solver.
      * simpl. apply bool_decide_ext. set_solver.
    + apply Nat.bits_inj. intros j.
      rewrite Nat.land_spec, Nat.pow2_bits_eqb, Nat.bits_0, IH by done.
      destruct (Nat.eqb_spec i j) as [->|Hne]; [|done].
      by rewrite bool_decide_eq_false_2.
Qed.

Lemma sum_pow_inj (l1 l2 : list nat) :
  NoDup l1 → NoDup l2 →
  foldr (λ i s, 2 ^ i + s) 0 l1 = foldr (λ i s, 2 ^ i + s) 0 l2 →
  ∀ k, k ∈ l1 ↔ k ∈ l2.
Proof.
  intros H1 H2 Heq k.
  pose proof (sum_pow_bits l1 H1 k) as B1.
  pose proof (sum_pow_bits l2 H2 k) as B2.
  rewrite Heq, B2 in B1.
  split; intros Hin.
  - apply (bool_decide_eq_true_2 _) in Hin. rewrite <-B1 in Hin.
    by apply bool_decide_eq_true in Hin.
  - apply (bool_decide_eq_true_2 _) in Hin. rewrite B1 in Hin.
    by apply bool_decide_eq_true in Hin.
Qed.

Lemma index_lt arg (arguments : list string) :
  arg ∈ arguments → VerbConstruction.index arg arguments < length arguments.
Proof.
  induction arguments as [|a arguments IH]; simpl.
  - by intros ?%elem_of_nil.
  - intros Hin. case_decide; [lia|].
    apply elem_of_cons in Hin as [->|Hin]; [done|].
    specialize (IH Hin). lia.
Qed.

Lemma index_lookup arg (arguments : list string) :
  arg ∈ arguments →
  arguments !! VerbConstruction.index arg arguments = Some arg.
Proof.
  induction arguments as [|a arguments IH]; simpl.
  - by intros ?%elem_of_nil.
  - intros Hin. case_decide; [by subst|].
    apply elem_of_cons in Hin as [->|Hin]; [done|]. by apply IH.
Qed.

Lemma index_inj a b (arguments : list string) :
  a ∈ arguments → b ∈ arguments →
  VerbConstruction.index a arguments = VerbConstruction.index b arguments →
  a = b.
Proof.
  intros Ha%index_lookup Hb%index_lookup Heq. rewrite Heq in Ha. congruence.
Qed.

Lemma mask_sum (arguments filled : list string) :
  mask arguments filled
  = foldr (λ i s, 2 ^ i + s) 0
      ((λ arg, VerbConstruction.index arg arguments) <$> filled).
Proof.
  unfold mask. induction filled as [|a filled IH]; simpl; [done|].
  by rewrite IH.
Qed.

Lemma mask_app arguments (l1 l2 : list string) :
  mask arguments (l1 ++ l2) = mask arguments l1 + mask arguments l2.
Proof.
  unfold mask. induction l1 as [|a l1 IH]; simpl; [done|].
  rewrite IH. lia.
Qed.

Lemma mask_perm arguments (l1 l2 : list string) :
  l1 ≡ₚ l2 → mask arguments l1 = mask arguments l2.
Proof. unfold mask. induction 1; simpl; lia. Qed.

Lemma mask_singleton arguments arg :
  mask arguments [arg] = 2 ^ VerbConstruction.index arg arguments.
Proof. unfold mask. simpl. lia. Qed.

Lemma index_NoDup (arguments filled : list string) :
  NoDup filled → (∀ a, a ∈ filled → a ∈ arguments) →
  NoDup ((λ arg, VerbConstruction.index arg arguments) <$> filled).
Proof.
  intros Hnd Hin. apply NoDup_fmap_2_strong; [|done].
  intros a b Ha Hb. apply index_inj; by apply Hin.
Qed.

Lemma mask_inj (arguments l1 l2 : list string) :
  NoDup l1 → NoDup l2 →
  (∀ a, a ∈ l1 → a ∈ arguments) → (∀ a, a ∈ l2 → a ∈ arguments) →
  mask arguments l1 = mask arguments l2 →
  l1 ≡ₚ l2.
Proof.
  intros H1 H2 Hin1 Hin2 Heq. rewrite !mask_sum in Heq.
  pose proof (sum_pow_inj _ _ (index_NoDup arguments l1 H1 Hin1)
                (index_NoDup arguments l2 H2 Hin2) Heq) as Hmem.
  apply NoDup_Permutation; [done..|]. intros a. split; intros Ha.
  - assert (VerbConstruction.index a arguments
            ∈ (λ arg, VerbConstruction.index arg arguments) <$> l2)
      as (b & Hb & Hbin)%list_elem_of_fmap.
    { apply Hmem. apply list_elem_of_fmap. by exists a. }
    apply index_inj in Hb; [by subst|by apply Hin1|by apply Hin2].
  - assert (VerbConstruction.index a arguments
            ∈ (λ arg, VerbConstruction.index arg arguments) <$> l1)
      as (b & Hb & Hbin)%list_elem_of_fmap.
    { apply Hmem. apply list_elem_of_fmap. by exists a. }
    apply index_inj in Hb; [by subst|by apply Hin2|by apply Hin1].
Qed.

Lemma mask_shift a (arguments l : list string) :
  a ∉ l → mask (a :: arguments) l = 2 * mask arguments l.
Proof.
  induction l as [|b l IH]; intros Ha; [done|].
  change (mask (a :: arguments) (b :: l))
    with (2 ^ VerbConstruction.index b (a :: arguments)
          + mask (a :: arguments) l).
  change (mask arguments (b :: l))
    with (2 ^ VerbConstruction.index b arguments + mask arguments l).
  rewrite IH by set_solver. cbn [VerbConstruction.index].
  rewrite decide_False by set_solver.
  rewrite Nat.pow_succ_r'. lia.
Qed.

Lemma mask_all (arguments : list string) :
  NoDup arguments → 1 + mask arguments arguments = 2 ^ length arguments.
Proof.
  induction arguments as [|a arguments IH]; [done|].
  intros [Ha Hnd]%NoDup_cons.
  change (mask (a :: arguments) (a :: arguments))
    with (2 ^ VerbConstruction.index a (a :: arguments)
          + mask (a :: arguments) arguments).
  rewrite mask_shift by done. cbn [VerbConstruction.index length].
  rewrite decide_True by done. rewrite Nat.pow_succ_r'.
  specialize (IH Hnd). simpl. lia.
Qed.

Section frame_control.
Context {M O U W : Type}.
Variable matches : M → U → bool.
Variable operate : O → U → W → W.
Variable KRPosMatcher : string → M.
Variable ExpandOperator : O.
Variable FillArgumentOperator : string → O.
Variable ms : list (string * M).

(** A transition of the control of a frame: the first one, on the verb,
    or the filling of one more argument. *)
Definition frame_transition (t : transition (M:=M) (O:=O)) : Prop :=
  t = Transition (KRPosMatcher "VERB") [ExpandOperator] 0 1 ∨
  ∃ filled arg matcher,
    NoDup (filled ++ [arg]) ∧ (∀ a, a ∈ filled ++ [arg] → a ∈ ms.*1) ∧
    (arg, matcher) ∈ ms ∧
    t = Transition matcher [FillArgumentOperator arg]
          (1 + mask ms.*1 filled) (1 + mask ms.*1 (filled ++ [arg])).

Lemma add_path_transitions path filled (c : FSA (M:=M) (O:=O)) :
  NoDup (filled ++ path) → (∀ a, a ∈ filled ++ path → a ∈ ms.*1) →
  Forall frame_transition (transitions c) →
  let c' := VerbConstruction.add_path FillArgumentOperator ms ms.*1 path
              (1 + mask ms.*1 filled) c in
  init_state c' = init_state c ∧ final_states c' = final_states c ∧
  Forall frame_transition (transitions c').
Proof.
  revert filled c. induction path as [|arg path IH]; intros filled c Hnd Hin Hc.
  { by split_and!. }
  cbn [VerbConstruction.add_path]. cbv zeta.
  destruct (list_find (λ kv, kv.1 = arg) ms) as [[i [k matcher]]|] eqn:Ef;
    [|by split_and!].
  apply list_find_Some in Ef as (Hl & Hk & _). simpl in Hk. subst k.
  apply list_elem_of_lookup_2 in Hl.
  assert (NoDup ((filled ++ [arg]) ++ path)) as Hnd'
    by (by rewrite <-app_assoc).
  assert (∀ a, a ∈ (filled ++ [arg]) ++ path → a ∈ ms.*1) as Hin'
    by (intros a; rewrite <-app_assoc; apply Hin).
  assert (1 + mask ms.*1 filled + 2 ^ VerbConstruction.index arg ms.*1
          = 1 + mask ms.*1 (filled ++ [arg])) as Hstate.
  { rewrite mask_app. unfold mask at 3. simpl. lia. }
  rewrite Hstate.
  destruct (IH (filled ++ [arg])
              (add_transition matcher [FillArgumentOperator arg]
                 (1 + mask ms.*1 filled) (1 + mask ms.*1 (filled ++ [arg]))
                 c) Hnd' Hin') as (Hi & Hf & Ht).
  - cbn [transitions add_transition]. apply Forall_app. split; [done|].
    apply Forall_singleton. right. exists filled, arg, matcher.
    split_and!; [|intros a Ha; apply Hin'; set_solver|done..].
    apply NoDup_app in Hnd' as [? _]. done.
  - cbv zeta in Hi, Hf, Ht. by split_and!.
Qed.

Lemma generate_control_fields_frame :
  NoDup ms.*1 →
  let c := VerbConstruction.generate_control KRPosMatcher ExpandOperator
             FillArgumentOperator ms in
  init_state c = Some 0 ∧ final_states c = [2 ^ length ms.*1] ∧
  Forall frame_transition (transitions c).
Proof.
  intros Hnd. unfold VerbConstruction.generate_control. cbv zeta.
  set (c1 := foldl (λ c i, add_state i false false c)
               (add_state 0 true false empty_FSA)
               (seq 1 (2 ^ length ms.*1 - 1))).
  assert (init_state c1 = Some 0 ∧ final_states c1 = [] ∧
          transitions c1 = []) as (Hi1 & Hf1 & Ht1).
  { unfold c1. generalize (seq 1 (2 ^ length ms.*1 - 1)). intros l.
    induction l as [|i l IH] using rev_ind; [done|].
    rewrite foldl_app. simpl. by destruct IH as (-> & -> & ->). }
  set (c2 := add_transition (KRPosMatcher "VERB") [ExpandOperator] 0 1
               (add_state (2 ^ length ms.*1) false true c1)).
  assert (init_state c2 = Some 0 ∧ final_states c2 = [2 ^ length ms.*1] ∧
          Forall frame_transition (transitions c2)) as Hc2.
  { unfold c2. simpl. rewrite Hi1, Hf1, Ht1. split_and!; [done..|].
    apply Forall_singleton. by left. }
  clearbody c2. clear c1 Hi1 Hf1 Ht1.
  assert (∀ path, path ∈ permutations ms.*1 (length ms.*1) →
                  NoDup path ∧ ∀ a, a ∈ path → a ∈ ms.*1) as Hperm.
  { intros path [Hlen Hsub]%permutations_elem.
    apply submseteq_length_Permutation in Hsub; [|lia].
    split; [by rewrite Hsub|]. intros a. by rewrite Hsub. }
  revert Hperm. generalize (permutations ms.*1 (length ms.*1)).
  intros paths. revert c2 Hc2.
  induction paths as [|path paths IH]; intros c2 Hc2 Hperm; [done|].
  simpl. apply IH.
  - destruct Hc2 as (Hi & Hf & Ht).
    destruct (Hperm path) as [Hnd' Hin']; [by left|].
    destruct (add_path_transitions path [] c2) as (Hi' & Hf' & Ht');
      [done..|].
    cbv zeta in Hi', Hf', Ht'. unfold mask in Hi', Hf', Ht'.
    simpl in Hi', Hf', Ht'. by rewrite Hi', Hf'.
  - intros p Hp. apply Hperm. by right.
Qed.

Lemma read_all_fields dry_run (seq : list U) (k : FSA (M:=M) (O:=O)) (w : W) :
  transitions
    (Construction.read_all (H:=FSA_Automaton matches operate)
       dry_run seq k w).1 = transitions k ∧
  final_states
    (Construction.read_all (H:=FSA_Automaton matches operate)
       dry_run seq k w).1 = final_states k.
Proof.
  pose proof (read_all_reset matches operate dry_run seq k w) as Hr.
  split.
  - by apply (f_equal transitions) in Hr.
  - by apply (f_equal final_states) in Hr.
Qed.

Lemma read_all_cons (u : U) (seq : list U) (k : FSA (M:=M) (O:=O)) (w : W) :
  Construction.read_all (H:=FSA_Automaton matches operate)
    true (u :: seq) k w
  = Construction.read_all (H:=FSA_Automaton matches operate) true seq
      (FSA_read matches operate u true k w).1 w.
Proof.
  unfold Construction.read_all. cbn [foldl fst snd].
  change (read u true k w) with (FSA_read matches operate u true k w).
  pose proof (FSA_read_dry_run matches operate u k w) as Hw.
  destruct (FSA_read matches operate u true k w) as [k1 w1].
  simpl in Hw. by subst w1.
Qed.

Lemma frame_run (units : list U) (k : FSA (M:=M) (O:=O)) filled (w : W) q :
  Forall frame_transition (transitions k) →
  current_state k = Some (1 + mask ms.*1 filled) →
  NoDup filled → (∀ a, a ∈ filled → a ∈ ms.*1) →
  current_state
    (Construction.read_all (H:=FSA_Automaton matches operate)
       true units k w).1 = Some q →
  ∃ more,
    q = 1 + mask ms.*1 (filled ++ more) ∧
    NoDup (filled ++ more) ∧ (∀ a, a ∈ filled ++ more → a ∈ ms.*1) ∧
    Forall2 (λ arg u, ∃ matcher, (arg, matcher) ∈ ms ∧ matches matcher u = true)
      more units.
Proof.
  revert k filled.
  induction units as [|u units IH]; intros k filled Hgood Hcur Hnd Hin.
  - unfold Construction.read_all. simpl. rewrite Hcur. intros [= <-].
    exists []. rewrite app_nil_r. by split_and!.
  - rewrite read_all_cons. unfold FSA_read. rewrite Hcur.
    destruct (List.find _ (transitions k)) as [t|] eqn:Ef.
    2:{ cbn [fst]. rewrite read_all_stuck by done. done. }
    apply find_some in Ef as [Ht Hm]. apply andb_true_iff in Hm as [Hfrom Hm].
    apply bool_decide_eq_true in Hfrom.
    rewrite Forall_forall in Hgood.
    destruct (Hgood t (proj2 (list_elem_of_In _ _) Ht))
      as [->|(filled' & arg & matcher & Hnd' & Hin' & Hms & ->)].
    { simpl in Hfrom. lia. }
    cbn [t_from t_to t_matcher fst] in *.
    assert (filled' ≡ₚ filled) as Hp.
    { apply (mask_inj ms.*1); [|done| |done|lia].
      - by apply NoDup_app in Hnd' as [? _].
      - intros a Ha. apply Hin'. set_solver. }
    assert (NoDup (filled ++ [arg])) as Hnd1 by (by rewrite <-Hp).
    assert (∀ a, a ∈ filled ++ [arg] → a ∈ ms.*1) as Hin1
      by (intros a; rewrite <-Hp; apply Hin').
    assert (mask ms.*1 (filled' ++ [arg]) = mask ms.*1 (filled ++ [arg]))
      as Hmask.
    { rewrite !mask_app. lia. }
    rewrite Hmask. intros Hq.
    destruct (IH (set_current (Some (1 + mask ms.*1 (filled ++ [arg]))) k)
                (filled ++ [arg])) as (more & -> & Hnd2 & Hin2 & HF);
      [by apply Forall_forall|done..|].
    exists (arg :: more). rewrite <-app_assoc in Hnd2, Hin2 |- *.
    split_and!; [done..|]. constructor; [|done]. by exists matcher.
Qed.

(** The control accepts only a verb followed by one unit for every
    argument. *)
Lemma frame_control_sound (seq : list U) (w : W) :
  NoDup ms.*1 →
  Construction.accepts
    (H:=VerbConstruction.control_automaton matches operate)
    (VerbConstruction.generate_control KRPosMatcher ExpandOperator
       FillArgumentOperator ms) seq w = true →
  ∃ verb units path,
    seq = verb :: units ∧
    matches (KRPosMatcher "VERB") verb = true ∧
    path ≡ₚ ms.*1 ∧
    Forall2 (λ arg u, ∃ matcher, (arg, matcher) ∈ ms ∧ matches matcher u = true)
      path units.
Proof.
  intros Hnd. unfold Construction.accepts.
  destruct (generate_control_fields_frame Hnd) as (Hi & Hf & Ht).
  cbv zeta in Hi, Hf, Ht.
  set (c := VerbConstruction.generate_control _ _ _ _) in *.
  intros Hacc.
  change (FSA_in_final
            (Construction.read_all (H:=FSA_Automaton matches operate)
               true seq (FSA_reset c) w).1 = true) in Hacc.
  revert Hacc. unfold FSA_in_final.
  destruct (read_all_fields true seq (FSA_reset c) w) as [_ ->].
  cbn [FSA_reset set_current final_states]. rewrite Hf.
  destruct (current_state _) as [q|] eqn:Hq; [|done].
  intros ->%bool_decide_eq_true%list_elem_of_singleton.
  destruct seq as [|verb units].
  { unfold Construction.read_all, FSA_reset in Hq. simpl in Hq.
    rewrite Hi in Hq. injection Hq as Hq.
    pose proof (Nat.pow_nonzero 2 (length ms.*1)). lia. }
  rewrite read_all_cons in Hq. unfold FSA_read at 1 in Hq.
  cbn [FSA_reset set_current current_state transitions] in Hq.
  rewrite Hi in Hq.
  destruct (List.find _ (transitions c)) as [t|] eqn:Ef.
  2:{ cbn [fst] in Hq. by rewrite read_all_stuck in Hq. }
  apply find_some in Ef as [Hin Hm]. apply andb_true_iff in Hm as [Hfrom Hm].
  apply bool_decide_eq_true in Hfrom.
  rewrite Forall_forall in Ht.
  destruct (Ht t (proj2 (list_elem_of_In _ _) Hin))
    as [->|(filled' & arg & matcher & _ & _ & _ & ->)];
    [|simpl in Hfrom; lia].
  cbn [fst t_to t_matcher] in *.
  destruct (frame_run units
              (set_current (Some 1) (set_current (Some 0) c)) [] w _
              ltac:(by apply Forall_forall) eq_refl (NoDup_nil_2)
              ltac:(by intros ? ?%elem_of_nil) Hq)
    as (more & Hmore & Hnd' & Hin' & HF).
  simpl in Hmore, Hnd', Hin'.
  exists verb, units, more. split_and!; [done..| |done].
  apply (mask_inj ms.*1); [done..| |].
  - done.
  - pose proof (mask_all ms.*1 Hnd). lia.
Qed.

(** The matcher of an argument. *)
Lemma list_find_key arg matcher :
  NoDup ms.*1 → (arg, matcher) ∈ ms →
  ∃ i, list_find (λ kv : string * M, kv.1 = arg) ms = Some (i, (arg, matcher)).
Proof.
  intros Hnd Hin.
  destruct (list_find (λ kv : string * M, kv.1 = arg) ms)
    as [[i [k m]]|] eqn:Ef.
  - apply list_find_Some in Ef as (Hl & Hk & _). simpl in Hk. subst k.
    exists i. do 3 f_equal.
    apply list_elem_of_lookup_2 in Hl.
    apply list_elem_of_lookup in Hin as [j Hj].
    apply list_elem_of_lookup in Hl as [i' Hi'].
    assert (i' = j) as ->.
    { apply (NoDup_lookup ms.*1 i' j arg); [done|..];
        rewrite list_lookup_fmap; [by rewrite Hi'|by rewrite Hj]. }
    congruence.
  - apply list_find_None in Ef. rewrite Forall_forall in Ef.
    by destruct (Ef _ Hin).
Qed.

Lemma add_path_keeps path state (c : FSA (M:=M) (O:=O)) t :
  t ∈ transitions c →
  t ∈ transitions
        (VerbConstruction.add_path FillArgumentOperator ms ms.*1 path state c).
Proof.
  revert state c. induction path as [|arg path IH]; intros state c Hin; [done|].
  cbn [VerbConstruction.add_path]. cbv zeta.
  destruct (list_find _ ms) as [[i [k matcher]]|]; [|done].
  apply IH. cbn [transitions add_transition]. set_solver.
Qed.

Lemma add_path_adds filled arg matcher rest (c : FSA (M:=M) (O:=O)) :
  NoDup ms.*1 → (arg, matcher) ∈ ms →
  (∀ a, a ∈ filled → a ∈ ms.*1) →
  Transition matcher [FillArgumentOperator arg]
    (1 + mask ms.*1 filled) (1 + mask ms.*1 (filled ++ [arg]))
  ∈ transitions
      (VerbConstruction.add_path FillArgumentOperator ms ms.*1
         (filled ++ arg :: rest) 1 c).
Proof.
  intros Hnd Hin Hfilled.
  assert (∀ done todo (c0 : FSA (M:=M) (O:=O)),
            (∀ a, a ∈ todo → a ∈ ms.*1) →
            Transition matcher [FillArgumentOperator arg]
              (1 + mask ms.*1 (done ++ todo))
              (1 + mask ms.*1 ((done ++ todo) ++ [arg]))
            ∈ transitions
                (VerbConstruction.add_path FillArgumentOperator ms ms.*1
                   (todo ++ arg :: rest) (1 + mask ms.*1 done) c0)) as Hgen.
  { intros done todo. revert done.
    induction todo as [|a todo IH]; intros done c0 Htodo.
    - rewrite app_nil_r. cbn [app VerbConstruction.add_path]. cbv zeta.
      destruct (list_find_key arg matcher Hnd Hin) as [i ->].
      apply add_path_keeps. cbn [transitions add_transition].
      apply elem_of_app. right. apply list_elem_of_singleton.
      f_equal. rewrite mask_app, mask_singleton. lia.
    - cbn [app VerbConstruction.add_path]. cbv zeta.
      assert (a ∈ ms.*1) as Ha by (apply Htodo; by left).
      apply list_elem_of_fmap in Ha as ([k m] & -> & Hk). cbn [fst] in *.
      destruct (list_find_key k m Hnd Hk) as [i ->].
      replace (1 + mask ms.*1 done + 2 ^ VerbConstruction.index k ms.*1)
        with (1 + mask ms.*1 (done ++ [k]))
        by (rewrite mask_app, mask_singleton; lia).
      replace (done ++ k :: todo) with ((done ++ [k]) ++ todo)
        by (by rewrite <-app_assoc).
      apply IH. intros b Hb. apply Htodo. by right. }
  specialize (Hgen [] filled c Hfilled). by simpl in Hgen.
Qed.

Lemma generate_control_has_transitions :
  NoDup ms.*1 →
  let c := VerbConstruction.generate_control KRPosMatcher ExpandOperator
             FillArgumentOperator ms in
  Transition (KRPosMatcher "VERB") [ExpandOperator] 0 1 ∈ transitions c ∧
  ∀ filled arg matcher rest,
    filled ++ arg :: rest ≡ₚ ms.*1 → (arg, matcher) ∈ ms →
    Transition matcher [FillArgumentOperator arg]
      (1 + mask ms.*1 filled) (1 + mask ms.*1 (filled ++ [arg]))
    ∈ transitions c.
Proof.
  intros Hnd. unfold VerbConstruction.generate_control. cbv zeta.
  set (c2 := add_transition (KRPosMatcher "VERB") [ExpandOperator] 0 1 _).
  assert (Transition (KRPosMatcher "VERB") [ExpandOperator] 0 1
          ∈ transitions c2) as Hc2.
  { unfold c2. cbn [transitions add_transition]. set_solver. }
  clearbody c2.
  assert (∀ paths (c0 : FSA (M:=M) (O:=O)) t,
            t ∈ transitions c0 →
            t ∈ transitions
                  (foldl (λ c path,
                            VerbConstruction.add_path FillArgumentOperator ms
                              ms.*1 path 1 c) c0 paths)) as Hkeep.
  { intros paths. induction paths as [|p paths IH]; intros c0 t Ht; [done|].
    simpl. apply IH. by apply add_path_keeps. }
  split; [by apply Hkeep|].
  intros filled arg matcher rest Hperm Hin.
  assert (filled ++ arg :: rest ∈ permutations ms.*1 (length ms.*1)) as Hp.
  { rewrite <-(Permutation_length Hperm).
    apply permutations_complete. by rewrite Hperm. }
  revert Hp. generalize (permutations ms.*1 (length ms.*1)). intros paths.
  revert c2 Hc2. induction paths as [|p paths IH]; intros c2 Hc2 Hp.
  { by apply elem_of_nil in Hp. }
  simpl. apply elem_of_cons in Hp as [<-|Hp].
  - apply Hkeep. apply add_path_adds; [done..|].
    intros a Ha. rewrite <-Hperm. set_solver.
  - apply IH; [by apply add_path_keeps|done].
Qed.

Lemma frame_run_complete (units : list U) path (k : FSA (M:=M) (O:=O))
    filled (w : W) :
  Forall frame_transition (transitions k) →
  (∀ filled arg matcher rest,
     filled ++ arg :: rest ≡ₚ ms.*1 → (arg, matcher) ∈ ms →
     Transition matcher [FillArgumentOperator arg]
       (1 + mask ms.*1 filled) (1 + mask ms.*1 (filled ++ [arg]))
     ∈ transitions k) →
  (∀ u a m b m',
     u ∈ units → (a, m) ∈ ms → (b, m') ∈ ms →
     matches m u = true → matches m' u = true → a = b) →
  current_state k = Some (1 + mask ms.*1 filled) →
  filled ++ path ≡ₚ ms.*1 →
  Forall2 (λ arg u, ∃ matcher, (arg, matcher) ∈ ms ∧ matches matcher u = true)
    path units →
  current_state
    (Construction.read_all (H:=FSA_Automaton matches operate)
       true units k w).1 = Some (1 + mask ms.*1 (filled ++ path)).
Proof.
  intros Hgood Hall Hex Hcur Hperm HF. revert k filled Hgood Hall Hcur Hperm.
  induction HF as [|arg u path units (matcher & Hms & Hmu) HF IH];
    intros k filled Hgood Hall Hcur Hperm.
  - by rewrite app_nil_r.
  - rewrite read_all_cons. unfold FSA_read. rewrite Hcur.
    destruct (List.find _ (transitions k)) as [t|] eqn:Ef.
    2:{ exfalso. eapply find_none in Ef;
          [|apply list_elem_of_In; by apply (Hall filled arg matcher path)].
        cbn [t_from t_matcher] in Ef. rewrite Hmu in Ef.
        by rewrite bool_decide_eq_true_2 in Ef. }
    apply find_some in Ef as [Ht Hm]. apply andb_true_iff in Hm as [Hfrom Hm].
    apply bool_decide_eq_true in Hfrom.
    pose proof Hgood as Hgood'. rewrite Forall_forall in Hgood'.
    destruct (Hgood' t (proj2 (list_elem_of_In _ _) Ht))
      as [->|(filled' & arg' & matcher' & Hnd' & Hin' & Hms' & ->)].
    { simpl in Hfrom. lia. }
    cbn [t_from t_to t_matcher fst] in *.
    assert (arg' = arg) as ->.
    { apply (Hex u arg' matcher' arg matcher); [by left|done..]. }
    assert (mask ms.*1 (filled' ++ [arg]) = mask ms.*1 (filled ++ [arg]))
      as -> by (rewrite !mask_app; lia).
    replace (filled ++ arg :: path) with ((filled ++ [arg]) ++ path)
      by (by rewrite <-app_assoc).
    apply IH; [|done..|by rewrite <-app_assoc].
    intros u' a m b m' Hu'. apply Hex. by right.
Qed.

(** X16: what the control of a frame accepts, for matchers with different
    argument names. It accepts only the sequences made of a verb and then
    one unit for every argument of the frame, the units taken in some
    order of the arguments and each accepted by the matcher of its
    argument. It accepts every such sequence when no unit of the sequence
    is accepted by the matchers of two arguments. *)
Theorem frame_control_accepts (seq : list U) (w : W) :
  NoDup ms.*1 →
  (Construction.accepts
     (H:=VerbConstruction.control_automaton matches operate)
     (VerbConstruction.generate_control KRPosMatcher ExpandOperator
        FillArgumentOperator ms) seq w = true →
   ∃ verb units path,
     seq = verb :: units ∧
     matches (KRPosMatcher "VERB") verb = true ∧
     path ≡ₚ ms.*1 ∧
     Forall2 (λ arg u,
                ∃ matcher, (arg, matcher) ∈ ms ∧ matches matcher u = true)
       path units) ∧
  ((∀ u a m b m',
      u ∈ seq → (a, m) ∈ ms → (b, m') ∈ ms →
      matches m u = true → matches m' u = true → a = b) →
   (∃ verb units path,
      seq = verb :: units ∧
      matches (KRPosMatcher "VERB") verb = true ∧
      path ≡ₚ ms.*1 ∧
      Forall2 (λ arg u,
                 ∃ matcher, (arg, matcher) ∈ ms ∧ matches matcher u = true)
        path units) →
   Construction.accepts
     (H:=VerbConstruction.control_automaton matches operate)
     (VerbConstruction.generate_control KRPosMatcher ExpandOperator
        FillArgumentOperator ms) seq w = true).
Proof.
  intros Hnd. split; [by apply frame_control_sound|].
  intros Hex (verb & units & path & -> & Hverb & Hperm & HF).
  unfold Construction.accepts.
  destruct (generate_control_fields_frame Hnd) as (Hi & Hf & Ht).
  destruct (generate_control_has_transitions Hnd) as [Hfirst Hall].
  cbv zeta in Hi, Hf, Ht, Hfirst, Hall.
  set (c := VerbConstruction.generate_control _ _ _ _) in *.
  change (FSA_in_final
            (Construction.read_all (H:=FSA_Automaton matches operate)
               true (verb :: units) (FSA_reset c) w).1 = true).
  unfold FSA_in_final.
  destruct (read_all_fields true (verb :: units) (FSA_reset c) w) as [_ ->].
  cbn [FSA_reset set_current final_states]. rewrite Hf.
  rewrite read_all_cons. unfold FSA_read at 1.
  cbn [FSA_reset set_current current_state transitions]. rewrite Hi.
  destruct (List.find _ (transitions c)) as [t|] eqn:Ef.
  2:{ exfalso. eapply find_none in Ef; [|apply list_elem_of_In, Hfirst].
      cbn [t_from t_matcher] in Ef. rewrite Hverb in Ef.
      by rewrite bool_decide_eq_true_2 in Ef. }
  apply find_some in Ef as [Hin Hm]. apply andb_true_iff in Hm as [Hfrom Hm].
  apply bool_decide_eq_true in Hfrom.
  pose proof Ht as Ht'. rewrite Forall_forall in Ht'.
  destruct (Ht' t (proj2 (list_elem_of_In _ _) Hin))
    as [->|(filled' & arg & matcher & _ & _ & _ & ->)];
    [|simpl in Hfrom; lia].
  cbn [fst t_to].
  rewrite (frame_run_complete units path
             (set_current (Some 1) (FSA_reset c)) [] w);
    [|done|done| |done|done|done].
  - apply bool_decide_eq_true, list_elem_of_singleton. simpl.
    pose proof (mask_all ms.*1 Hnd) as Hall'.
    rewrite (mask_perm ms.*1 path ms.*1 Hperm). simpl in *. lia.
  - intros u a m b m' Hu. apply Hex. by right.
Qed.
End frame_control.

Lemma frame_control_accepts_witness :
  (∃ verb units path,
     [20; 13; 12] = verb :: units ∧
     tag_matches "VERB" verb = true ∧
     path ≡ₚ ["AGT"; "PAT"] ∧
     Forall2 (λ arg u,
                ∃ matcher,
                  (arg, matcher) ∈ [("AGT", "NOUN<CAS<NOM>>");
                                    ("PAT", "NOUN<CAS<ACC>>")] ∧
                  tag_matches matcher u = true)
       path units) ∧
  Construction.accepts
    (H:=VerbConstruction.control_automaton tag_matches log_operator)
    (VerbConstruction.generate_control (λ text, text) ExpandOperator
       FillArgumentOperator
       [("AGT", "NOUN<CAS<NOM>>"); ("PAT", "NOUN<CAS<ACC>>")])
    [20; 12; 13] [] = true.
Proof.
  assert (NoDup [("AGT", "NOUN<CAS<NOM>>"); ("PAT", "NOUN<CAS<ACC>>")].*1)
    as Hnd.
  { apply NoDup_cons. split; [set_solver|apply NoDup_singleton]. }
  split.
  - destruct (frame_control_accepts tag_matches log_operator (λ text, text)
                ExpandOperator FillArgumentOperator
                [("AGT", "NOUN<CAS<NOM>>"); ("PAT", "NOUN<CAS<ACC>>")]
                [20; 13; 12] [] Hnd) as [Honly _].
    apply Honly. reflexivity.
  - destruct (frame_control_accepts tag_matches log_operator (λ text, text)
                ExpandOperator FillArgumentOperator
                [("AGT", "NOUN<CAS<NOM>>"); ("PAT", "NOUN<CAS<ACC>>")]
                [20; 12; 13] [] Hnd) as [_ Hall].
    apply Hall.
    + intros u a m b m' Hu Ha Hb.
      repeat match goal with
             | H : _ ∈ _ :: _ |- _ => apply elem_of_cons in H as [?|H]
             | H : _ ∈ [] |- _ => by apply elem_of_nil in H
             end; simplify_eq; try done;
        intros H1 H2; by vm_compute in H1, H2.
    + exists 20, [12; 13], ["AGT"; "PAT"]. split_and!; [done..|].
      apply Forall2_cons. split.
      { exists "NOUN<CAS<NOM>>". split; [set_solver|reflexivity]. }
      apply Forall2_cons. split; [|apply Forall2_nil_2].
      exists "NOUN<CAS<ACC>>". split; [set_solver|reflexivity].
Defined.
End construction.


(** ** spreading_activation.py: the activation loop *)

Module spreading_activation.
Section loop.
Context {U : Type} `{Countable U} {L Msg : Type}.

(** The mutable state shared by the loop, the lexicon and the
    constructions: whatever the lexicon and the constructions keep, and
    the partitions of the units. *)
Record world : Type := {
  lexicon : L;
  partitions : store U;
}.

(** The lexicon collaborator: [len(lexicon.active)], [get_unexpanded()],
    [expand(machine)], [is_deep_case(machine)], [activate()],
    [get_expanded()], and the message of the plugin control of a unit
    (none when the control is no plugin control). *)
Variable active_len : world → nat.
Variable get_unexpanded : world → list U.
Variable expand : U → world → world.
Variable is_deep_case : U → world → bool.
Variable activate : world → world.
Variable get_expanded : world → list U.
Variable message : U → world → option Msg.

(** A construction as the loop uses it. *)
Record construction : Type := {
  check : list U → world → bool * world;
  act : list U → world → option (list U) * world;
}.

(** [lexicon.constructions] *)
Variable constructions : world → list construction.

(** The order in which a set and a dict are iterated is not chosen by the
    program. *)
Variable set_iter : gset U → list U.
Hypothesis set_iter_perm : ∀ s, set_iter s ≡ₚ elements s.
Variable dict_iter : gmap U (gset U) → list (U * gset U).
Hypothesis dict_iter_perm : ∀ d, dict_iter d ≡ₚ map_to_list d.

Record loop_state : Type := {
  w : world;
  unexpanded : list U;
  sentence : gset U;
  linking : gmap U (gset U);
  last_active : nat;
}.

(** *** Step 1: expansion *)

(** The deep cases on the partitions of an expanded unit, but the
    first. *)
Definition note_linkers (machine : U) (w : world)
    (linking : gmap U (gset U)) : gmap U (gset U) :=
  foldl (λ linking partition,
           foldl (λ linking submachine,
                    if is_deep_case submachine w then
                      <[submachine :=
                          {[machine]} ∪ default ∅ (linking !! submachine)]>
                        linking
                    else linking)
                 linking partition)
        linking (drop 1 (partitions w machine)).

Definition expansion (unexpanded : list U) (w : world)
    (linking : gmap U (gset U)) : world * gmap U (gset U) :=
  foldl (λ wl machine,
           let w' := expand machine wl.1 in
           (w', note_linkers machine w' wl.2))
        (w, linking) unexpanded.

(** *** Step 2b: constructions *)

(** The permutations of 1, 2, ... units of the sentence. *)
Definition candidates (sentence : gset U) : list (list U) :=
  flat_map (λ elems, permutations (set_iter sentence) (elems + 1))
           (seq 0 (size sentence)).

Fixpoint find_accepted (c : construction) (cands : list (list U))
    (w : world) : list (list U) * world :=
  match cands with
  | [] => ([], w)
  | seq :: cands' =>
      let (ok, w1) := check c seq w in
      let (accepted, w2) := find_accepted c cands' w1 in
      (if ok then seq :: accepted else accepted, w2)
  end.

(** [accepted.sort(key=len)]: the sort keeps the order of sequences of
    the same length. *)
Fixpoint insert_by_len (seq : list U) (l : list (list U)) : list (list U) :=
  match l with
  | [] => [seq]
  | seq' :: l' =>
      if decide (length seq ≤ length seq') then seq :: seq' :: l'
      else seq' :: insert_by_len seq l'
  end.

Definition sort_by_len (l : list (list U)) : list (list U) :=
  foldr insert_by_len [] l.

(** [sentence.remove(m)] for every unit of the sequence *)
Fixpoint remove_all (seq : list U) (sentence : gset U) : result (gset U) :=
  match seq with
  | [] => Ret sentence
  | m :: seq' =>
      if decide (m ∈ sentence) then remove_all seq' (sentence ∖ {[m]})
      else Raise KeyError
  end.

(** [sentence.add(m)] for every unit returned *)
Definition add_all (c_res : list U) (sentence : gset U) : gset U :=
  foldl (λ sentence m, {[m]} ∪ sentence) sentence c_res.

(** The loop over [accepted], from its end: [tries] is the accepted
    sequences in the order in which they are tried. Besides the sentence
    and the world, the calls of [act] and their results are reported. *)
Fixpoint try_act (c : construction) (tries : list (list U))
    (sentence : gset U) (w : world)
    : result (gset U) * world * list (list U * option (list U)) :=
  match tries with
  | [] => (Ret sentence, w, [])
  | seq :: tries' =>
      let (c_res, w1) := act c seq w in
      match c_res with
      | Some res =>
          (match remove_all seq sentence with
           | Ret sentence' => Ret (add_all res sentence')
           | Raise e => Raise e
           end, w1, [(seq, Some res)])
      | None =>
          let '(r, w2, calls) := try_act c tries' sentence w1 in
          (r, w2, (seq, None) :: calls)
      end
  end.

Definition construction_step (c : construction) (sentence : gset U)
    (w : world)
    : result (gset U) * world * list (list U * option (list U)) :=
  let (accepted, w1) := find_accepted c (candidates sentence) w in
  try_act c (reverse (sort_by_len accepted)) sentence w1.

Fixpoint constructions_step (cs : list construction) (sentence : gset U)
    (w : world) : result (gset U) * world :=
  match cs with
  | [] => (Ret sentence, w)
  | c :: cs' =>
      match construction_step c sentence w with
      | (Ret sentence', w', _) => constructions_step cs' sentence' w'
      | (Raise e, w', _) => (Raise e, w')
      end
  end.

(** *** Step 2: linking *)

Definition _link (linker : U) (machines : gset U) (σ : store U) : store U :=
  foldl (λ σ machine,
           foldl (λ σ partition,
                    foldl (λ σ to_add,
                             if decide (to_add ≠ machine) then
                               machine_append_if_not_there machine to_add
                                 partition σ
                             else σ)
                          (machine_remove machine linker partition σ)
                          (set_iter machines))
                 σ (machine_find machine linker σ))
        σ (set_iter machines).

(** The linkers that are resolved, each with the units passed to
    [_link]. *)
Definition resolved (linking : gmap U (gset U)) : list (U * gset U) :=
  filter (λ lm, 1 < size lm.2) (dict_iter linking).

Definition linking_step (linking : gmap U (gset U)) (σ : store U)
    : store U * gmap U (gset U) :=
  (foldl (λ σ lm, _link lm.1 lm.2 σ) σ (resolved linking),
   foldl (λ linking linker, delete linker linking) linking
         (resolved linking).*1).

(** *** One pass of the body of the loop, up to the test of progress *)
Definition iteration (st : loop_state) : result loop_state :=
  let (w1, linking1) := expansion (unexpanded st) (w st) (linking st) in
  match constructions_step (constructions w1) (sentence st) w1 with
  | (Raise e, _) => Raise e
  | (Ret sentence2, w2) =>
      let (σ3, linking3) := linking_step linking1 (partitions w2) in
      let w4 := activate {| lexicon := lexicon w2; partitions := σ3 |} in
      Ret {| w := w4;
             unexpanded := get_unexpanded w4;
             sentence := sentence2;
             linking := linking3;
             last_active := last_active st |}
  end.

Definition set_last_active (n : nat) (st : loop_state) : loop_state :=
  {| w := w st; unexpanded := unexpanded st; sentence := sentence st;
     linking := linking st; last_active := n |}.

(** The [while] loop; [None] when the fuel does not suffice. *)
Fixpoint loop (fuel : nat) (st : loop_state) : option (result loop_state) :=
  match fuel with
  | 0 => None
  | S fuel' =>
      if decide (0 < length (unexpanded st)) then
        match iteration st with
        | Raise e => Some (Raise e)
        | Ret st' =>
            if decide (active_len (w st') = last_active st) then
              Some (Ret st')
            else loop fuel' (set_last_active (active_len (w st')) st')
        end
      else Some (Ret st)
  end.

Definition initial (w0 : world) : loop_state :=
  {| w := w0;
     unexpanded := get_unexpanded w0;
     sentence := list_to_set (get_unexpanded w0);
     linking := ∅;
     last_active := active_len w0 |}.

(** The messages returned after the loop *)
Definition messages (wd : world) : list Msg :=
  omap (λ m, message m wd) (get_expanded wd).

Definition activation_loop (fuel : nat) (w0 : world)
    : option (result (list Msg)) :=
  match loop fuel (initial w0) with
  | None => None
  | Some (Raise e) => Some (Raise e)
  | Some (Ret st) => Some (Ret (messages (w st)))
  end.

(** *** The construction step *)

Lemma insert_by_len_perm seq l : insert_by_len seq l ≡ₚ seq :: l.
Proof.
  induction l as [|seq' l IH]; simpl; [done|].
  case_decide; [done|]. rewrite IH. apply Permutation_swap.
Qed.

Lemma sort_by_len_perm l : sort_by_len l ≡ₚ l.
Proof.
  induction l as [|seq l IH]; simpl; [done|].
  by rewrite insert_by_len_perm, IH.
Qed.

Lemma insert_by_len_sorted seq l :
  StronglySorted (λ a b, length a ≤ length b) l →
  StronglySorted (λ a b, length a ≤ length b) (insert_by_len seq l).
Proof.
  induction l as [|seq' l IH]; simpl; intros Hs.
  - repeat constructor.
  - apply StronglySorted_cons in Hs as [Hall Hs].
    case_decide as Hle.
    + apply StronglySorted_cons. split.
      * constructor; [done|].
        eapply Forall_impl; [done|]. simpl. intros; lia.
      * by apply StronglySorted_cons.
    + apply StronglySorted_cons. split; [|by apply IH].
      rewrite insert_by_len_perm. constructor; [lia|done].
Qed.

Lemma sort_by_len_sorted l :
  StronglySorted (λ a b, length a ≤ length b) (sort_by_len l).
Proof.
  induction l as [|seq l IH]; simpl; [constructor|].
  by apply insert_by_len_sorted.
Qed.

Lemma reverse_sorted (l : list (list U)) :
  StronglySorted (λ a b, length a ≤ length b) l →
  StronglySorted (λ a b, length b ≤ length a) (reverse l).
Proof.
  induction l as [|seq l IH]; [intros _; constructor|].
  intros [Hall Hs]%StronglySorted_cons. rewrite reverse_cons.
  apply StronglySorted_app_2; [|by apply IH|repeat constructor].
  intros a b Ha ->%list_elem_of_singleton.
  rewrite elem_of_reverse in Ha.
  rewrite Forall_forall in Hall. by apply Hall.
Qed.

Lemma find_accepted_sublist c cands wd :
  (find_accepted c cands wd).1 `sublist_of` cands.
Proof.
  revert wd. induction cands as [|seq cands IH]; intros wd; simpl; [done|].
  destruct (check c seq wd) as [ok w1].
  specialize (IH w1). destruct (find_accepted c cands w1) as [acc w2].
  simpl in *. destruct ok; by constructor.
Qed.

Lemma candidates_elem sentence seq :
  seq ∈ candidates sentence →
  NoDup seq ∧ (∀ m, m ∈ seq → m ∈ sentence) ∧ 0 < length seq.
Proof.
  unfold candidates. intros Hin.
  apply list_elem_of_In, in_flat_map in Hin as (elems & _ & Hp).
  apply list_elem_of_In, permutations_elem in Hp as [Hlen Hsub].
  assert (NoDup (set_iter sentence)) as Hnd
    by (rewrite set_iter_perm; apply NoDup_elements).
  split_and!; [|..|lia].
  - apply submseteq_Permutation in Hsub as [k Hk].
    rewrite Hk in Hnd. by apply NoDup_app in Hnd as [? _].
  - intros m Hm. eapply elem_of_submseteq in Hm; [|done].
    rewrite set_iter_perm in Hm. by apply elem_of_elements in Hm.
Qed.

Lemma remove_all_ok seq (sentence : gset U) :
  NoDup seq → (∀ m, m ∈ seq → m ∈ sentence) →
  remove_all seq sentence = Ret (sentence ∖ list_to_set seq).
Proof.
  revert sentence. induction seq as [|m seq IH]; intros sentence Hnd Hin.
  - simpl. f_equal. set_solver.
  - apply NoDup_cons in Hnd as [Hm Hnd]. simpl.
    rewrite decide_True by (apply Hin; set_solver).
    rewrite IH; [f_equal; set_solver|done|].
    intros m' Hm'. apply elem_of_difference. split; [apply Hin|]; set_solver.
Qed.

Lemma add_all_union c_res (sentence : gset U) :
  add_all c_res sentence = sentence ∪ list_to_set c_res.
Proof.
  unfold add_all. revert sentence.
  induction c_res as [|m c_res IH]; intros sentence; simpl.
  - set_solver.
  - rewrite IH. set_solver.
Qed.

(** The tries stop at the first sequence on which [act] returns a
    result. *)
Lemma try_act_commits c tries sentence wd :
  Forall (λ seq, NoDup seq ∧ ∀ m, m ∈ seq → m ∈ sentence) tries →
  ((try_act c tries sentence wd).2 = (λ seq, (seq, None)) <$> tries ∧
   (try_act c tries sentence wd).1.1 = Ret sentence) ∨
  (∃ pre seq res post,
     tries = pre ++ seq :: post ∧
     (try_act c tries sentence wd).2
     = ((λ seq, (seq, None)) <$> pre) ++ [(seq, Some res)] ∧
     (try_act c tries sentence wd).1.1
     = Ret (sentence ∖ list_to_set seq ∪ list_to_set res)).
Proof.
  revert wd. induction tries as [|seq tries IH]; intros wd Hall; simpl.
  - by left.
  - apply Forall_cons in Hall as [[Hnd Hin] Hall].
    destruct (act c seq wd) as [[res|] w1].
    + right. exists [], seq, res, tries. split_and!; [done..|]. simpl.
      by rewrite remove_all_ok, add_all_union.
    + specialize (IH w1 Hall).
      destruct (try_act c tries sentence w1) as [[r w2] calls]. simpl in *.
      destruct IH as [[-> ->]|(pre & seq' & res & post & -> & -> & ->)].
      * by left.
      * right. by exists (seq :: pre), seq', res, post.
Qed.

(** Every sequence that is tried is made of different units of the
    sentence. *)
Lemma tries_in_sentence c sentence wd :
  Forall (λ seq, NoDup seq ∧ ∀ m, m ∈ seq → m ∈ sentence)
    (reverse (sort_by_len (find_accepted c (candidates sentence) wd).1)).
Proof.
  pose proof (find_accepted_sublist c (candidates sentence) wd) as Hsub.
  apply Forall_forall. intros seq Hseq.
  rewrite reverse_Permutation, sort_by_len_perm in Hseq.
  eapply elem_of_sublist in Hseq; [|done].
  apply candidates_elem in Hseq as (? & ? & _). done.
Qed.

(** The world after [act] has been called on the sequences, one after
    the other. *)
Definition act_all (c : construction) (seqs : list (list U)) (w : world)
    : world :=
  foldl (λ w seq, (act c seq w).2) w seqs.

(** The calls of [act] made by the tries: on every sequence tried without
    success [act] has returned [None], in the world left by the calls
    before it; the sequence committed to is the first on which it returns
    a result. *)
Lemma try_act_acts c tries sentence wd :
  Forall (λ seq, NoDup seq ∧ ∀ m, m ∈ seq → m ∈ sentence) tries →
  ((∀ i seq, tries !! i = Some seq →
             (act c seq (act_all c (take i tries) wd)).1 = None) ∧
   try_act c tries sentence wd
   = (Ret sentence, act_all c tries wd, (λ seq, (seq, None)) <$> tries)) ∨
  (∃ pre seq res post w',
     tries = pre ++ seq :: post ∧
     (∀ i s, pre !! i = Some s →
             (act c s (act_all c (take i pre) wd)).1 = None) ∧
     act c seq (act_all c pre wd) = (Some res, w') ∧
     try_act c tries sentence wd
     = (Ret (sentence ∖ list_to_set seq ∪ list_to_set res), w',
        ((λ seq, (seq, None)) <$> pre) ++ [(seq, Some res)])).
Proof.
  revert wd. induction tries as [|seq tries IH]; intros wd Hall.
  - left. split; [by intros i seq ?|done].
  - apply Forall_cons in Hall as [[Hnd Hin] Hall].
    cbn [try_act]. destruct (act c seq wd) as [[res|] w1] eqn:Hact.
    + right. exists [], seq, res, tries, w1.
      split_and!; [done|by intros i s ?|done|].
      by rewrite remove_all_ok, add_all_union.
    + assert (∀ l, act_all c (seq :: l) wd = act_all c l w1) as Hcons
        by (intros l; unfold act_all; simpl; by rewrite Hact).
      destruct (IH w1 Hall)
        as [[Hnone ->]|(pre & seq' & res & post & w' & -> & Hnone & Hres
                         & ->)].
      * left. split; [|by rewrite Hcons].
        intros [|i] s Hs.
        -- injection Hs as <-. cbn [take act_all foldl]. by rewrite Hact.
        -- cbn [take]. rewrite Hcons. by apply Hnone.
      * right. exists (seq :: pre), seq', res, post, w'.
        split_and!; [done| |by rewrite Hcons|done].
        intros [|i] s Hs.
        -- injection Hs as <-. cbn [take act_all foldl]. by rewrite Hact.
        -- cbn [take]. rewrite Hcons. by apply Hnone.
Qed.

(** C6: for a construction, the accepted sequences are tried from the
    longest to the shortest. [act] is called on them in that order, each
    call in the world left by the call before, until it returns a result,
    and on none after. The sentence is then the old one without the units
    of that sequence and with the units returned, and it is with this
    sentence, and the world left by that call, that the next construction
    is tried. When [act] returns no result for any of the sequences the
    sentence is left as it was. The sentence with which a pass of the
    loop ends is the one left by the last construction. *)
Theorem construction_step_commits c units wd :
  let found := find_accepted c (candidates units) wd in
  let tries := reverse (sort_by_len found.1) in
  tries ≡ₚ found.1 ∧
  StronglySorted (λ a b, length b ≤ length a) tries ∧
  (((∀ i seq, tries !! i = Some seq →
              (act c seq (act_all c (take i tries) found.2)).1 = None) ∧
    construction_step c units wd
    = (Ret units, act_all c tries found.2,
       (λ seq, (seq, None)) <$> tries) ∧
    (∀ cs, constructions_step (c :: cs) units wd
           = constructions_step cs units (act_all c tries found.2))) ∨
   (∃ pre seq res post w',
      tries = pre ++ seq :: post ∧
      (∀ i s, pre !! i = Some s →
              (act c s (act_all c (take i pre) found.2)).1 = None) ∧
      act c seq (act_all c pre found.2) = (Some res, w') ∧
      construction_step c units wd
      = (Ret (units ∖ list_to_set seq ∪ list_to_set res), w',
         ((λ seq, (seq, None)) <$> pre) ++ [(seq, Some res)]) ∧
      (∀ cs, constructions_step (c :: cs) units wd
             = constructions_step cs
                 (units ∖ list_to_set seq ∪ list_to_set res) w'))) ∧
  (∀ st st',
     iteration st = Ret st' →
     (constructions_step
        (constructions (expansion (unexpanded st) (w st) (linking st)).1)
        (sentence st)
        (expansion (unexpanded st) (w st) (linking st)).1).1
     = Ret (sentence st')).
Proof.
  cbv zeta. split_and!.
  - by rewrite reverse_Permutation, sort_by_len_perm.
  - apply reverse_sorted, sort_by_len_sorted.
  - pose proof (tries_in_sentence c units wd) as Hall.
    cbn [constructions_step]. unfold construction_step.
    destruct (find_accepted c (candidates units) wd) as [accepted w1].
    cbn [fst snd] in *.
    destruct (try_act_acts c _ units w1 Hall)
      as [[Hnone Heq]|(pre & seq & res & post & w' & Htries & Hnone & Hres
                        & Heq)].
    + left. by rewrite Heq.
    + right. exists pre, seq, res, post, w'. by rewrite Heq.
  - intros st st'. unfold iteration.
    destruct (expansion (unexpanded st) (w st) (linking st))
      as [w1 linking1]. cbn [fst].
    destruct (constructions_step (constructions w1)
                (sentence st) w1)
      as [[sentence2|e] w2]; [|done].
    destruct (linking_step linking1 (partitions w2)) as [σ3 linking3].
    by intros [= <-].
Qed.


(** *** The linking step *)

(** The partition [p] after the other units of [order] have been put at
    its end, each unless it is there. *)
Definition add_others (m : U) (order : list U) (p : list U) : list U :=
  foldl (λ p to_add,
           if decide (to_add ≠ m) then
             if decide (to_add ∈ p) then p else p ++ [to_add]
           else p)
        p order.

(** What [_link] does to the partitions of one of the units. *)
Definition link_parts (linker m : U) (order : list U) (ps : list (list U))
    : list (list U) :=
  foldl (λ ps i,
           foldl (λ ps to_add,
                    if decide (to_add ≠ m) then add_part_if_absent to_add i ps
                    else ps)
                 (remove_part linker i ps) order)
        ps (find_from 0 linker ps).

Lemma add_others_elem m order p x :
  x ∈ add_others m order p ↔ x ∈ p ∨ (x ∈ order ∧ x ≠ m).
Proof.
  unfold add_others. revert p.
  induction order as [|y order IH]; intros p; simpl.
  - set_solver.
  - rewrite IH. repeat case_decide; set_solver.
Qed.

Lemma add_loop_lookup m i order (ps : list (list U)) j :
  foldl (λ ps to_add,
           if decide (to_add ≠ m) then add_part_if_absent to_add i ps
           else ps) ps order !! j
  = if decide (i = j) then add_others m order <$> ps !! i else ps !! j.
Proof.
  unfold add_others. revert ps.
  induction order as [|y order IH]; intros ps; simpl.
  - case_decide; [|done]. subst. by destruct (ps !! j).
  - rewrite IH. destruct (decide (y ≠ m)) as [Hy|Hy]; [|done].
    unfold add_part_if_absent. rewrite !list_lookup_alter.
    rewrite (decide_True (P:=i = i)) by done.
    destruct (decide (i = j)); [|done]. by destruct (ps !! i).
Qed.

Lemma link_loop_lookup linker m order (l : list nat) (ps : list (list U)) j :
  NoDup l →
  foldl (λ ps i,
           foldl (λ ps to_add,
                    if decide (to_add ≠ m) then add_part_if_absent to_add i ps
                    else ps)
                 (remove_part linker i ps) order)
        ps l !! j
  = if decide (j ∈ l)
    then (λ p, add_others m order (filter (λ x, x ≠ linker) p)) <$> ps !! j
    else ps !! j.
Proof.
  revert ps. induction l as [|i l IH]; intros ps Hnd; simpl.
  - done.
  - apply NoDup_cons in Hnd as [Hi Hnd]. rewrite IH by done.
    rewrite !add_loop_lookup. unfold remove_part.
    rewrite !list_lookup_alter. rewrite (decide_True (P:=i = i)) by done.
    destruct (decide (i = j)) as [->|Hij].
    + rewrite (decide_False (P:=j ∈ l)) by done.
      rewrite (decide_True (P:=j ∈ j :: l)) by set_solver.
      by destruct (ps !! j).
    + destruct (decide (j ∈ l)).
      * rewrite (decide_True (P:=j ∈ i :: l)) by set_solver. done.
      * rewrite (decide_False (P:=j ∈ i :: l)) by set_solver. done.
Qed.

Lemma link_parts_lookup linker m order ps i p :
  ps !! i = Some p →
  link_parts linker m order ps !! i
  = Some (if decide (linker ∈ p)
          then add_others m order (filter (λ x, x ≠ linker) p)
          else p).
Proof.
  intros Hp. unfold link_parts.
  rewrite link_loop_lookup by apply find_from_NoDup. rewrite Hp. simpl.
  destruct (decide (linker ∈ p)) as [Hin|Hin].
  - rewrite decide_True; [done|]. apply find_from_elem. split; [lia|].
    exists p. by rewrite Nat.sub_0_r.
  - rewrite decide_False; [done|].
    intros (_ & q & Hq & Hlq)%find_from_elem.
    rewrite Nat.sub_0_r, Hp in Hq. by injection Hq as ->.
Qed.

Lemma link_machine_store linker m order (σ : store U) u :
  foldl (λ σ partition,
           foldl (λ σ to_add,
                    if decide (to_add ≠ m) then
                      machine_append_if_not_there m to_add partition σ
                    else σ)
                 (machine_remove m linker partition σ) order)
        σ (machine_find m linker σ) u
  = if decide (u = m) then link_parts linker m order (σ m) else σ u.
Proof.
  unfold machine_find, link_parts.
  apply (foldl_local m
           (λ σ partition,
              foldl (λ σ to_add,
                       if decide (to_add ≠ m) then
                         machine_append_if_not_there m to_add partition σ
                       else σ)
                    (machine_remove m linker partition σ) order)
           (λ ps i,
              foldl (λ ps to_add,
                       if decide (to_add ≠ m)
                       then add_part_if_absent to_add i ps else ps)
                    (remove_part linker i ps) order)).
  intros σ' i u'.
  rewrite (foldl_local m
             (λ σ to_add,
                if decide (to_add ≠ m) then
                  machine_append_if_not_there m to_add i σ
                else σ)
             (λ ps to_add,
                if decide (to_add ≠ m)
                then add_part_if_absent to_add i ps else ps)).
  - unfold machine_remove. rewrite fn_lookup_insert.
    case_decide; [done|]. by rewrite fn_lookup_insert_ne.
  - intros σ'' x u''. unfold machine_append_if_not_there.
    case_decide.
    + destruct (decide (u'' = m)) as [->|?].
      * by rewrite fn_lookup_insert.
      * by rewrite fn_lookup_insert_ne.
    + by case_decide; subst.
Qed.

Lemma link_store_list linker order (l : list U) (σ : store U) u :
  NoDup l →
  foldl (λ σ machine,
           foldl (λ σ partition,
                    foldl (λ σ to_add,
                             if decide (to_add ≠ machine) then
                               machine_append_if_not_there machine to_add
                                 partition σ
                             else σ)
                          (machine_remove machine linker partition σ) order)
                 σ (machine_find machine linker σ))
        σ l u
  = if decide (u ∈ l) then link_parts linker u order (σ u) else σ u.
Proof.
  revert σ. induction l as [|m l IH]; intros σ Hnd; simpl.
  - done.
  - apply NoDup_cons in Hnd as [Hm Hnd]. rewrite IH by done.
    rewrite !link_machine_store.
    destruct (decide (u = m)) as [->|Hne].
    + rewrite (decide_False (P:=m ∈ l)) by done.
      by rewrite (decide_True (P:=m ∈ m :: l)) by set_solver.
    + destruct (decide (u ∈ l)).
      * by rewrite (decide_True (P:=u ∈ m :: l)) by set_solver.
      * by rewrite (decide_False (P:=u ∈ m :: l)) by set_solver.
Qed.

Lemma link_store linker machines (σ : store U) u :
  _link linker machines σ u
  = if decide (u ∈ machines)
    then link_parts linker u (set_iter machines) (σ u) else σ u.
Proof.
  unfold _link. rewrite link_store_list
    by (rewrite set_iter_perm; apply NoDup_elements).
  destruct (decide (u ∈ machines)) as [Hin|Hin].
  - rewrite decide_True; [done|].
    rewrite set_iter_perm. by apply elem_of_elements.
  - rewrite decide_False; [done|].
    rewrite set_iter_perm. by rewrite elem_of_elements.
Qed.

Lemma delete_all_lookup (linking : gmap U (gset U)) (ks : list U) k :
  foldl (λ linking linker, delete linker linking) linking ks !! k
  = if decide (k ∈ ks) then None else linking !! k.
Proof.
  revert linking. induction ks as [|k' ks IH]; intros linking; simpl.
  - done.
  - rewrite IH. destruct (decide (k ∈ ks)).
    + by rewrite decide_True by set_solver.
    + destruct (decide (k' = k)) as [->|Hne].
      * rewrite lookup_delete_eq. by rewrite decide_True by set_solver.
      * rewrite lookup_delete_ne by done.
        by rewrite decide_False by set_solver.
Qed.

Lemma resolved_elem linking linker machines :
  (linker, machines) ∈ resolved linking ↔
  linking !! linker = Some machines ∧ 1 < size machines.
Proof.
  unfold resolved. rewrite list_elem_of_filter, dict_iter_perm.
  rewrite elem_of_map_to_list. simpl. tauto.
Qed.

Lemma resolved_NoDup linking : NoDup (resolved linking).*1.
Proof.
  unfold resolved.
  eapply sublist_NoDup; [|apply fmap_sublist, sublist_filter].
  rewrite dict_iter_perm. apply NoDup_fst_map_to_list.
Qed.


(** Expansion only adds holders to the linking map. *)
Definition grows (linking linking' : gmap U (gset U)) : Prop :=
  ∀ linker machines,
    linking !! linker = Some machines →
    ∃ machines', linking' !! linker = Some machines' ∧ machines ⊆ machines'.

Lemma grows_refl linking : grows linking linking.
Proof. intros linker machines Hl. by exists machines. Qed.

Lemma grows_trans l1 l2 l3 : grows l1 l2 → grows l2 l3 → grows l1 l3.
Proof.
  intros H12 H23 linker machines Hl.
  destruct (H12 _ _ Hl) as (m2 & Hl2 & Hs2).
  destruct (H23 _ _ Hl2) as (m3 & Hl3 & Hs3).
  exists m3. split; [done|]. set_solver.
Qed.

Lemma foldl_grows {X} (f : gmap U (gset U) → X → gmap U (gset U)) l linking :
  (∀ acc x, grows acc (f acc x)) → grows linking (foldl f linking l).
Proof.
  intros Hf. revert linking. induction l as [|x l IH]; intros linking.
  - apply grows_refl.
  - simpl. eapply grows_trans; [apply Hf|apply IH].
Qed.

Lemma note_linkers_grows machine wd linking :
  grows linking (note_linkers machine wd linking).
Proof.
  unfold note_linkers. apply foldl_grows. intros acc partition.
  apply foldl_grows. intros acc' submachine.
  destruct (is_deep_case submachine wd); [|apply grows_refl].
  intros linker machines Hl.
  destruct (decide (submachine = linker)) as [->|Hne].
  - rewrite lookup_insert_eq, Hl. eexists. split; [done|]. set_solver.
  - rewrite lookup_insert_ne by done. by exists machines.
Qed.

Lemma expansion_grows unexp wd linking :
  grows linking (expansion unexp wd linking).2.
Proof.
  unfold expansion. revert wd linking.
  induction unexp as [|machine unexp IH]; intros wd linking.
  - apply grows_refl.
  - simpl. eapply grows_trans; [|apply IH]. apply note_linkers_grows.
Qed.

(** C7: in the linking step [_link] is called once for every anchor that
    two or more units hold, with those units, and for no other anchor;
    these anchors leave the linking map and the others stay in it with
    their holders. A call of [_link] takes the anchor out of every
    partition of a holder that has it and puts every other holder into
    that partition: the partition then holds its former units but the
    anchor, and the other holders; other partitions and other units are
    left as they are. An anchor that is in the map when an iteration
    starts keeps its holders through the expansion, and is in the map
    when the iteration ends exactly when fewer than two units hold it by
    then. Within an iteration the linking step works on the linking map
    left by the expansion and on the partitions left by the
    constructions: the partitions that it leaves are those handed to the
    activation, the map that it leaves is the map of the next iteration,
    and a unit that holds none of the anchors resolved keeps its
    partitions. *)
Theorem link_resolution (lk : gmap U (gset U)) (σ : store U) :
  (∀ linker machines,
     (linker, machines) ∈ resolved lk ↔
     lk !! linker = Some machines ∧ 1 < size machines) ∧
  NoDup (resolved lk).*1 ∧
  (linking_step lk σ).1
  = foldl (λ σ lm, _link lm.1 lm.2 σ) σ (resolved lk) ∧
  (∀ linker,
     (linking_step lk σ).2 !! linker
     = match lk !! linker with
       | Some machines =>
           if decide (1 < size machines) then None else Some machines
       | None => None
       end) ∧
  (∀ linker machines m i p,
     m ∈ machines → σ m !! i = Some p →
     (linker ∉ p → _link linker machines σ m !! i = Some p) ∧
     (linker ∈ p →
      ∃ p', _link linker machines σ m !! i = Some p' ∧
            ∀ x, x ∈ p' ↔ (x ∈ p ∧ x ≠ linker) ∨ (x ∈ machines ∧ x ≠ m))) ∧
  (∀ linker machines u, u ∉ machines → _link linker machines σ u = σ u) ∧
  (∀ st st' linker machines,
     iteration st = Ret st' →
     linking st !! linker = Some machines →
     ∃ machines',
       machines ⊆ machines' ∧
       (expansion (unexpanded st) (w st) (linking st)).2
         !! linker = Some machines' ∧
       linking st' !! linker
       = if decide (1 < size machines') then None else Some machines') ∧
  (∀ st st',
     iteration st = Ret st' →
     let expanded := expansion (unexpanded st) (w st) (linking st) in
     let built :=
       constructions_step (constructions expanded.1) (sentence st)
         expanded.1 in
     let linked := linking_step expanded.2 (partitions built.2) in
     w st' = activate {| lexicon := lexicon built.2;
                         partitions := linked.1 |} ∧
     linking st' = linked.2 ∧
     linked.1
     = foldl (λ σ lm, _link lm.1 lm.2 σ) (partitions built.2)
         (resolved expanded.2) ∧
     (∀ u,
        (∀ linker machines,
           expanded.2 !! linker = Some machines → 1 < size machines →
           u ∉ machines) →
        linked.1 u = partitions built.2 u)).
Proof.
  assert (∀ lk' linker,
            (linking_step lk' σ).2 !! linker
            = match lk' !! linker with
              | Some machines =>
                  if decide (1 < size machines) then None else Some machines
              | None => None
              end) as Hstep.
  { intros lk' linker. unfold linking_step. simpl.
    rewrite delete_all_lookup.
    destruct (lk' !! linker) as [machines|] eqn:E.
    - destruct (decide (1 < size machines)) as [Hsz|Hsz].
      + rewrite decide_True; [done|].
        apply list_elem_of_fmap. exists (linker, machines).
        split; [done|]. by apply resolved_elem.
      + rewrite decide_False; [done|].
        intros ([l' m'] & -> & [Hl Hs]%resolved_elem)%list_elem_of_fmap.
        simpl in *. rewrite E in Hl. injection Hl as ->. done.
    - case_decide; done. }
  split_and!.
  - apply resolved_elem.
  - apply resolved_NoDup.
  - done.
  - apply Hstep.
  - intros linker machines m i p Hm Hp.
    rewrite link_store, decide_True by done.
    rewrite (link_parts_lookup _ _ _ _ _ _ Hp). split.
    + intros Hn. by rewrite decide_False.
    + intros Hin. rewrite decide_True by done. eexists. split; [done|].
      intros x. rewrite add_others_elem, list_elem_of_filter.
      rewrite set_iter_perm, elem_of_elements. tauto.
  - intros linker machines u Hu. by rewrite link_store, decide_False.
  - intros st st' linker machines Hit Hl.
    destruct (expansion_grows (unexpanded st) (w st)
                (linking st) _ _ Hl)
      as (machines' & Hl' & Hsub).
    exists machines'. split_and!; [done..|].
    unfold iteration in Hit.
    destruct (expansion (unexpanded st) (w st)
                (linking st)) as [w1 linking1].
    simpl in Hl'.
    destruct (constructions_step (constructions w1) (sentence st) w1)
      as [[sentence2|e] w2]; [|done].
    pose proof (Hstep linking1 linker) as Hs.
    unfold linking_step in *. simpl in *.
    injection Hit as <-. simpl. rewrite delete_all_lookup.
    rewrite delete_all_lookup in Hs. rewrite Hs, Hl'. done.
  - intros st st'. cbv zeta. unfold iteration.
    destruct (expansion (unexpanded st) (w st) (linking st))
      as [w1 linking1]. cbn [fst snd].
    destruct (constructions_step (constructions w1) (sentence st) w1)
      as [[sentence2|e] w2]; [|done]. cbn [fst snd].
    intros [= <-]. split_and!; [done..|].
    intros u Hu. cbn [linking_step fst].
    assert (∀ l (σ0 : store U),
              (∀ lm, lm ∈ l → u ∉ lm.2) →
              foldl (λ σ lm, _link lm.1 lm.2 σ) σ0 l u = σ0 u) as Hkeep.
    { induction l as [|lm l IH]; intros σ0 Hl; [done|]. simpl.
      rewrite IH by (intros; apply Hl; by right).
      rewrite link_store, decide_False; [done|]. apply Hl. by left. }
    apply Hkeep. intros [linker machines] [Hl Hs]%resolved_elem.
    by eapply Hu.
Qed.


(** *** The loop *)

Lemma construction_step_Ret c sentence wd :
  ∃ sentence', (construction_step c sentence wd).1.1 = Ret sentence'.
Proof.
  unfold construction_step.
  pose proof (tries_in_sentence c sentence wd) as Hall.
  destruct (find_accepted c (candidates sentence) wd) as [accepted w1].
  destruct (try_act_commits c _ sentence w1 Hall)
    as [[_ Hr]|(? & ? & ? & ? & _ & _ & Hr)]; eauto.
Qed.

Lemma constructions_step_Ret cs sentence wd :
  ∃ sentence', (constructions_step cs sentence wd).1 = Ret sentence'.
Proof.
  revert sentence wd. induction cs as [|c cs IH]; intros sentence wd; simpl.
  - by exists sentence.
  - destruct (construction_step_Ret c sentence wd) as [sentence' Hs].
    destruct (construction_step c sentence wd) as [[r w'] calls].
    simpl in Hs. subst r. apply IH.
Qed.

(** The removals of the construction step never fail: a pass of the body
    always ends. *)
Lemma iteration_Ret st : ∃ st', iteration st = Ret st'.
Proof.
  unfold iteration.
  destruct (expansion (unexpanded st) (w st) (linking st)) as [w1 linking1].
  destruct (constructions_step_Ret (constructions w1) (sentence st) w1)
    as [sentence2 Hs].
  destruct (constructions_step (constructions w1) (sentence st) w1)
    as [r w2]. simpl in Hs. subst r.
  destruct (linking_step linking1 (partitions w2)). eauto.
Qed.

Lemma loop_terminates_from (N : nat) :
  (∀ st st', iteration st = Ret st' →
             active_len (w st) ≤ active_len (w st')) →
  (∀ wd, active_len wd ≤ N) →
  ∀ fuel st,
    last_active st = active_len (w st) →
    N - last_active st < fuel →
    ∃ st', loop fuel st = Some (Ret st').
Proof.
  intros Hmono Hbound fuel.
  induction fuel as [|fuel IH]; intros st Hinv Hfuel; [lia|]. simpl.
  case_decide; [|eauto].
  destruct (iteration_Ret st) as [st' Hit]. rewrite Hit.
  case_decide as Heq; [eauto|].
  apply IH; [done|]. simpl.
  pose proof (Hmono _ _ Hit). pose proof (Hbound (w st')). lia.
Qed.

(** C1 (amended): the loop stops as soon as one of the two conditions
    holds: before a pass when no unexpanded unit remains, whatever the
    count of active entries did; after a pass when the count of active
    entries is the one before the pass, whether or not unexpanded units
    remain. It goes on to the next test only after a pass that changed the
    count. A pass always ends; and when the count never decreases over a
    pass and never exceeds [N], the loop ends, with a result, within
    [N - count + 1] turns from a state whose recorded count is the
    current one, as the initial state is. *)
Theorem loop_stops_on_either (N : nat) :
  (∀ fuel st, unexpanded st = [] → loop (S fuel) st = Some (Ret st)) ∧
  (∀ st, ∃ st', iteration st = Ret st') ∧
  (∀ fuel st st',
     unexpanded st ≠ [] → iteration st = Ret st' →
     active_len (w st') = last_active st →
     loop (S fuel) st = Some (Ret st')) ∧
  (∀ fuel st st',
     unexpanded st ≠ [] → iteration st = Ret st' →
     active_len (w st') ≠ last_active st →
     loop (S fuel) st
     = loop fuel (set_last_active (active_len (w st')) st')) ∧
  ((∀ st st', iteration st = Ret st' →
              active_len (w st) ≤ active_len (w st')) →
   (∀ wd, active_len wd ≤ N) →
   ∀ w0 fuel,
     N - active_len w0 < fuel →
     ∃ st', loop fuel (initial w0) = Some (Ret st') ∧
            activation_loop fuel w0 = Some (Ret (messages (w st')))).
Proof.
  split_and!.
  - intros fuel st Hu. simpl. rewrite Hu. done.
  - apply iteration_Ret.
  - intros fuel st st' Hu Hit Heq. simpl.
    rewrite decide_True by (destruct (unexpanded st); [done|simpl; lia]).
    rewrite Hit. by rewrite decide_True.
  - intros fuel st st' Hu Hit Hne. simpl.
    rewrite decide_True by (destruct (unexpanded st); [done|simpl; lia]).
    rewrite Hit. by rewrite decide_False.
  - intros Hmono Hbound w0 fuel Hfuel.
    destruct (loop_terminates_from N Hmono Hbound fuel (initial w0))
      as [st' Hst']; [done..|].
    exists st'. split; [done|]. unfold activation_loop. by rewrite Hst'.
Qed.

(** A construction whose [act] never returns a result leaves the sentence
    as it was. *)
Lemma try_act_None c tries sentence wd :
  (∀ seq wd', (act c seq wd').1 = None) →
  (try_act c tries sentence wd).1.1 = Ret sentence.
Proof.
  intros Hnone. revert wd. induction tries as [|seq tries IH]; intros wd;
    simpl; [done|].
  pose proof (Hnone seq wd) as Hn.
  destruct (act c seq wd) as [c_res w1]. simpl in Hn. subst c_res.
  specialize (IH w1). by destruct (try_act c tries sentence w1) as [[??]?].
Qed.

(** *** More on the steps of the loop *)




Lemma permutations_length (l : list U) r :
  Forall (λ p, length p = r) (permutations l r).
Proof.
  apply Forall_forall. intros p Hp. by apply permutations_elem in Hp as [? _].
Qed.

Lemma candidates_from_sorted (l : list U) k n :
  StronglySorted (λ a b : list U, length a ≤ length b)
    (flat_map (λ elems, permutations l (elems + 1)) (seq k n)) ∧
  Forall (λ p, k < length p)
    (flat_map (λ elems, permutations l (elems + 1)) (seq k n)).
Proof.
  revert k. induction n as [|n IH]; intros k; simpl.
  - split; constructor.
  - destruct (IH (S k)) as [Hs Hall].
    pose proof (permutations_length l (k + 1)) as Hlen. split.
    + apply StronglySorted_app_2; [|clear Hs Hall|done].
      * intros a b Ha Hb. rewrite Forall_forall in Hlen, Hall.
        specialize (Hlen a Ha). specialize (Hall b Hb). lia.
      * induction Hlen as [|p ps Hp Hps IHps]; constructor; [done|].
        eapply Forall_impl; [exact Hps|]. simpl. intros; lia.
    + apply Forall_app. split.
      * eapply Forall_impl; [exact Hlen|]. simpl. intros; lia.
      * eapply Forall_impl; [exact Hall|]. simpl. intros; lia.
Qed.

Lemma sublist_sorted (l1 l2 : list (list U)) :
  l1 `sublist_of` l2 →
  StronglySorted (λ a b : list U, length a ≤ length b) l2 →
  StronglySorted (λ a b : list U, length a ≤ length b) l1.
Proof.
  induction 1 as [|x l1 l2 Hsub IH|x l1 l2 Hsub IH];
    intros Hs; [done|..].
  - apply StronglySorted_cons in Hs as [Hall Hs].
    apply StronglySorted_cons. split; [|by apply IH].
    apply Forall_forall. intros y Hy. rewrite Forall_forall in Hall.
    apply Hall. by eapply elem_of_sublist.
  - apply StronglySorted_cons in Hs as [_ Hs]. by apply IH.
Qed.

Lemma sort_by_len_sorted_id (l : list (list U)) :
  StronglySorted (λ a b : list U, length a ≤ length b) l →
  sort_by_len l = l.
Proof.
  induction l as [|x l IH]; [done|].
  intros [Hall Hs]%StronglySorted_cons. simpl. rewrite IH by done.
  destruct l as [|y l]; [done|]. simpl.
  apply Forall_cons in Hall as [Hxy _]. by rewrite decide_True.
Qed.

(** X19: the sort of the accepted sequences changes nothing: the sequences
    are checked from the shortest to the longest, so that they are
    accepted in the order of their lengths already, and they are tried in
    the reverse of the order in which they were accepted; among the
    sequences of one length, the one that was checked last is tried
    first. *)
Theorem tries_are_accepted_reversed c sentence wd :
  sort_by_len (find_accepted c (candidates sentence) wd).1
  = (find_accepted c (candidates sentence) wd).1 ∧
  construction_step c sentence wd
  = try_act c (reverse (find_accepted c (candidates sentence) wd).1)
      sentence (find_accepted c (candidates sentence) wd).2.
Proof.
  assert (sort_by_len (find_accepted c (candidates sentence) wd).1
          = (find_accepted c (candidates sentence) wd).1) as Hsort.
  { apply sort_by_len_sorted_id.
    eapply sublist_sorted; [apply find_accepted_sublist|].
    apply candidates_from_sorted. }
  split; [done|]. unfold construction_step.
  destruct (find_accepted c (candidates sentence) wd) as [accepted w1].
  simpl in *. by rewrite Hsort.
Qed.

(** *** More on the linking *)

Lemma link_parts_fixed linker m order (ps : list (list U)) :
  (∀ p, p ∈ ps → linker ∉ p) → link_parts linker m order ps = ps.
Proof.
  intros Hno. unfold link_parts.
  assert (find_from 0 linker ps = []) as ->; [|done].
  apply elem_of_nil_inv. intros j (_ & p & Hp & Hin)%find_from_elem.
  apply (Hno p); [|done]. by eapply list_elem_of_lookup_2.
Qed.

Lemma link_parts_clean linker m order (ps : list (list U)) p :
  linker ∉ order →
  p ∈ link_parts linker m order ps → linker ∉ p.
Proof.
  intros Hord [i Hi]%list_elem_of_lookup.
  assert (is_Some (ps !! i)) as [q Hq].
  { apply lookup_lt_is_Some. apply lookup_lt_Some in Hi.
    unfold link_parts in Hi.
    assert (∀ (l : list nat) (ps0 : list (list U)),
              length (foldl (λ ps i,
                        foldl (λ ps to_add,
                                 if decide (to_add ≠ m)
                                 then add_part_if_absent to_add i ps
                                 else ps)
                              (remove_part linker i ps) order) ps0 l)
              = length ps0) as Hlen.
    { intros l. induction l as [|j l IH]; intros ps0; simpl; [done|].
      rewrite IH. clear IH.
      assert (∀ (o : list U) (ps1 : list (list U)),
                length (foldl (λ ps to_add,
                          if decide (to_add ≠ m)
                          then add_part_if_absent to_add j ps
                          else ps) ps1 o) = length ps1) as Hlen'.
      { intros o. induction o as [|y o IH]; intros ps1; simpl; [done|].
        rewrite IH. case_decide; [|done].
        unfold add_part_if_absent. by rewrite length_alter. }
      rewrite Hlen'. unfold remove_part. by rewrite length_alter. }
    by rewrite Hlen in Hi. }
  rewrite (link_parts_lookup _ _ _ _ _ _ Hq) in Hi. injection Hi as <-.
  case_decide as Hin; [|done].
  rewrite add_others_elem, list_elem_of_filter. tauto.
Qed.

(** X20: a call of [_link] for an anchor that is not one of the holders
    leaves the anchor on no partition of a holder, and a second call for
    the same anchor and holders changes nothing. *)
Theorem link_twice linker machines (σ : store U) :
  linker ∉ machines →
  (∀ m p, m ∈ machines → p ∈ _link linker machines σ m → linker ∉ p) ∧
  (∀ u, _link linker machines (_link linker machines σ) u
        = _link linker machines σ u).
Proof.
  intros Hl.
  assert (linker ∉ set_iter machines) as Hord
    by (rewrite set_iter_perm; by rewrite elem_of_elements).
  assert (∀ m p, m ∈ machines → p ∈ _link linker machines σ m → linker ∉ p)
    as Hclean.
  { intros m p Hm. rewrite link_store, decide_True by done.
    by apply link_parts_clean. }
  split; [done|]. intros u. rewrite (link_store _ _ (_link _ _ σ)).
  case_decide as Hu; [|done].
  apply link_parts_fixed. intros p. by apply Hclean.
Qed.

(** *** What the loop keeps *)

Lemma remove_all_subseteq seq (sentence sentence' : gset U) :
  remove_all seq sentence = Ret sentence' → sentence' ⊆ sentence.
Proof.
  revert sentence. induction seq as [|m seq IH]; intros sentence; simpl.
  - by intros [= <-].
  - case_decide; [|done]. intros Hr%IH. set_solver.
Qed.

Lemma try_act_within (R : gset U) c tries sentence wd sentence' :
  (∀ seq wd' res m, (act c seq wd').1 = Some res → m ∈ res → m ∈ R) →
  (try_act c tries sentence wd).1.1 = Ret sentence' →
  sentence' ⊆ sentence ∪ R.
Proof.
  intros Hact. revert wd. induction tries as [|seq tries IH]; intros wd; simpl.
  - intros [= <-]. set_solver.
  - pose proof (Hact seq wd) as Hres.
    destruct (act c seq wd) as [[res|] w1]; simpl in *.
    + destruct (remove_all seq sentence) as [s1|] eqn:Hrem; [|done].
      intros [= <-]. apply remove_all_subseteq in Hrem.
      rewrite add_all_union. intros m [?|Hm%elem_of_list_to_set]%elem_of_union.
      * set_solver.
      * apply elem_of_union. right. by apply (Hres res).
    + specialize (IH w1).
      by destruct (try_act c tries sentence w1) as [[??]?].
Qed.

Lemma constructions_step_within (R : gset U) cs sentence wd sentence' :
  (∀ c seq wd' res m,
     c ∈ cs → (act c seq wd').1 = Some res → m ∈ res → m ∈ R) →
  (constructions_step cs sentence wd).1 = Ret sentence' →
  sentence' ⊆ sentence ∪ R.
Proof.
  revert sentence wd. induction cs as [|c cs IH]; intros sentence wd Hact;
    simpl.
  - intros [= <-]. set_solver.
  - assert (∀ s1, (construction_step c sentence wd).1.1 = Ret s1 →
                  s1 ⊆ sentence ∪ R) as Hc.
    { intros s1. unfold construction_step.
      destruct (find_accepted c (candidates sentence) wd) as [accepted w1].
      apply try_act_within. intros seq wd' res m. apply Hact. by left. }
    destruct (construction_step c sentence wd) as [[[s1|e] w1] calls];
      [|done].
    intros Hrest%IH.
    + specialize (Hc s1 eq_refl). set_solver.
    + intros c' seq wd' res m Hc'. apply Hact. by right.
Qed.

(** X21: the sentence is made of the units that are unexpanded when the
    loop starts, and later only results of [act] enter it: the units that
    an activation brings are expanded but never become part of the
    sentence. *)
Theorem sentence_closed (R : gset U) :
  (∀ wd c seq wd' res m,
     c ∈ constructions wd → (act c seq wd').1 = Some res →
     m ∈ res → m ∈ R) →
  ∀ fuel st st',
    loop fuel st = Some (Ret st') → sentence st' ⊆ sentence st ∪ R.
Proof.
  intros Hact fuel. induction fuel as [|fuel IH]; intros st st'; [done|].
  simpl. case_decide; [|intros [= <-]; set_solver].
  destruct (iteration st) as [st1|e] eqn:Hit; [|done].
  assert (sentence st1 ⊆ sentence st ∪ R) as Hst1.
  { unfold iteration in Hit.
    destruct (expansion (unexpanded st) (w st) (linking st))
      as [w1 linking1].
    destruct (constructions_step (constructions w1) (sentence st) w1)
      as [[s2|e] w2] eqn:Hcs; [|done].
    destruct (linking_step linking1 (partitions w2)) as [σ3 linking3].
    injection Hit as <-. simpl.
    eapply (constructions_step_within R (constructions w1) _ w1).
    - intros c seq wd' res m. apply Hact.
    - by rewrite Hcs. }
  case_decide.
  - intros [= <-]. done.
  - intros Hl%IH. simpl in Hl. set_solver.
Qed.

Lemma foldl_preserves {A X} (P : A → Prop) (f : A → X → A) l a :
  (∀ a x, P a → P (f a x)) → P a → P (foldl f a l).
Proof.
  intros Hf. revert a. induction l as [|x l IH]; intros a Ha; simpl; [done|].
  by apply IH, Hf.
Qed.

Lemma expansion_inhabited unexp wd (lk : gmap U (gset U)) :
  (∀ linker machines, lk !! linker = Some machines → machines ≠ ∅) →
  ∀ linker machines,
    (expansion unexp wd lk).2 !! linker = Some machines → machines ≠ ∅.
Proof.
  unfold expansion. intros Hlk.
  apply (foldl_preserves
           (λ wl : world * gmap U (gset U),
              ∀ linker machines,
                wl.2 !! linker = Some machines → machines ≠ ∅));
    [|done].
  intros [w1 lk1] machine Hlk1. simpl in *. unfold note_linkers.
  apply (foldl_preserves
           (λ lk2 : gmap U (gset U),
              ∀ linker machines,
                lk2 !! linker = Some machines → machines ≠ ∅)); [|done].
  intros lk2 partition Hlk2.
  apply (foldl_preserves
           (λ lk3 : gmap U (gset U),
              ∀ linker machines,
                lk3 !! linker = Some machines → machines ≠ ∅)); [|done].
  intros lk3 submachine Hlk3. destruct (is_deep_case _ _); [|done].
  intros linker machines. rewrite lookup_insert. case_decide.
  - intros [= <-]. set_solver.
  - apply Hlk3.
Qed.

Lemma linking_step_lookup (lk : gmap U (gset U)) (σ : store U) linker :
  (linking_step lk σ).2 !! linker
  = match lk !! linker with
    | Some machines =>
        if decide (1 < size machines) then None else Some machines
    | None => None
    end.
Proof.
  unfold linking_step. simpl. rewrite delete_all_lookup.
  destruct (lk !! linker) as [machines|] eqn:E.
  - destruct (decide (1 < size machines)) as [Hsz|Hsz].
    + rewrite decide_True; [done|].
      apply list_elem_of_fmap. exists (linker, machines).
      split; [done|]. by apply resolved_elem.
    + rewrite decide_False; [done|].
      intros ([l' m'] & -> & [Hl Hs]%resolved_elem)%list_elem_of_fmap.
      simpl in *. rewrite E in Hl. injection Hl as ->. done.
  - case_decide; done.
Qed.

Lemma iteration_single_holders st st' :
  iteration st = Ret st' →
  (∀ linker machines, linking st !! linker = Some machines → machines ≠ ∅) →
  ∀ linker machines,
    linking st' !! linker = Some machines → size machines = 1.
Proof.
  unfold iteration. intros Hit Hne linker machines.
  pose proof (expansion_inhabited (unexpanded st) (w st) (linking st) Hne)
    as Hne1.
  destruct (expansion (unexpanded st) (w st) (linking st)) as [w1 linking1].
  destruct (constructions_step (constructions w1) (sentence st) w1)
    as [[s2|e] w2]; [|done].
  pose proof (linking_step_lookup linking1 (partitions w2) linker) as Hl.
  destruct (linking_step linking1 (partitions w2)) as [σ3 linking3].
  injection Hit as <-. simpl in *. rewrite Hl.
  destruct (linking1 !! linker) as [ms|] eqn:E; [|done].
  case_decide as Hsz; [done|]. intros [= <-].
  specialize (Hne1 _ _ E).
  assert (size ms ≠ 0); [|lia].
  intros Hz%size_empty_iff. apply Hne1. by apply leibniz_equiv.
Qed.

(** X22: when the loop ends, every anchor that is still in the linking map
    has exactly one holder: a pass removes the anchors with two holders
    or more, and no anchor is ever recorded without a holder. *)
Theorem single_holders_at_end fuel w0 st' linker machines :
  loop fuel (initial w0) = Some (Ret st') →
  linking st' !! linker = Some machines →
  size machines = 1.
Proof.
  assert (∀ fuel st st',
            (∀ linker machines,
               linking st !! linker = Some machines → size machines = 1) →
            loop fuel st = Some (Ret st') →
            ∀ linker machines,
              linking st' !! linker = Some machines → size machines = 1)
    as Hloop.
  { clear fuel w0 st' linker machines.
    intros fuel. induction fuel as [|fuel IH]; intros st st' Hinv;
      [done|].
    simpl. case_decide; [|by intros [= <-]].
    destruct (iteration st) as [st1|e] eqn:Hit; [|done].
    assert (∀ linker machines,
              linking st1 !! linker = Some machines → size machines = 1)
      as Hinv1.
    { apply (iteration_single_holders st st1 Hit).
      intros linker machines Hl ->. apply Hinv in Hl.
      by rewrite size_empty in Hl. }
    case_decide; [by intros [= <-]|].
    by apply IH. }
  intros Hl. apply (Hloop fuel (initial w0) st'); [|done].
  intros l ms. simpl. by rewrite lookup_empty.
Qed.
End loop.

(** *** A lexicon that replays a schedule of activations

    The units are numbers; units from 100 on are deep cases. The lexicon
    keeps the units not yet expanded, the number of active entries (two at
    most) and, for every activation to come, the units it activates and the
    entries it adds. It has no construction and sends no message. *)

Record schedule_lexicon : Type := {
  pending : list nat;
  active : nat;
  schedule : list (list nat * nat);
}.

Definition sched_active_len (wd : world (U:=nat) (L:=schedule_lexicon))
    : nat :=
  Nat.min 2 (active (lexicon wd)).

Definition sched_get_unexpanded (wd : world (U:=nat) (L:=schedule_lexicon))
    : list nat :=
  pending (lexicon wd).

Definition sched_expand (u : nat) (wd : world (U:=nat) (L:=schedule_lexicon))
    : world (U:=nat) (L:=schedule_lexicon) :=
  {| lexicon := {| pending := filter (λ v, v ≠ u) (pending (lexicon wd));
                   active := active (lexicon wd);
                   schedule := schedule (lexicon wd) |};
     partitions := partitions wd |}.

Definition sched_is_deep_case (u : nat)
    (wd : world (U:=nat) (L:=schedule_lexicon)) : bool :=
  bool_decide (100 ≤ u).

Definition sched_activate (wd : world (U:=nat) (L:=schedule_lexicon))
    : world (U:=nat) (L:=schedule_lexicon) :=
  match schedule (lexicon wd) with
  | [] => wd
  | (units, gain) :: rest =>
      {| lexicon := {| pending := pending (lexicon wd) ++ units;
                       active := active (lexicon wd) + gain;
                       schedule := rest |};
         partitions := partitions wd |}
  end.

Definition sched_get_expanded (wd : world (U:=nat) (L:=schedule_lexicon))
    : list nat := [].

Definition sched_message (u : nat)
    (wd : world (U:=nat) (L:=schedule_lexicon)) : option string := None.

Definition sched_constructions (wd : world (U:=nat) (L:=schedule_lexicon))
    : list (construction (U:=nat) (L:=schedule_lexicon)) := [].

Definition sched_loop :=
  loop sched_active_len sched_get_unexpanded sched_expand sched_is_deep_case
    sched_activate sched_constructions elements map_to_list.

Definition sched_iteration :=
  iteration sched_get_unexpanded sched_expand sched_is_deep_case
    sched_activate sched_constructions elements map_to_list.

Definition sched_world (units : list nat) (plan : list (list nat * nat))
    : world (U:=nat) (L:=schedule_lexicon) :=
  {| lexicon := {| pending := units; active := 0; schedule := plan |};
     partitions := λ _, [[]] |}.

(** The first pass activates unit 2 under an entry that is active
    already: the count stays at 0 and the loop stops with unit 2
    unexpanded. With an activation that adds an entry and no unit, the
    loop stops right after the pass in which the count went from 0 to 1. *)
Lemma loop_stops_with_unexpanded :
  (∃ st,
     sched_loop 5 (initial sched_active_len sched_get_unexpanded
                     (sched_world [1] [([2], 0)])) = Some (Ret st) ∧
     unexpanded st = [2] ∧
     sched_active_len (w st) = 0) ∧
  (∃ st,
     sched_loop 5 (initial sched_active_len sched_get_unexpanded
                     (sched_world [1] [([], 1)])) = Some (Ret st) ∧
     unexpanded st = [] ∧
     last_active (initial sched_active_len sched_get_unexpanded
                    (sched_world [1] [([], 1)])) = 0 ∧
     sched_active_len (w st) = 1).
Proof.
  split; eexists; (split; [reflexivity|by split_and!]).
Qed.

Lemma sched_expansion_active unexp wd lk :
  active (lexicon (expansion sched_expand sched_is_deep_case unexp wd lk).1)
  = active (lexicon wd).
Proof.
  unfold expansion. revert wd lk.
  induction unexp as [|u unexp IH]; intros wd lk; [done|].
  simpl. by rewrite IH.
Qed.

Lemma sched_count_grows st st' :
  sched_iteration st = Ret st' →
  sched_active_len (w st) ≤ sched_active_len (w st').
Proof.
  unfold sched_iteration, iteration.
  pose proof (sched_expansion_active (unexpanded st) (w st) (linking st))
    as Hact.
  destruct (expansion sched_expand sched_is_deep_case (unexpanded st)
              (w st) (linking st)) as [w1 linking1].
  cbn [fst] in Hact.
  cbn [constructions_step sched_constructions linking_step].
  intros [= <-]. unfold sched_active_len, sched_activate. cbn [w lexicon].
  destruct (schedule (lexicon w1)) as [|[units gain] rest];
    cbn [lexicon active]; rewrite <-Hact;
    apply Nat.min_le_compat_l; lia.
Qed.

Lemma loop_stops_on_either_witness :
  ∃ st,
    sched_loop 3 (initial sched_active_len sched_get_unexpanded
                    (sched_world [1] [([2], 1); ([3], 1); ([4], 1)]))
    = Some (Ret st) ∧
    activation_loop sched_active_len sched_get_unexpanded sched_expand
      sched_is_deep_case sched_activate sched_get_expanded sched_message
      sched_constructions elements map_to_list 3
      (sched_world [1] [([2], 1); ([3], 1); ([4], 1)])
    = Some (Ret (messages sched_get_expanded sched_message (w st))).
Proof.
  destruct (loop_stops_on_either sched_active_len sched_get_unexpanded
              sched_expand sched_is_deep_case sched_activate
              sched_get_expanded sched_message sched_constructions
              elements (λ s, Permutation_refl _)
              map_to_list (λ d, Permutation_refl _) 2)
    as (_ & _ & _ & _ & Hterm).
  apply Hterm.
  - apply sched_count_grows.
  - intros wd. apply Nat.le_min_l.
  - vm_compute. lia.
Defined.

(** A construction that accepts the unit 2 alone and the units 1, 2 in
    that order, and acts only on the unit 2, which it replaces by the
    unit 3. *)
Definition pair_construction : construction (U:=nat) (L:=schedule_lexicon) :=
  {| check seq wd := (bool_decide (seq = [1; 2] ∨ seq = [2]), wd);
     act seq wd := (if decide (seq = [2]) then Some [3] else None, wd) |}.

Lemma construction_step_commits_witness :
  (construction_step elements pair_construction {[1; 2]}
     (sched_world [1; 2] [])).2
  = [([1; 2], None); ([2], Some [3])] ∧
  (construction_step elements pair_construction {[1; 2]}
     (sched_world [1; 2] [])).1.1 = Ret {[1; 3]} ∧
  StronglySorted (λ a b : list nat, length b ≤ length a)
    (reverse (sort_by_len
       (find_accepted pair_construction
          (candidates elements {[1; 2]}) (sched_world [1; 2] [])).1)).
Proof.
  split_and!; [vm_compute; reflexivity..|].
  destruct (construction_step_commits sched_get_unexpanded sched_expand
              sched_is_deep_case sched_activate sched_message
              (λ _, [pair_construction]) elements (λ s, Permutation_refl _)
              map_to_list (λ d, Permutation_refl _) pair_construction
              {[1; 2]} (sched_world [1; 2] [])) as (_ & Hsorted & _).
  exact Hsorted.
Defined.

(** Units 1 and 2 hold the anchor 100, unit 3 alone holds the anchor
    101. *)
Definition anchored_store : store nat :=
  λ u, match u with
       | 1 => [[]; [100]]
       | 2 => [[]; [100; 5]]
       | 3 => [[]; [101]]
       | _ => [[]]
       end.

Definition anchored_linking : gmap nat (gset nat) :=
  {[ 100 := {[1; 2]}; 101 := {[3]} ]}.

Lemma link_resolution_witness :
  resolved map_to_list anchored_linking = [(100, {[1; 2]})] ∧
  (linking_step elements map_to_list anchored_linking anchored_store).2
    !! 100 = None ∧
  (linking_step elements map_to_list anchored_linking anchored_store).2
    !! 101 = Some {[3]} ∧
  (linking_step elements map_to_list anchored_linking anchored_store).1 1
  = [[]; [2]] ∧
  (linking_step elements map_to_list anchored_linking anchored_store).1 2
  = [[]; [5; 1]] ∧
  (linking_step elements map_to_list anchored_linking anchored_store).1 3
  = [[]; [101]].
Proof.
  destruct (link_resolution sched_active_len sched_get_unexpanded
              sched_expand sched_is_deep_case sched_activate
              sched_get_expanded sched_message sched_constructions
              elements (λ s, Permutation_refl _)
              map_to_list (λ d, Permutation_refl _)
              anchored_linking anchored_store)
    as (_ & _ & Hstore & Hmap & _).
  split_and!.
  - vm_compute. reflexivity.
  - rewrite Hmap. vm_compute. reflexivity.
  - rewrite Hmap. vm_compute. reflexivity.
  - rewrite Hstore. vm_compute. reflexivity.
  - rewrite Hstore. vm_compute. reflexivity.
  - rewrite Hstore. vm_compute. reflexivity.
Defined.

(** *** A base construction in the loop *)

(** A base [Construction] as a construction of the loop: its own state and
    the context of its control are part of what the lexicon keeps. *)
Definition base_construction {K W U : Type} `{Countable U}
    `{fst.Automaton K U W}
    : construction (U:=U) (L:=construction.Construction.t K * W) :=
  {| check seq wd :=
       let r := construction.Construction.check (lexicon wd).1 seq
                  (lexicon wd).2 in
       (r.1.1, {| lexicon := (r.1.2, r.2); partitions := partitions wd |});
     act seq wd :=
       let r := construction.Construction.act (lexicon wd).1 seq
                  (lexicon wd).2 in
       (r.1.1, {| lexicon := (r.1.2, r.2); partitions := partitions wd |}) |}.

(** C10: [act] of a base construction returns [None] for every sequence,
    so [run] returns [None] whether or not the control accepts the
    sequence, and the construction step of the loop leaves the sentence as
    it was. *)
Theorem base_construction_never_acts {K W U : Type} `{Countable U}
    `{fst.Automaton K U W} (self : construction.Construction.t K)
    (seq : list U) (w0 : W) :
  (construction.Construction.act self seq w0).1.1 = None ∧
  (construction.Construction.run self seq w0).1.1 = None ∧
  (∀ set_iter sentence wd,
     (construction_step set_iter base_construction sentence wd).1.1
     = Ret sentence).
Proof.
  split_and!.
  - done.
  - unfold construction.Construction.run.
    destruct (construction.Construction.check self seq w0) as [[b self1] w1].
    by destruct (fst.in_final (construction.Construction.control self1)).
  - intros set_iter sentence wd. unfold construction_step.
    destruct (find_accepted _ _ _) as [accepted w1].
    by apply try_act_None.
Qed.

(** *** Instances for the steps and the invariants of the loop *)


Lemma link_twice_witness :
  _link elements 100 {[1; 2]} (_link elements 100 {[1; 2]} anchored_store) 2
  = [[]; [5; 1]].
Proof.
  destruct (link_twice sched_expand sched_is_deep_case sched_message
              elements (λ s, Permutation_refl _)
              map_to_list (λ d, Permutation_refl _)
              100 {[1; 2]} anchored_store) as [_ Hsame]; [set_solver|].
  rewrite Hsame. vm_compute. reflexivity.
Defined.

(** The lexicon of the schedule with the construction that replaces the
    unit 2 by the unit 3. *)
Definition pair_loop :=
  loop sched_active_len sched_get_unexpanded sched_expand sched_is_deep_case
    sched_activate (λ _, [pair_construction]) elements map_to_list.

Lemma sentence_closed_witness :
  ∃ st,
    pair_loop 3 (initial sched_active_len sched_get_unexpanded
                   (sched_world [1; 2] [([4], 1)])) = Some (Ret st) ∧
    sentence st
    ⊆ sentence (initial sched_active_len sched_get_unexpanded
                  (sched_world [1; 2] [([4], 1)])) ∪ {[3]}.
Proof.
  eexists. split; [reflexivity|].
  apply (sentence_closed sched_active_len sched_get_unexpanded sched_expand
           sched_is_deep_case sched_activate sched_get_expanded sched_message
           (λ _, [pair_construction]) elements (λ s, Permutation_refl _)
           map_to_list (λ d, Permutation_refl _) {[3]}) with (fuel := 3).
  - intros wd c seq wd' res m ->%list_elem_of_singleton. simpl.
    case_decide; [|done]. intros [= <-]. set_solver.
  - reflexivity.
Defined.

(** The units 1 and 2 hold the anchor 100 and the unit 3 holds the anchor
    101; all three are unexpanded. *)
Definition anchored_world : world (U:=nat) (L:=schedule_lexicon) :=
  {| lexicon := {| pending := [1; 2; 3]; active := 0; schedule := [] |};
     partitions := anchored_store |}.

Lemma single_holders_at_end_witness :
  ∃ st,
    sched_loop 3 (initial sched_active_len sched_get_unexpanded
                    anchored_world) = Some (Ret st) ∧
    linking st !! 100 = None ∧
    linking st !! 101 = Some {[3]} ∧
    size ({[3]} : gset nat) = 1.
Proof.
  eexists. split_and!; [reflexivity|vm_compute; reflexivity..|].
  eapply (single_holders_at_end sched_active_len sched_get_unexpanded
           sched_expand sched_is_deep_case sched_activate sched_get_expanded
           sched_message sched_constructions elements
           (λ s, Permutation_refl _) map_to_list (λ d, Permutation_refl _)
           3 anchored_world _ 101 {[3]}).
  - reflexivity.
  - vm_compute. reflexivity.
Defined.
End spreading_activation.
